(** * F1 race replay: the telemetry synchronisation engine of [src/f1_data.py]

    A shallow embedding of [get_race_telemetry]: per-driver lap assembly,
    the shared timeline, resampling, ranking of frames, track-status
    intervals and the cache gate in front of them, with the name of the
    cache file and its write-back, the colour table of [get_driver_colors]
    and the command line of [main.py].

    Numbers.  The program computes on IEEE doubles.  Every finite double
    is a rational, so a number is a rational in canonical form ([Qc]) and
    equal numbers are equal terms.  The timeline is where rounding decides
    what is computed, how many instants there are and which: there every
    operation is the exact one followed by [fl], rounding to the nearest
    binary64 number, ties to even.  Elsewhere the operations are exact and
    the statements say which samples and which expression make up a value.
    NaN, infinities and overflow are outside the model.

    Dictionaries.  A Python [dict] keeps its keys in insertion order and
    [sorted] is stable, so the order of [driver_data] decides how ties are
    ranked.  Dictionaries are therefore association lists updated in place
    ([dict_set]), not finite maps. *)

From Stdlib Require Import String Ascii ZArith NArith QArith Qcanon Qround Qpower.
From Stdlib Require Import Lia Lqa Bool Arith List Permutation Sorted.
Import ListNotations.
Close Scope Qc_scope.
Close Scope Q_scope.
Local Open Scope list_scope.

(** ** Numbers *)

Definition num := Qc.

Definition of_Z (z : Z) : num := Q2Qc (inject_Z z).

Definition Qcleb (a b : num) : bool := Qle_bool a b.
Definition Qcltb (a b : num) : bool := negb (Qle_bool b a).

(** Python's [min(a, b)] and [max(a, b)] return the first argument unless
    the second is strictly better. *)
Definition py_min (a b : num) : num := if Qcltb b a then b else a.
Definition py_max (a b : num) : num := if Qcltb a b then b else a.

(** [arr.min()] and [arr.max()] of a non-empty array. *)
Definition arr_min (a : list num) : num :=
  match a with [] => 0%Qc | v :: r => fold_left py_min r v end.
Definition arr_max (a : list num) : num :=
  match a with [] => 0%Qc | v :: r => fold_left py_max r v end.

(** Python's [round(v)] on a float: nearest integer, halves to the even
    neighbour. *)
Definition py_round (v : num) : Z :=
  let f := Qfloor v in
  let r := (v - of_Z f)%Qc in
  let half := Q2Qc (1 # 2) in
  if Qcltb r half then f
  else if Qcltb half r then (f + 1)%Z
  else if Z.even f then f else (f + 1)%Z.

(** [round(v, 4)]. *)
Definition round4 (v : num) : num :=
  (of_Z (py_round (v * of_Z 10000)) / of_Z 10000)%Qc.

(** ** Binary64 rounding *)

(** The nearest integer, halves to the even neighbour. *)
Definition rne (q : Q) : Z :=
  let f := Qfloor q in
  match Qcompare (q - inject_Z f) (1 # 2) with
  | Lt => f
  | Gt => (f + 1)%Z
  | Eq => if Z.even f then f else (f + 1)%Z
  end.

(** [floor (log2 q)] of a positive [q]. *)
Definition ilog2 (q : Q) : Z :=
  let k := (Z.log2 (Qnum q) - Z.log2 (Z.pos (Qden q)))%Z in
  if Qle_bool (2 ^ k) q then k else (k - 1)%Z.

(** The exponent of the last place of the doubles around [q]: 53
    significant bits, and 2^-1074 is the smallest positive double. *)
Definition fexp (q : Q) : Z := Z.max (ilog2 q - 52) (-1074).

Definition fl_pos (q : Q) : Q :=
  (inject_Z (rne (q / 2 ^ fexp q)) * 2 ^ fexp q)%Q.

(** The double nearest to [q], ties to even. *)
Definition flQ (q : Q) : Q :=
  match Qcompare q 0 with
  | Eq => 0%Q
  | Gt => fl_pos q
  | Lt => (- fl_pos (- q))%Q
  end.

Definition fl (v : num) : num := Q2Qc (flQ v).

(** [a + b], [a - b], [a * b] and [a / b] on doubles. *)
Definition fadd (a b : num) : num := fl (a + b)%Qc.
Definition fsub (a b : num) : num := fl (a - b)%Qc.
Definition fmul (a b : num) : num := fl (a * b)%Qc.
Definition fdiv (a b : num) : num := fl (a / b)%Qc.

(** ** Exceptions *)

Inductive exn : Set :=
| ValueError | AttributeError | IndexError | TypeError.

Inductive result (A : Type) : Type :=
| Ok (a : A)
| Raise (e : exn).
Arguments Ok {A} a.
Arguments Raise {A} e.

Definition bind {A B} (c : result A) (k : A -> result B) : result B :=
  match c with Ok a => k a | Raise e => Raise e end.

Notation "x <- c ;; k" := (bind c (fun x => k))
  (at level 61, c at next level, right associativity).

(** A loop whose body may raise: the first exception leaves the loop. *)
Fixpoint foldM {A B} (f : A -> B -> result A) (l : list B) (a : A) : result A :=
  match l with
  | [] => Ok a
  | b :: l' => a' <- f a b ;; foldM f l' a'
  end.

Definition is_ok {A} (r : result A) : bool :=
  match r with Ok _ => true | Raise _ => false end.

(** ** Dictionaries in insertion order *)

Section Dict.
Context {V : Type}.

(** [d[k] = v]: an existing key keeps its place, a new key goes last. *)
Fixpoint dict_set (k : string) (v : V) (d : list (string * V)) : list (string * V) :=
  match d with
  | [] => [(k, v)]
  | (k', v') :: d' =>
      if String.eqb k' k then (k, v) :: d' else (k', v') :: dict_set k v d'
  end.

Fixpoint dict_get (k : string) (d : list (string * V)) : option V :=
  match d with
  | [] => None
  | (k', v') :: d' => if String.eqb k' k then Some v' else dict_get k d'
  end.

Definition keys (d : list (string * V)) : list string := map fst d.
Definition values (d : list (string * V)) : list V := map snd d.
End Dict.

(** ** Sorting

    [sorted(..., reverse=True)] is stable, and so is the model of
    [np.argsort]: an element moves past another only when it is strictly
    [before] it. *)

Section StableSort.
Context {A : Type} (before : A -> A -> bool).

Fixpoint insert (a : A) (l : list A) : list A :=
  match l with
  | [] => [a]
  | b :: l' => if before b a then b :: insert a l' else a :: l
  end.

Definition stable_sort (l : list A) : list A := fold_right insert [] l.
End StableSort.

Definition enumerate {A} (l : list A) : list (nat * A) :=
  combine (seq 0 (length l)) l.

(** [np.argsort(a)]: the indices of [a] in ascending order of value. *)
Definition argsort (a : list num) : list nat :=
  map fst (stable_sort (fun p q => Qcltb (snd p) (snd q)) (enumerate a)).

(** [arr[order]]: an index past the end raises [IndexError]. *)
Fixpoint index_by (arr : list num) (order : list nat) : result (list num) :=
  match order with
  | [] => Ok []
  | i :: order' =>
      match nth_error arr i with
      | None => Raise IndexError
      | Some v => r <- index_by arr order' ;; Ok (v :: r)
      end
  end.

(** ** What the provider hands over *)

(** The telemetry table of one lap, by column.  [SessionTime] is already
    in seconds.  The four required columns are always there; the other
    five may be missing. *)
Record telemetry : Type := mk_telemetry {
  SessionTime : list num;
  X : list num;
  Y : list num;
  Distance : list num;
  RelativeDistance : option (list num);
  Speed : option (list num);
  SpeedKph : option (list num);
  nGear : option (list num);
  DRS : option (list num)
}.

(** [lap_tel.empty]: the table has no rows. *)
Definition empty (lap_tel : telemetry) : bool :=
  match SessionTime lap_tel with [] => true | _ => false end.

(** One lap: [get_telemetry] is [None] when the call raises. *)
Record lap : Type := mk_lap {
  LapNumber : Z;
  Compound : string;
  get_telemetry : option telemetry
}.

(** One row of the track-status log; [Time] is [None] when the row has no
    usable timedelta, [Status] is [None] when the key is missing. *)
Record status_row : Type := mk_status_row {
  Time : option num;
  Status : option string
}.

Definition rgb : Set := (Z * Z * Z)%type.

(** The loaded session.  [get_driver n] is the abbreviation of driver
    number [n], or [None] when the lookup raises; [pick_drivers n] is the
    laps of [n] in order, or [None] when the call raises; [track_status]
    is [None] when the session has no such attribute; [driver_colors] is
    the provider's colour table as [get_driver_colors] returns it. *)
Record session : Type := mk_session {
  drivers : list string;
  get_driver : string -> option string;
  pick_drivers : string -> option (list lap);
  track_status : option (list status_row);
  driver_colors : list (string * rgb)
}.

(** ** Values on which [.to_numpy()] is called *)

Inductive pyobj : Type :=
| Series (v : list num)      (* a pandas column *)
| NDArray (v : list num)     (* a bare numpy array *)
| PyNone.

(** Only a pandas [Series] has the method. *)
Definition to_numpy (o : pyobj) : result (list num) :=
  match o with
  | Series v => Ok v
  | NDArray _ => Raise AttributeError
  | PyNone => Raise AttributeError
  end.

(** [lap_tel.get(key, default)]. *)
Definition df_get (column : option (list num)) (default : pyobj) : pyobj :=
  match column with
  | Some v => Series v
  | None => default
  end.

Definition zeros_like (a : list num) : list num := repeat 0%Qc (length a).
Definition full_like (a : list num) (v : Z) : list num := repeat (of_Z v) (length a).

(** ** Working state *)

(** The ten channels of a driver: used for the lists of per-lap arrays,
    for the concatenated trace and for the resampled trace. *)
Record channels (A : Type) : Type := mk_channels {
  ch_t : A; ch_x : A; ch_y : A; ch_dist : A; ch_rel_dist : A;
  ch_lap : A; ch_tyre : A; ch_speed : A; ch_gear : A; ch_drs : A
}.
Arguments mk_channels {A}.
Arguments ch_t {A}. Arguments ch_x {A}. Arguments ch_y {A}.
Arguments ch_dist {A}. Arguments ch_rel_dist {A}. Arguments ch_lap {A}.
Arguments ch_tyre {A}. Arguments ch_speed {A}. Arguments ch_gear {A}.
Arguments ch_drs {A}.

Definition parts_t := channels (list (list num)).
Definition trace := channels (list num).

Definition empty_parts : parts_t := mk_channels [] [] [] [] [] [] [] [] [] [].

Record extract_state : Type := mk_extract {
  driver_data : list (string * trace);
  global_t_min : option num;
  global_t_max : option num;
  max_lap_number : Z
}.

(** Lines 17-18: [FPS] is an [int], [DT = 1 / FPS] the double nearest to
    1/25. *)
Definition FPS : num := of_Z 25.
Definition DT : num := fdiv (of_Z 1) FPS.

(** ** 1. Per-driver telemetry, lap by lap *)

Section Engine.
(** [get_tyre_compound_int] lives in [src/lib/tyres], which is not part of
    the sources at hand: the engine is parametric in it. *)
Variable get_tyre_compound_int : string -> Z.
Variable s : session.

(** The dictionary [driver_codes] (lines 89-94): number to abbreviation,
    the number itself when the lookup raises. *)
Definition build_driver_codes : list (string * string) :=
  fold_left
    (fun dc n =>
       dict_set n (match get_driver s n with Some a => a | None => n end) dc)
    (drivers s) [].

(** [driver_codes.get(driver_no, str(driver_no))]. *)
Definition code_of (driver_codes : list (string * string)) (driver_no : string) : string :=
  match dict_get driver_no driver_codes with
  | Some c => c
  | None => driver_no
  end.

(** The body of the loop over [laps_driver.iterlaps()] (lines 123-158).
    The state is [parts] and [total_dist_so_far]. *)
Definition process_lap (st : parts_t * num) (l : lap) : result (parts_t * num) :=
  let '(parts, total_dist_so_far) := st in
  match get_telemetry l with
  | None => Ok st                                   (* except: continue *)
  | Some lap_tel =>
      let lap_number := LapNumber l in
      let tyre_compound_int := get_tyre_compound_int (Compound l) in
      if empty lap_tel then Ok st                   (* continue *)
      else
        let t_lap := SessionTime lap_tel in
        let x_lap := X lap_tel in
        let y_lap := Y lap_tel in
        let d_lap := Distance lap_tel in
        rd_lap <- to_numpy (df_get (RelativeDistance lap_tel) (Series (Distance lap_tel))) ;;
        speed_kph_lap <- to_numpy (df_get (Speed lap_tel) (df_get (SpeedKph lap_tel) PyNone)) ;;
        gear_lap <- to_numpy (df_get (nGear lap_tel) (NDArray (zeros_like t_lap))) ;;
        drs_lap <- to_numpy (df_get (DRS lap_tel) (NDArray (zeros_like t_lap))) ;;
        let race_d_lap := map (Qcplus total_dist_so_far) d_lap in
        Ok ({| ch_t := ch_t parts ++ [t_lap];
               ch_x := ch_x parts ++ [x_lap];
               ch_y := ch_y parts ++ [y_lap];
               ch_dist := ch_dist parts ++ [race_d_lap];
               ch_rel_dist := ch_rel_dist parts ++ [rd_lap];
               ch_lap := ch_lap parts ++ [full_like t_lap lap_number];
               ch_tyre := ch_tyre parts ++ [full_like t_lap tyre_compound_int];
               ch_speed := ch_speed parts ++ [speed_kph_lap];
               ch_gear := ch_gear parts ++ [gear_lap];
               ch_drs := ch_drs parts ++ [drs_lap] |},
            last race_d_lap total_dist_so_far)
  end.

(** The loop itself, from empty [parts] and a zero offset (lines 117-123). *)
Definition process_laps (laps_driver : list lap) : result (parts_t * num) :=
  foldM process_lap laps_driver (empty_parts, 0%Qc).

(** The [try] block that concatenates every channel and sorts it by
    time (lines 164-184). *)
Definition concat_and_sort (parts : parts_t) : result trace :=
  let t_all := concat (ch_t parts) in
  let order := argsort t_all in
  let _concat_and_sort (arrs : list (list num)) := index_by (concat arrs) order in
  t_all <- index_by t_all order ;;
  x_all <- _concat_and_sort (ch_x parts) ;;
  y_all <- _concat_and_sort (ch_y parts) ;;
  dist_all <- _concat_and_sort (ch_dist parts) ;;
  rel_dist_all <- _concat_and_sort (ch_rel_dist parts) ;;
  lap_all <- _concat_and_sort (ch_lap parts) ;;
  tyre_all <- _concat_and_sort (ch_tyre parts) ;;
  speed_all <- _concat_and_sort (ch_speed parts) ;;
  gear_all <- _concat_and_sort (ch_gear parts) ;;
  drs_all <- _concat_and_sort (ch_drs parts) ;;
  Ok (mk_channels t_all x_all y_all dist_all rel_dist_all
                  lap_all tyre_all speed_all gear_all drs_all).

(** [laps_driver.LapNumber.max()] of a non-empty lap table. *)
Definition LapNumber_max (laps_driver : list lap) : Z :=
  match map LapNumber laps_driver with
  | [] => 0%Z
  | n :: r => fold_left Z.max r n
  end.

(** Lines 186-202: the trace is filed under [code] and the global bounds
    take in its first and last time. *)
Definition retain (st : extract_state) (code : string) (data : trace) : extract_state :=
  let t_min := arr_min (ch_t data) in
  let t_max := arr_max (ch_t data) in
  {| driver_data := dict_set code data (driver_data st);
     global_t_min := Some (match global_t_min st with
                           | None => t_min
                           | Some g => py_min g t_min
                           end);
     global_t_max := Some (match global_t_max st with
                           | None => t_max
                           | Some g => py_max g t_max
                           end);
     max_lap_number := max_lap_number st |}.

(** The body of the loop over [drivers] (lines 102-202). *)
Definition process_driver (driver_codes : list (string * string))
           (st : extract_state) (driver_no : string) : result extract_state :=
  let code := code_of driver_codes driver_no in
  match pick_drivers s driver_no with
  | None => Ok st                                   (* except: continue *)
  | Some laps_driver =>
      match laps_driver with
      | [] => Ok st                                 (* laps_driver.empty *)
      | _ :: _ =>
          let st := {| driver_data := driver_data st;
                       global_t_min := global_t_min st;
                       global_t_max := global_t_max st;
                       max_lap_number :=
                         Z.max (max_lap_number st) (LapNumber_max laps_driver) |} in
          r <- process_laps laps_driver ;;
          let parts := fst r in
          match ch_t parts with
          | [] => Ok st                             (* not parts['t'] *)
          | _ :: _ =>
              match concat_and_sort parts with
              | Raise _ => Ok st                    (* except: continue *)
              | Ok data => Ok (retain st code data)
              end
          end
      end
  end.

(** Lines 96-99. *)
Definition init_state : extract_state :=
  {| driver_data := []; global_t_min := None; global_t_max := None;
     max_lap_number := 0 |}.

(** Step 1 as a whole. *)
Definition extract : result extract_state :=
  foldM (process_driver build_driver_codes) (drivers s) init_state.
End Engine.

(** ** 2. The timeline *)

(** [np.arange(start, stop, step)] on doubles, as numpy computes it: the
    length is the ceiling of [(stop - start) / step]; the first two
    values are [start] and [start + step]; the others are
    [start + i * delta] with [delta] the difference of the first two.
    Every operation rounds. *)
Definition arange (start stop step : num) : list num :=
  let length := Z.to_nat (Qceiling (fdiv (fsub stop start) step)) in
  let next := fadd start step in
  let delta := fsub next start in
  map (fun i => match i with
                | 0 => start
                | 1 => next
                | _ => fadd start (fmul (of_Z (Z.of_nat i)) delta)
                end)
      (seq 0 length).

(** Line 208. *)
Definition make_timeline (global_t_min global_t_max : num) : list num :=
  map (fun v => fsub v global_t_min)
      (arange global_t_min (fadd global_t_max DT) DT).

(** ** 3. Resampling *)

(** The number of leading sample points that are [<= x]; on an ascending
    [xp] this is one more than the index that numpy's binary search
    returns. *)
Fixpoint bracket (x : num) (xp : list num) : nat :=
  match xp with
  | [] => 0
  | v :: r => if Qcleb v x then S (bracket x r) else 0
  end.

(** One value of [np.interp(x, xp, fp)]: [fp[0]] to the left of the sample
    points, [fp[-1]] to their right, the sample itself at the last point or
    on a sample point, the chord through the two neighbours otherwise. *)
Definition interp1 (xp fp : list num) (x : num) : num :=
  let lval := hd 0%Qc fp in
  let rval := last fp 0%Qc in
  if Qcltb x (hd 0%Qc xp) then lval
  else if Qcltb (last xp 0%Qc) x then rval
  else
    let j := bracket x xp - 1 in
    if j =? length xp - 1 then nth j fp 0%Qc
    else if Qc_eq_bool (nth j xp 0%Qc) x then nth j fp 0%Qc
    else
      let slope := ((nth (S j) fp 0 - nth j fp 0) / (nth (S j) xp 0 - nth j xp 0))%Qc in
      (slope * (x - nth j xp 0) + nth j fp 0)%Qc.

(** [np.interp] refuses an empty [xp] and arrays of different lengths. *)
Definition np_interp (x xp fp : list num) : result (list num) :=
  match xp with
  | [] => Raise ValueError
  | _ :: _ =>
      if length xp =? length fp then Ok (map (interp1 xp fp) x)
      else Raise ValueError
  end.

(** The [try] block of the resampling loop for one driver (lines 213-232). *)
Definition resample_driver (timeline : list num) (global_t_min : num)
           (data : trace) : result trace :=
  let t := map (fun v => (v - global_t_min)%Qc) (ch_t data) in
  let order := argsort t in
  t_sorted <- index_by t order ;;
  let _safe_interp (arr : list num) :=
    a <- index_by arr order ;; np_interp timeline t_sorted a in
  x <- _safe_interp (ch_x data) ;;
  y <- _safe_interp (ch_y data) ;;
  dist <- _safe_interp (ch_dist data) ;;
  rel_dist <- _safe_interp (ch_rel_dist data) ;;
  lap_ <- _safe_interp (ch_lap data) ;;
  tyre <- _safe_interp (ch_tyre data) ;;
  speed <- _safe_interp (ch_speed data) ;;
  gear <- _safe_interp (ch_gear data) ;;
  drs <- _safe_interp (ch_drs data) ;;
  Ok (mk_channels timeline x y dist rel_dist lap_ tyre speed gear drs).

(** The loop over [driver_data.items()]: a driver whose block raises gets
    no entry. *)
Definition resample (timeline : list num) (global_t_min : num)
           (driver_data : list (string * trace)) : list (string * trace) :=
  fold_left
    (fun resampled_data '(code, data) =>
       match resample_driver timeline global_t_min data with
       | Ok r => dict_set code r resampled_data
       | Raise _ => resampled_data
       end)
    driver_data [].

(** ** 4. Track-status intervals *)

Record status_interval : Type := mk_interval {
  status : option string;
  start_time : num;
  end_time : option num
}.

(** [formatted_track_statuses[-1]['end_time'] = start_time]. *)
Fixpoint set_last_end (l : list status_interval) (e : num) : list status_interval :=
  match l with
  | [] => []
  | [i] => [{| status := status i; start_time := start_time i; end_time := Some e |}]
  | i :: l' => i :: set_last_end l' e
  end.

(** The loop over the status rows (lines 241-251).  It sits in one [try]:
    a row that raises ends the loop and keeps what was built so far. *)
Fixpoint status_loop (global_t_min : num) (rows : list status_row)
         (formatted_track_statuses : list status_interval) : list status_interval :=
  match rows with
  | [] => formatted_track_statuses
  | row :: rows' =>
      match Time row with
      | None => formatted_track_statuses
      | Some seconds =>
          let start_time := (seconds - global_t_min)%Qc in
          status_loop global_t_min rows'
            (set_last_end formatted_track_statuses start_time
               ++ [{| status := Status row; start_time := start_time; end_time := None |}])
      end
  end.

(** Lines 237-253: no status attribute, no intervals. *)
Definition format_track_statuses (global_t_min : num)
           (track_status : option (list status_row)) : list status_interval :=
  match track_status with
  | None => []
  | Some rows => status_loop global_t_min rows []
  end.

(** ** 5. Frames *)

(** A driver in [frame_drivers] and in [snapshot]. *)
Record sample : Type := mk_sample {
  s_x : num; s_y : num; s_dist : num; s_lap : Z; s_rel_dist : num;
  s_tyre : num; s_speed : num; s_gear : Z; s_drs : Z
}.

(** A driver in a finished frame. *)
Record car : Type := mk_car {
  x : num; y : num; dist : num; lap_no : Z; rel_dist : num; tyre : num;
  position : nat; speed : num; gear : Z; drs : Z
}.

Record frame : Type := mk_frame {
  t : num;
  leader_lap : Z;
  frame_data : list (string * car)
}.

Definition opt_bind {A B} (o : option A) (k : A -> option B) : option B :=
  match o with Some a => k a | None => None end.

(** The [try] block that reads tick [i] of one resampled driver; [None]
    when an index is out of range. *)
Definition sample_at (d : trace) (i : nat) : option sample :=
  opt_bind (nth_error (ch_x d) i) (fun vx =>
  opt_bind (nth_error (ch_y d) i) (fun vy =>
  opt_bind (nth_error (ch_dist d) i) (fun vdist =>
  opt_bind (nth_error (ch_lap d) i) (fun vlap =>
  opt_bind (nth_error (ch_rel_dist d) i) (fun vrel =>
  opt_bind (nth_error (ch_tyre d) i) (fun vtyre =>
  opt_bind (nth_error (ch_speed d) i) (fun vspeed =>
  opt_bind (nth_error (ch_gear d) i) (fun vgear =>
  opt_bind (nth_error (ch_drs d) i) (fun vdrs =>
  Some {| s_x := vx; s_y := vy; s_dist := vdist; s_lap := py_round vlap;
          s_rel_dist := vrel; s_tyre := vtyre; s_speed := vspeed;
          s_gear := py_round vgear; s_drs := py_round vdrs |}))))))))).

(** The dictionary [frame_drivers] of tick [i] (lines 258-273). *)
Definition frame_drivers_at (resampled_data : list (string * trace)) (i : nat)
  : list (string * sample) :=
  fold_left
    (fun frame_drivers '(code, d) =>
       match sample_at d i with
       | Some v => dict_set code v frame_drivers
       | None => frame_drivers                        (* except: continue *)
       end)
    resampled_data [].

(** [sorted(..., key=lambda r: r['dist'], reverse=True)]. *)
Definition sort_snapshot (frame_drivers : list (string * sample)) : list (string * sample) :=
  stable_sort (fun p q => Qcltb (s_dist (snd q)) (s_dist (snd p))) frame_drivers.

(** The dictionary [frame_data]: the snapshot with [position = idx + 1]
    (lines 287-300). *)
Definition rank (snapshot : list (string * sample)) : list (string * car) :=
  fold_left
    (fun frame_data '(idx, (code, c)) =>
       dict_set code
         {| x := s_x c; y := s_y c; dist := s_dist c; lap_no := s_lap c;
            rel_dist := round4 (s_rel_dist c); tyre := s_tyre c;
            position := idx + 1; speed := s_speed c; gear := s_gear c;
            drs := s_drs c |}
         frame_data)
    (enumerate snapshot) [].

(** One turn of the loop over [enumerate(timeline)] (lines 257-302): [None]
    when the tick gets no frame. *)
Definition build_frame (resampled_data : list (string * trace)) (i : nat) (tick : num)
  : option frame :=
  match frame_drivers_at resampled_data i with
  | [] => None                                        (* not frame_drivers *)
  | frame_drivers =>
      match sort_snapshot frame_drivers with
      | [] => None
      | (leader :: _) as snapshot =>
          Some {| t := tick; leader_lap := s_lap (snd leader);
                  frame_data := rank snapshot |}
      end
  end.

(** The list [frames], in timeline order. *)
Definition build_frames (resampled_data : list (string * trace)) (timeline : list num)
  : list frame :=
  flat_map
    (fun '(i, tick) =>
       match build_frame resampled_data i tick with
       | Some f => [f]
       | None => []
       end)
    (enumerate timeline).

(** ** 6. The payload and the cache gate *)

Record payload : Type := mk_payload {
  frames : list frame;
  payload_driver_colors : list (string * rgb);
  track_statuses : list status_interval;
  total_laps : Z
}.

(** Everything below the cache lookup (lines 86-321). *)
Definition compute_telemetry (get_tyre_compound_int : string -> Z) (s : session)
  : result payload :=
  st <- extract get_tyre_compound_int s ;;
  match driver_data st, global_t_min st, global_t_max st with
  | _ :: _, Some gmin, Some gmax =>
      let timeline := make_timeline gmin gmax in
      let resampled_data := resample timeline gmin (driver_data st) in
      let formatted_track_statuses := format_track_statuses gmin (track_status s) in
      Ok {| frames := build_frames resampled_data timeline;
            payload_driver_colors := driver_colors s;
            track_statuses := formatted_track_statuses;
            total_laps := max_lap_number st |}
  | _, _, _ => Raise ValueError
  end.

(** A parsed JSON document and its truth value in Python. *)
#[warnings="-register-all"]
Inductive json : Type :=
| JNull
| JBool (b : bool)
| JNumber (q : Q)
| JString (str : string)
| JArray (items : list json)
| JObject (members : list (string * json)).

(** [bool(v)]. *)
Definition truthy (v : json) : bool :=
  match v with
  | JNull => false
  | JBool b => b
  | JNumber q => negb (Qeq_bool q 0)
  | JString str => negb (String.eqb str EmptyString)
  | JArray items => match items with [] => false | _ => true end
  | JObject members => match members with [] => false | _ => true end
  end.

(** The file at the cache path. *)
Inductive cache_file : Type :=
| Missing                    (* os.path.exists is false *)
| Unreadable                 (* open or json.load raises *)
| Document (v : json).

(** Lines 54-63: [None] unless the file is there and parses. *)
Definition _load_cached (c : cache_file) : option json :=
  match c with
  | Missing => None
  | Unreadable => None
  | Document v => Some v
  end.

(** What the caller gets back. *)
Inductive telemetry_result : Type :=
| Cached (v : json)
| Computed (p : payload).

(** [refresh] says whether [--refresh-data] is among the arguments.  The
    write-back of a computed payload changes the file, not the value
    returned, and a failed write is swallowed. *)
Definition get_race_telemetry (get_tyre_compound_int : string -> Z) (refresh : bool)
           (c : cache_file) (s : session) : result telemetry_result :=
  let recompute := p <- compute_telemetry get_tyre_compound_int s ;; Ok (Computed p) in
  if negb refresh then
    match _load_cached c with
    | Some cached => if truthy cached then Ok (Cached cached) else recompute
    | None => recompute
    end
  else recompute.

(** ** 7. The name of the cache file *)

(** A Python [str] is a sequence of code points; [lit] gives the code
    points of a literal of the source. *)
Definition str : Set := list N.

Definition lit (s : string) : str := map N_of_ascii (list_ascii_of_string s).

(** [a == b] on two [str]. *)
Definition str_eqb (a b : str) : bool :=
  if list_eq_dec N.eq_dec a b then true else false.

Definition in_range (lo hi : ascii) (c : N) : bool :=
  (N_of_ascii lo <=? c)%N && (c <=? N_of_ascii hi)%N.

Definition is_char (a : ascii) (c : N) : bool := (c =? N_of_ascii a)%N.

(** The characters outside the class [[^A-Za-z0-9_.-]]: those the
    substitution of line 47 leaves alone. *)
Definition safe_char (c : N) : bool :=
  in_range "A" "Z" c || in_range "a" "z" c || in_range "0" "9" c
  || is_char "_" c || is_char "." c || is_char "-" c.

(** [l[:stop]]: a negative [stop] counts from the end. *)
Definition slice_to {A} (l : list A) (stop : Z) : list A :=
  if (stop <? 0)%Z then firstn (length l - Z.to_nat (- stop)) l
  else firstn (Z.to_nat stop) l.

(** Lines 45-48: every other character becomes an underscore, one for
    one, and the result is cut at [max_len]. *)
Definition _sanitize_filename (name : str) (max_len : Z) : str :=
  let safe := map (fun c => if safe_char c then c else N_of_ascii "_") name in
  slice_to safe max_len.

(** [os.path.join(a, b)] of [posixpath]: an absolute [b] stands alone, and
    a separator is put in unless [a] is empty or brings one. *)
Definition os_path_join (a b : str) : str :=
  let starts_with_sep := match b with c :: _ => is_char "/" c | [] => false end in
  let ends_with_sep := match a with [] => false | _ => is_char "/" (last a 0%N) end in
  if starts_with_sep then b
  else if (match a with [] => true | _ => false end) || ends_with_sep then a ++ b
  else a ++ lit "/" ++ b.

(** Lines 50-52; [max_len] of [_sanitize_filename] has its default. *)
Definition _cached_filepath (event suffix : str) : str :=
  let filename := _sanitize_filename event 200 ++ lit "_" ++ suffix ++ lit "_telemetry.json" in
  os_path_join (lit "computed_data") filename.

(** Line 76. *)
Definition cache_suffix (session_type : str) : str :=
  if str_eqb session_type (lit "S") then lit "sprint" else lit "race".

(** The path at which the main flow looks for the cache and writes it
    back (lines 75-76, 80 and 315): [str_session] is [str(session)]. *)
Definition cache_path (str_session session_type : str) : str :=
  let event_name := _sanitize_filename str_session 200 in
  _cached_filepath event_name (cache_suffix session_type).

(** ** 8. The cache on disk *)

(** The document [json.load] reads back from what [json.dump] wrote for
    a payload: tuples come back as arrays, [None] as [null]. *)
Definition json_of_num (v : num) : json := JNumber (this v).

Definition json_of_int (z : Z) : json := JNumber (inject_Z z).

Definition json_of_option {A} (f : A -> json) (o : option A) : json :=
  match o with Some a => f a | None => JNull end.

Definition json_of_dict {V} (f : V -> json) (d : list (string * V)) : json :=
  JObject (map (fun kv => (fst kv, f (snd kv))) d).

(** The entry of a driver in a frame (lines 289-300). *)
Definition json_of_car (c : car) : json :=
  JObject [("x", json_of_num (x c)); ("y", json_of_num (y c));
           ("dist", json_of_num (dist c)); ("lap", json_of_int (lap_no c));
           ("rel_dist", json_of_num (rel_dist c)); ("tyre", json_of_num (tyre c));
           ("position", json_of_int (Z.of_nat (position c)));
           ("speed", json_of_num (speed c)); ("gear", json_of_int (gear c));
           ("drs", json_of_int (drs c))]%string.

(** A frame (line 302). *)
Definition json_of_frame (f : frame) : json :=
  JObject [("t", json_of_num (t f)); ("lap", json_of_int (leader_lap f));
           ("drivers", json_of_dict json_of_car (frame_data f))]%string.

Definition json_of_rgb (c : rgb) : json :=
  let '(r, g, b) := c in JArray [json_of_int r; json_of_int g; json_of_int b].

(** A track-status interval (lines 247-251). *)
Definition json_of_interval (i : status_interval) : json :=
  JObject [("status", json_of_option JString (status i));
           ("start_time", json_of_num (start_time i));
           ("end_time", json_of_option json_of_num (end_time i))]%string.

(** The payload (lines 307-312). *)
Definition json_of_payload (p : payload) : json :=
  JObject [("frames", JArray (map json_of_frame (frames p)));
           ("driver_colors", json_of_dict json_of_rgb (payload_driver_colors p));
           ("track_statuses", JArray (map json_of_interval (track_statuses p)));
           ("total_laps", json_of_int (total_laps p))]%string.

(** The files of the working directory, by path. *)
Definition store : Type := str -> cache_file.

Definition write_file (path : str) (c : cache_file) (fs : store) : store :=
  fun p => if str_eqb p path then c else fs p.

(** How the write of [_save_cached] goes: the document is written; or
    [os.makedirs] or [open] raises and no file is touched; or [json.dump]
    raises after [open] has emptied the file, which is left without a
    complete document. *)
Inductive write_outcome : Set := Written | NotOpened | Interrupted.

(** Lines 65-72, called at lines 314-318: no exception gets out. *)
Definition _save_cached (w : write_outcome) (path : str) (p : payload) (fs : store)
  : store :=
  match w with
  | Written => write_file path (Document (json_of_payload p)) fs
  | NotOpened => fs
  | Interrupted => write_file path Unreadable fs
  end.

(** [get_race_telemetry] with the files it reads and writes: the cache
    is looked up at [cache_path], and a computed payload is written back
    there. *)
Definition get_race_telemetry_on (get_tyre_compound_int : string -> Z)
           (refresh : bool) (w : write_outcome) (fs : store)
           (str_session session_type : str) (s : session)
  : result telemetry_result * store :=
  let path := cache_path str_session session_type in
  match get_race_telemetry get_tyre_compound_int refresh (fs path) s with
  | Ok (Computed p) => (Ok (Computed p), _save_cached w path p fs)
  | r => (r, fs)
  end.

(** ** 9. Driver colours and the command line *)

(** [s.lstrip(c)] for one character [c]. *)
Fixpoint lstrip (c : ascii) (s : str) : str :=
  match s with
  | [] => []
  | a :: r => if is_char c a then lstrip c r else s
  end.

(** [s[i:j]] for [0 <= i <= j]. *)
Definition slice (s : str) (i j : nat) : str := firstn (j - i) (skipn i s).

(** [x in l] and [l.index(x)] on a list of [str]. *)
Definition contains (l : list str) (x : str) : bool := existsb (fun a => str_eqb a x) l.

Fixpoint index (l : list str) (x : str) : result nat :=
  match l with
  | [] => Raise ValueError
  | a :: r => if str_eqb a x then Ok 0 else i <- index r x ;; Ok (S i)
  end.

(** [l[i]] for [i >= 0]. *)
Definition item (l : list str) (i : nat) : result str :=
  match nth_error l i with Some v => Ok v | None => Raise IndexError end.

Section Parsing.

(** [py_int x base] is [int(x, base)] on a [str], [None] when it raises
    [ValueError].  What Python accepts (blanks, a sign, underscores, a
    prefix, digits of any script) is left open. *)
Variable py_int : str -> Z -> option Z.

Definition int_ (x : str) (base : Z) : result Z :=
  match py_int x base with Some n => Ok n | None => Raise ValueError end.

(** Lines 33-34 of [f1_data.py]: the three components are read in turn. *)
Definition hex_to_rgb (hex_color : str) : result rgb :=
  let hex_color := lstrip "#" hex_color in
  r <- int_ (slice hex_color 0 2) 16 ;;
  g <- int_ (slice hex_color 2 4) 16 ;;
  b <- int_ (slice hex_color 4 6) 16 ;;
  Ok (r, g, b).

(** Lines 27-36; [color_mapping] is what the provider's
    [get_driver_color_mapping] returns. *)
Definition get_driver_colors (color_mapping : list (string * str))
  : result (list (string * rgb)) :=
  foldM (fun rgb_colors '(driver, hex_color) =>
           rgb <- hex_to_rgb hex_color ;; Ok (dict_set driver rgb rgb_colors))
        color_mapping [].

(** One of the two blocks at lines 58-68 of [main.py]: the argument
    after the first [flag]; [default] when the flag is absent, comes last
    or [int] refuses what follows it. *)
Definition flag_value (flag : str) (default : Z) (argv : list str) : result Z :=
  if contains argv flag then
    match (i <- index argv flag ;; v <- item argv (i + 1) ;; int_ v 10) with
    | Ok n => Ok n
    | Raise ValueError => Ok default      (* except (ValueError, IndexError) *)
    | Raise IndexError => Ok default
    | Raise e => Raise e
    end
  else Ok default.

(** Lines 52-73 of [main.py]. *)
Definition parse_arguments (argv : list str) : result (Z * Z * str) :=
  year <- flag_value (lit "--year") 2025 argv ;;
  round_number <- flag_value (lit "--round") 12 argv ;;
  let session_type := if contains argv (lit "--sprint") then lit "S" else lit "R" in
  Ok (year, round_number, session_type).

End Parsing.

(** * Vocabulary of the statements *)

(** The rows the loop gets through: those before the first row without a
    usable time. *)
Fixpoint usable_rows (rows : list status_row) : list (option string * num) :=
  match rows with
  | [] => []
  | row :: rows' =>
      match Time row with
      | Some seconds => (Status row, seconds) :: usable_rows rows'
      | None => []
      end
  end.

(** Every interval ends where the next one starts and the last one is
    open. *)
Fixpoint chained (l : list status_interval) : Prop :=
  match l with
  | [] => True
  | a :: l' =>
      match l' with
      | [] => end_time a = None
      | b :: _ => end_time a = Some (start_time b) /\ chained l'
      end
  end.

(** The telemetry of a lap that is not skipped. *)
Definition usable_telemetry (l : lap) : option telemetry :=
  match get_telemetry l with
  | Some lap_tel => if empty lap_tel then None else Some lap_tel
  | None => None
  end.

(** The speed column, under either name. *)
Definition speed_column (lap_tel : telemetry) : option (list num) :=
  match Speed lap_tel with
  | Some v => Some v
  | None => SpeedKph lap_tel
  end.

(** A table on which every fallback of [process_lap] finds a column. *)
Definition complete (lap_tel : telemetry) : bool :=
  match speed_column lap_tel, nGear lap_tel, DRS lap_tel with
  | Some _, Some _, Some _ => true
  | _, _, _ => false
  end.

(** The code under which a driver is filed. *)
Definition driver_code (s : session) (driver_no : string) : string :=
  match get_driver s driver_no with
  | Some a => a
  | None => driver_no
  end.

(** What one driver brings to the loop over [drivers], whatever the state:
    nothing when it has no lap table, else its highest lap number and, when
    it has usable laps that concatenate, its trace. *)
Definition driver_outcome (get_tyre_compound_int : string -> Z) (s : session)
           (driver_no : string) : result (option (Z * option trace)) :=
  match pick_drivers s driver_no with
  | None => Ok None
  | Some laps_driver =>
      match laps_driver with
      | [] => Ok None
      | _ :: _ =>
          r <- process_laps get_tyre_compound_int laps_driver ;;
          Ok (Some (LapNumber_max laps_driver,
                    match ch_t (fst r) with
                    | [] => None
                    | _ :: _ =>
                        match concat_and_sort (fst r) with
                        | Ok data => Some data
                        | Raise _ => None
                        end
                    end))
      end
  end.

(** The state after a driver that brings [o] under [code]. *)
Definition absorb (st : extract_state) (code : string)
           (o : option (Z * option trace)) : extract_state :=
  match o with
  | None => st
  | Some (m, tr) =>
      let st1 := {| driver_data := driver_data st;
                    global_t_min := global_t_min st;
                    global_t_max := global_t_max st;
                    max_lap_number := Z.max (max_lap_number st) m |} in
      match tr with
      | Some data => retain st1 code data
      | None => st1
      end
  end.

(** The same session with another list of drivers to go through. *)
Definition with_drivers (s : session) (l : list string) : session :=
  {| drivers := l; get_driver := get_driver s; pick_drivers := pick_drivers s;
     track_status := track_status s; driver_colors := driver_colors s |}.

(** [a] may stand in front of [b]. *)
Definition not_after {A} (before : A -> A -> bool) (a b : A) : Prop :=
  before b a = false.

(** The entries a loop tries to file, in order. *)
Definition collect {B V} (g : B -> option (string * V)) (l : list B) : list (string * V) :=
  flat_map (fun b => match g b with Some kv => [kv] | None => [] end) l.

(** The loop that files these entries into the dictionary [d]. *)
Definition file_into {B V} (g : B -> option (string * V)) (l : list B)
           (d : list (string * V)) : list (string * V) :=
  fold_left (fun d b => match g b with
                        | Some kv => dict_set (fst kv) (snd kv) d
                        | None => d
                        end) l d.

(** The entry of a frame for the driver at index [idx] of the snapshot. *)
Definition car_of (idx : nat) (c : sample) : car :=
  {| x := s_x c; y := s_y c; dist := s_dist c; lap_no := s_lap c;
     rel_dist := round4 (s_rel_dist c); tyre := s_tyre c;
     position := idx + 1; speed := s_speed c; gear := s_gear c;
     drs := s_drs c |}.

(** The snapshot with its ranks, entry by entry. *)
Definition ranked (snapshot : list (string * sample)) : list (string * car) :=
  map (fun ic => (fst (snd ic), car_of (fst ic) (snd (snd ic)))) (enumerate snapshot).

(** The entry of one driver at tick [i], when it has one. *)
Definition entry_at (i : nat) (cd : string * trace) : option (string * sample) :=
  match sample_at (snd cd) i with
  | Some v => Some (fst cd, v)
  | None => None
  end.

(** Either no driver is retained and both bounds are unset, or some driver
    is and the bounds are set and in order. *)
Definition bounds_ok (st : extract_state) : Prop :=
  match global_t_min st, global_t_max st with
  | Some a, Some b => (a <= b)%Qc /\ driver_data st <> []
  | None, None => driver_data st = []
  | _, _ => False
  end.

(** The nine channels that are resampled. *)
Inductive channel : Set :=
| CX | CY | CDist | CRelDist | CLap | CTyre | CSpeed | CGear | CDrs.

(** The array of a channel in a trace. *)
Definition channel_of (c : channel) (d : trace) : list num :=
  match c with
  | CX => ch_x d | CY => ch_y d | CDist => ch_dist d
  | CRelDist => ch_rel_dist d | CLap => ch_lap d | CTyre => ch_tyre d
  | CSpeed => ch_speed d | CGear => ch_gear d | CDrs => ch_drs d
  end.

(** The driver's samples of one channel, on the shifted clock. *)
Definition samples (global_t_min : num) (c : channel) (d : trace) : list (num * num) :=
  combine (map (fun v => (v - global_t_min)%Qc) (ch_t d)) (channel_of c d).

(** The value at [x] on the chord through two samples. *)
Definition chord (p q : num * num) (x : num) : num :=
  ((snd q - snd p) / (fst q - fst p) * (x - fst p) + snd p)%Qc.

(** A trace with at least one sample and channels of one length. *)
Definition well_formed (data : trace) : Prop :=
  ch_t data <> [] /\ forall c, length (channel_of c data) = length (ch_t data).

(** The samples in the order of [argsort]. *)
Definition sorted_pairs (times : list num) : list (nat * num) :=
  stable_sort (fun p q => Qcltb (snd p) (snd q)) (enumerate times).

(** Every lap of the driver is skipped. *)
Definition no_usable_lap (s : session) (driver_no : string) : Prop :=
  forall laps, pick_drivers s driver_no = Some laps ->
               Forall (fun l => usable_telemetry l = None) laps.

(** The highest lap number in the driver's lap table. *)
Definition lap_count (s : session) (driver_no : string) : Z :=
  match pick_drivers s driver_no with
  | Some laps => LapNumber_max laps
  | None => 0%Z
  end.

(** The entry of one driver on the timeline, when resampling succeeds. *)
Definition resampled_entry (timeline : list num) (gmin : num) (cd : string * trace)
  : option (string * trace) :=
  match resample_driver timeline gmin (snd cd) with
  | Ok r => Some (fst cd, r)
  | Raise _ => None
  end.

(** Two states of the loop that differ at most in the lap count. *)
Definition same_traces (st st' : extract_state) : Prop :=
  driver_data st = driver_data st' /\
  global_t_min st = global_t_min st' /\
  global_t_max st = global_t_max st'.

(** One turn of the loop over the drivers, by what the driver brings. *)
Definition driver_step (get_tyre_compound_int : string -> Z) (s : session)
           (st : extract_state) (m : string) : result extract_state :=
  o <- driver_outcome get_tyre_compound_int s m ;; Ok (absorb st (driver_code s m) o).

(** Two states with the same traces whose lap counts differ by the
    [laps] of a driver gone through on the left only; [seen] says whether
    it has been gone through yet. *)
Definition same_but_laps (laps : Z) (seen : bool) (st st' : extract_state) : Prop :=
  same_traces st st' /\ (0 <= max_lap_number st')%Z /\
  max_lap_number st
  = if seen then Z.max (max_lap_number st') laps else max_lap_number st'.

(** The lap count and the coloured drivers of a payload, when there is
    one. *)
Definition payload_total_laps (r : result payload) : option Z :=
  match r with Ok p => Some (total_laps p) | Raise _ => None end.

Definition payload_colors (r : result payload) : option (list string) :=
  match r with Ok p => Some (keys (payload_driver_colors p)) | Raise _ => None end.

(** What the drivers with a lap table bring, in the order of the loop. *)
Fixpoint gather (get_tyre_compound_int : string -> Z) (s : session) (l : list string)
  : result (list (string * (Z * option trace))) :=
  match l with
  | [] => Ok []
  | m :: l' =>
      o <- driver_outcome get_tyre_compound_int s m ;;
      rest <- gather get_tyre_compound_int s l' ;;
      Ok (match o with
          | Some c => (driver_code s m, c) :: rest
          | None => rest
          end)
  end.

(** The state of the loop after these contributions. *)
Definition state_of (cs : list (string * (Z * option trace))) (st : extract_state)
  : extract_state :=
  fold_left (fun st c => absorb st (fst c) (Some (snd c))) cs st.

(** The contributions that come with a trace. *)
Definition with_trace (c : string * (Z * option trace)) : option (string * trace) :=
  match snd (snd c) with
  | Some data => Some (fst c, data)
  | None => None
  end.

(** The contributions that come with a trace, as dictionary entries. *)
Definition traces (cs : list (string * (Z * option trace))) : list (string * trace) :=
  collect with_trace cs.

(** One update of [global_t_min] and of [global_t_max]. *)
Definition opt_min (g : option num) (v : num) : option num :=
  Some (match g with None => v | Some g => py_min g v end).
Definition opt_max (g : option num) (v : num) : option num :=
  Some (match g with None => v | Some g => py_max g v end).

(** The first and last time of a retained trace. *)
Definition t_min_of (cd : string * trace) : num := arr_min (ch_t (snd cd)).
Definition t_max_of (cd : string * trace) : num := arr_max (ch_t (snd cd)).

(** Two results that agree up to the order of what they list. *)
Definition same_up_to_order {A} (r r' : result (list A)) : Prop :=
  match r, r' with
  | Ok a, Ok b => Permutation a b
  | Raise e, Raise e' => e = e'
  | _, _ => False
  end.

(** The part of [compute_telemetry] after the loop over the drivers. *)
Definition finish (s : session) (st : extract_state) : result payload :=
  match driver_data st, global_t_min st, global_t_max st with
  | _ :: _, Some gmin, Some gmax =>
      let timeline := make_timeline gmin gmax in
      Ok {| frames := build_frames (resample timeline gmin (driver_data st)) timeline;
            payload_driver_colors := driver_colors s;
            track_statuses := format_track_statuses gmin (track_status s);
            total_laps := max_lap_number st |}
  | _, _, _ => Raise ValueError
  end.

(** The codes and cumulative distances of the first frame. *)
Definition first_frame_dists (r : result payload) : list (string * Q) :=
  match r with
  | Ok p =>
      match frames p with
      | f :: _ => map (fun e => (fst e, this (dist (snd e)))) (frame_data f)
      | [] => []
      end
  | Raise _ => []
  end.

(** The codes and positions of the first frame. *)
Definition first_frame_ranks (r : result payload) : list (string * nat) :=
  match r with
  | Ok p =>
      match frames p with
      | f :: _ => map (fun e => (fst e, position (snd e))) (frame_data f)
      | [] => []
      end
  | Raise _ => []
  end.

(** Every lap that is not skipped has the columns [process_lap] needs. *)
Definition complete_session (s : session) : Prop :=
  forall n laps l lap_tel,
    In n (drivers s) -> pick_drivers s n = Some laps -> In l laps ->
    usable_telemetry l = Some lap_tel -> complete lap_tel = true.

(** The frame of a tick, or an empty frame when the tick has none. *)
Definition frame_of (rs : list (string * trace)) (it : nat * num) : frame :=
  match build_frame rs (fst it) (snd it) with
  | Some f => f
  | None => {| t := snd it; leader_lap := 0; frame_data := [] |}
  end.

(** A trace that reaches line 186: a listed driver brings it, whether or
    not a later driver with the same code takes its place. *)
Definition produced (get_tyre_compound_int : string -> Z) (s : session)
           (data : trace) : Prop :=
  exists n m, In n (drivers s) /\
              driver_outcome get_tyre_compound_int s n = Ok (Some (m, Some data)).

(** Laps whose distance column counts up from a non-negative value. *)
Definition distances_count_up (laps : list lap) : Prop :=
  forall l lap_tel, In l laps -> usable_telemetry l = Some lap_tel ->
    StronglySorted Qcle (Distance lap_tel) /\
    Forall (fun d => (0 <= d)%Qc) (Distance lap_tel).

(** The substitution of line 47 on one character. *)
Definition replace_unsafe (c : N) : N := if safe_char c then c else N_of_ascii "_".

(** The name of the cache file inside its directory. *)
Definition cache_file_name (str_session session_type : str) : str :=
  _sanitize_filename str_session 200 ++ lit "_" ++ cache_suffix session_type
  ++ lit "_telemetry.json".

(** A colour and the triple read from it, under the same driver. *)
Definition colour_read (py_int : str -> Z -> option Z)
           (dh : string * str) (dc : string * rgb) : Prop :=
  fst dh = fst dc /\ hex_to_rgb py_int (snd dh) = Ok (snd dc).

(** [a] stands somewhere in front of [b] in [l]. *)
Fixpoint precedes {A} (a b : A) (l : list A) : Prop :=
  match l with
  | [] => False
  | c :: l' => (c = a /\ In b l') \/ precedes a b l'
  end.

(** No two drivers of the frame have the same cumulative distance. *)
Definition level_free (f : frame) : Prop :=
  NoDup (map (fun e => dist (snd e)) (frame_data f)).

(** An entry of a frame apart from its position. *)
Definition without_position (e : string * car) : string * car :=
  (fst e,
   {| x := x (snd e); y := y (snd e); dist := dist (snd e); lap_no := lap_no (snd e);
      rel_dist := rel_dist (snd e); tyre := tyre (snd e); position := 0;
      speed := speed (snd e); gear := gear (snd e); drs := drs (snd e) |}).

(** What one driver brings to the loop, as an entry under its code. *)
Definition contribution (get_tyre_compound_int : string -> Z) (s : session) (m : string)
  : option (string * (Z * option trace)) :=
  match driver_outcome get_tyre_compound_int s m with
  | Ok (Some c) => Some (driver_code s m, c)
  | _ => None
  end.

(** * Example data *)

(** Whole numbers as an array. *)
Definition ints (l : list Z) : list num := map of_Z l.

(** A lap table with every column, two samples. *)
Definition full_table (t0 t1 d1 : Z) : telemetry :=
  {| SessionTime := ints [t0; t1]%Z; X := ints [0; 3]%Z; Y := ints [0; 4]%Z;
     Distance := ints [0; d1]%Z;
     RelativeDistance := Some [of_Z 0; Q2Qc (1 # 2)];
     Speed := Some (ints [200; 210]%Z); SpeedKph := None;
     nGear := Some (ints [6; 7]%Z); DRS := Some (ints [0; 1]%Z) |}.

(** The same table without the gear column. *)
Definition table_without_gear (t0 t1 d1 : Z) : telemetry :=
  {| SessionTime := ints [t0; t1]%Z; X := ints [0; 3]%Z; Y := ints [0; 4]%Z;
     Distance := ints [0; d1]%Z;
     RelativeDistance := Some [of_Z 0; Q2Qc (1 # 2)];
     Speed := Some (ints [200; 210]%Z); SpeedKph := None;
     nGear := None; DRS := Some (ints [0; 1]%Z) |}.

(** Lap A covers 10 metres in the first second, lap B 5 metres from
    second 2 to second 3; one lap has no telemetry and one no gear column. *)
Definition lap_A : lap :=
  {| LapNumber := 1; Compound := "SOFT"; get_telemetry := Some (full_table 0 1 10) |}.
Definition lap_B : lap :=
  {| LapNumber := 2; Compound := "SOFT"; get_telemetry := Some (full_table 2 3 5) |}.
Definition lap_unavailable : lap :=
  {| LapNumber := 2; Compound := "SOFT"; get_telemetry := None |}.
Definition lap_without_gear : lap :=
  {| LapNumber := 1; Compound := "SOFT";
     get_telemetry := Some (table_without_gear 0 1 10) |}.

(** Driver 1 runs laps A and B; the only lap of driver 2 has no gear
    column. *)
Definition driver_1_then_no_gear : session :=
  {| drivers := ["1"; "2"]%string;
     get_driver := fun _ => None;
     pick_drivers := fun n => if String.eqb n "1" then Some [lap_A; lap_B]
                              else Some [lap_without_gear];
     track_status := None;
     driver_colors := [] |}.

(** A session whose only sample is taken at time 0. *)
Definition single_sample_session : session :=
  {| drivers := ["1"%string];
     get_driver := fun _ => Some "HAM"%string;
     pick_drivers := fun _ =>
       Some [{| LapNumber := 1; Compound := "SOFT";
                get_telemetry :=
                  Some {| SessionTime := [of_Z 0]; X := [of_Z 0]; Y := [of_Z 0];
                          Distance := [of_Z 0];
                          RelativeDistance := Some [of_Z 0];
                          Speed := Some [of_Z 0]; SpeedKph := None;
                          nGear := Some [of_Z 1]; DRS := Some [of_Z 0] |} |}];
     track_status := None;
     driver_colors := [] |}.

(** The state of the loop over the drivers at the end of that session. *)
Definition single_sample_state : extract_state :=
  {| driver_data :=
       [("HAM"%string,
         {| ch_t := [of_Z 0]; ch_x := [of_Z 0]; ch_y := [of_Z 0];
            ch_dist := [of_Z 0]; ch_rel_dist := [of_Z 0]; ch_lap := [of_Z 1];
            ch_tyre := [of_Z 1]; ch_speed := [of_Z 0]; ch_gear := [of_Z 1];
            ch_drs := [of_Z 0] |})];
     global_t_min := Some (of_Z 0);
     global_t_max := Some (of_Z 0);
     max_lap_number := 1 |}.

(** Driver 1 runs two laps; every lap of driver 2, up to lap 57, has no
    telemetry. *)
Definition session_with_silent_driver : session :=
  {| drivers := ["1"; "2"]%string;
     get_driver := fun _ => None;
     pick_drivers := fun n =>
       if String.eqb n "1" then Some [lap_A; lap_B]
       else Some [{| LapNumber := 57; Compound := "HARD"; get_telemetry := None |}];
     track_status := None;
     driver_colors := [("1"%string, (255, 0, 0)%Z); ("2"%string, (0, 0, 255)%Z)] |}.

(** Two drivers with the same telemetry. *)
Definition tied_session : session :=
  {| drivers := ["1"; "2"]%string;
     get_driver := fun _ => None;
     pick_drivers := fun _ => Some [lap_A];
     track_status := None;
     driver_colors := [] |}.

(** A lap table with one sample, taken at time 0 after [d] metres. *)
Definition one_sample_lap (d : Z) : lap :=
  {| LapNumber := 1; Compound := "SOFT";
     get_telemetry :=
       Some {| SessionTime := [of_Z 0]; X := [of_Z 0]; Y := [of_Z 0];
               Distance := [of_Z d];
               RelativeDistance := None;
               Speed := None; SpeedKph := Some [of_Z 300];
               nGear := Some [of_Z 8]; DRS := Some [of_Z 1] |} |}.

(** Two drivers filed under one code, 7 and 5 metres into the lap. *)
Definition shared_code_session : session :=
  {| drivers := ["1"; "2"]%string;
     get_driver := fun _ => Some "XXX"%string;
     pick_drivers := fun n => if String.eqb n "1" then Some [one_sample_lap 7]
                              else Some [one_sample_lap 5];
     track_status := None;
     driver_colors := [] |}.

(** Driver 1 is 7 metres into the lap and driver 2 is 5 metres into it. *)
Definition two_driver_session : session :=
  {| drivers := ["1"; "2"]%string;
     get_driver := fun n => if String.eqb n "1" then Some "VER"%string else Some "NOR"%string;
     pick_drivers := fun n => if String.eqb n "1" then Some [one_sample_lap 7]
                              else Some [one_sample_lap 5];
     track_status := None;
     driver_colors := [] |}.

(** The payload of the two-driver session and its only frame. *)
Definition no_payload : payload :=
  {| frames := []; payload_driver_colors := []; track_statuses := []; total_laps := 0 |}.

Definition two_driver_payload : payload :=
  Eval vm_compute in
    match compute_telemetry (fun _ => 1%Z) two_driver_session with
    | Ok p => p
    | Raise _ => no_payload
    end.

Definition two_driver_frame : frame :=
  Eval vm_compute in
    hd {| t := 0%Qc; leader_lap := 0; frame_data := [] |} (frames two_driver_payload).

(** A trace of two samples, at times 10 and 20, and its resampling on the
    instants 0, 15 and 30 of a clock that starts at 0. *)
Definition two_sample_trace : trace :=
  {| ch_t := ints [10; 20]%Z; ch_x := ints [0; 4]%Z; ch_y := ints [0; 2]%Z;
     ch_dist := ints [100; 300]%Z; ch_rel_dist := ints [0; 1]%Z;
     ch_lap := ints [1; 1]%Z; ch_tyre := ints [1; 1]%Z;
     ch_speed := ints [200; 220]%Z; ch_gear := ints [6; 7]%Z;
     ch_drs := ints [0; 0]%Z |}.

Definition two_sample_resampled : trace :=
  Eval vm_compute in
    match resample_driver (ints [0; 15; 30]%Z) (of_Z 0) two_sample_trace with
    | Ok r => r
    | Raise _ => two_sample_trace
    end.

(** The trace of the single-sample session. *)
Definition single_sample_trace : trace :=
  {| ch_t := [of_Z 0]; ch_x := [of_Z 0]; ch_y := [of_Z 0];
     ch_dist := [of_Z 0]; ch_rel_dist := [of_Z 0]; ch_lap := [of_Z 1];
     ch_tyre := [of_Z 1]; ch_speed := [of_Z 0]; ch_gear := [of_Z 1];
     ch_drs := [of_Z 0] |}.

(** Two drivers filed under one code: the first runs from 0 s to 1 s, the
    second, whose trace takes the place of the first, from 5 s to 6 s. *)
Definition replaced_trace_session : session :=
  {| drivers := ["1"; "2"]%string;
     get_driver := fun _ => Some "XXX"%string;
     pick_drivers := fun n =>
       if String.eqb n "1" then Some [lap_A]
       else Some [{| LapNumber := 1; Compound := "SOFT";
                     get_telemetry := Some (full_table 5 6 5) |}];
     track_status := None;
     driver_colors := [] |}.

(** * Properties *)

(** ** Arithmetic on canonical rationals *)

Lemma this_Q2Qc (q : Q) : (this (Q2Qc q) == q)%Q.
Proof. apply Qred_correct. Qed.

(** Turns a goal on [Qc] into one on [Q], where [lra] works. *)
Ltac qc2q :=
  unfold Qclt, Qcle, Qcdiv, Qcminus, Qcplus, Qcmult, Qcopp, Qcinv in *;
  repeat match goal with
  | H : context [this (Q2Qc ?q)] |- _ => rewrite (this_Q2Qc q) in H
  | |- context [this (Q2Qc ?q)] => rewrite (this_Q2Qc q)
  end.

Lemma Qcleb_le (a b : num) : Qcleb a b = true <-> (a <= b)%Qc.
Proof. apply Qle_bool_iff. Qed.

Lemma Qcltb_lt (a b : num) : Qcltb a b = true <-> (a < b)%Qc.
Proof.
  unfold Qcltb, Qclt. rewrite negb_true_iff.
  split; intro H.
  - apply Qnot_le_lt. intro Hle. apply Qle_bool_iff in Hle. congruence.
  - destruct (Qle_bool b a) eqn:E; [|reflexivity].
    apply Qle_bool_iff in E. exfalso. apply (Qlt_not_le _ _ H E).
Qed.

Lemma Qcltb_ge (a b : num) : Qcltb a b = false <-> (b <= a)%Qc.
Proof.
  unfold Qcltb, Qcle. rewrite negb_false_iff. apply Qle_bool_iff.
Qed.

Lemma Qcleb_gt (a b : num) : Qcleb a b = false <-> (b < a)%Qc.
Proof.
  rewrite <- Qcltb_lt. unfold Qcltb, Qcleb. now rewrite negb_true_iff.
Qed.

(** ** The cache gate *)

(** C10.  Without [--refresh-data] the cached document is returned exactly
    when the file exists, parses, and parses to a truthy value; a missing
    or unreadable file and a falsy document ([null], an empty object) all
    lead to the full recomputation. *)
Theorem cached_document_returned_iff_truthy
        (get_tyre_compound_int : string -> Z) (s : session) :
  let recompute :=
      p <- compute_telemetry get_tyre_compound_int s ;; Ok (Computed p) in
  (forall c v,
      get_race_telemetry get_tyre_compound_int false c s = Ok (Cached v)
      <-> c = Document v /\ truthy v = true) /\
  get_race_telemetry get_tyre_compound_int false Missing s = recompute /\
  get_race_telemetry get_tyre_compound_int false Unreadable s = recompute /\
  (forall v,
      get_race_telemetry get_tyre_compound_int false (Document v) s
      = if truthy v then Ok (Cached v) else recompute) /\
  truthy JNull = false /\ truthy (JObject []) = false.
Proof.
  cbv zeta. split; [|repeat split].
  intros c v. unfold get_race_telemetry. cbn [negb]. split.
  - destruct c as [| |d]; cbn [_load_cached].
    1,2: destruct (compute_telemetry _ s); discriminate.
    destruct (truthy d) eqn:E.
    + intros [= ->]. now split.
    + destruct (compute_telemetry _ s); discriminate.
  - intros [-> Hv]. cbn. now rewrite Hv.
Qed.

(** ** Track-status intervals *)

Lemma set_last_end_start l e : map start_time (set_last_end l e) = map start_time l.
Proof.
  induction l as [|a [|b l] IH]; [reflexivity | reflexivity |].
  change (set_last_end (a :: b :: l) e) with (a :: set_last_end (b :: l) e).
  cbn [map]. cbn [map] in IH. now rewrite IH.
Qed.

Lemma set_last_end_status l e : map status (set_last_end l e) = map status l.
Proof.
  induction l as [|a [|b l] IH]; [reflexivity | reflexivity |].
  change (set_last_end (a :: b :: l) e) with (a :: set_last_end (b :: l) e).
  cbn [map]. cbn [map] in IH. now rewrite IH.
Qed.

Lemma chained_snoc l st e :
  chained l ->
  chained (set_last_end l e ++ [{| status := st; start_time := e; end_time := None |}]).
Proof.
  induction l as [|a [|b l] IH]; intro H.
  - reflexivity.
  - cbn. now split.
  - destruct H as [Ha Hl].
    change (set_last_end (a :: b :: l) e) with (a :: set_last_end (b :: l) e).
    specialize (IH Hl).
    assert (Hhd : map start_time (set_last_end (b :: l) e) = map start_time (b :: l))
      by apply set_last_end_start.
    destruct (set_last_end (b :: l) e) as [|b' l'] eqn:E; [discriminate|].
    injection Hhd as Hb _.
    cbn [app chained]. cbn [app] in IH. split; [congruence | exact IH].
Qed.

Lemma status_loop_spec gmin rows acc :
  chained acc ->
  let out := status_loop gmin rows acc in
  chained out /\
  map start_time out
  = map start_time acc ++ map (fun r => (snd r - gmin)%Qc) (usable_rows rows) /\
  map status out = map status acc ++ map fst (usable_rows rows).
Proof.
  revert acc. induction rows as [|row rows IH]; intros acc Hacc; cbn.
  - rewrite !app_nil_r. auto.
  - destruct (Time row) as [seconds|]; cbn.
    + destruct (IH _ (chained_snoc acc (Status row) (seconds - gmin)%Qc Hacc))
        as (H1 & H2 & H3).
      split; [exact H1|]. rewrite H2, H3, !map_app, set_last_end_start, set_last_end_status.
      cbn. now rewrite <- !app_assoc.
    + rewrite !app_nil_r. auto.
Qed.

Lemma chained_next l : chained l ->
  forall i a b, nth_error l i = Some a -> nth_error l (S i) = Some b ->
                end_time a = Some (start_time b).
Proof.
  induction l as [|c [|d l] IH]; intros H i a b Ha Hb.
  - destruct i; discriminate.
  - destruct i as [|[|i]]; discriminate.
  - destruct H as [Hc Hl]. destruct i as [|i].
    + cbn in Ha, Hb. congruence.
    + apply (IH Hl i); assumption.
Qed.

Lemma chained_last l : chained l ->
  forall a, nth_error l (length l - 1) = Some a -> end_time a = None.
Proof.
  induction l as [|c [|d l] IH]; intros H a Ha.
  - discriminate.
  - cbn in Ha. congruence.
  - destruct H as [_ Hl]. apply (IH Hl).
    cbn [length] in *. replace (S (S (length l)) - 1) with (S (length l)) in Ha by lia.
    cbn in Ha. now replace (S (length l) - 1) with (length l) by lia.
Qed.

(** C9.  The intervals built from the status rows, in arrival order: each
    one but the last ends at the start of the next, the last one has no
    end, every start is the row's time minus [global_t_min], and a session
    without a status stream gives the empty list. *)
Theorem status_intervals_are_chained (global_t_min : num) (rows : list status_row) :
  let out := format_track_statuses global_t_min (Some rows) in
  (forall i a b, nth_error out i = Some a -> nth_error out (S i) = Some b ->
                 end_time a = Some (start_time b)) /\
  (forall a, nth_error out (length out - 1) = Some a -> end_time a = None) /\
  map start_time out
  = map (fun r => (snd r - global_t_min)%Qc) (usable_rows rows) /\
  map status out = map fst (usable_rows rows) /\
  format_track_statuses global_t_min None = [].
Proof.
  cbv zeta. unfold format_track_statuses.
  destruct (status_loop_spec global_t_min rows [] I) as (H1 & H2 & H3).
  repeat split.
  - now apply chained_next.
  - now apply chained_last.
  - exact H2.
  - exact H3.
Qed.

Lemma Qc_list_eq (l1 l2 : list Qc) : map this l1 = map this l2 -> l1 = l2.
Proof.
  revert l2. induction l1 as [|a l1 IH]; intros [|b l2] H; try discriminate.
  - reflexivity.
  - injection H as Hab Hl. f_equal; [now apply Qc_decomp | now apply IH].
Qed.

(** ** Lap assembly *)

Section Laps.
Variable get_tyre_compound_int : string -> Z.

Lemma process_lap_skip st l :
  usable_telemetry l = None -> process_lap get_tyre_compound_int st l = Ok st.
Proof.
  unfold usable_telemetry, process_lap. destruct st as [parts total].
  destruct (get_telemetry l) as [lap_tel|]; [|reflexivity].
  destruct (empty lap_tel); [reflexivity | discriminate].
Qed.

(** The only exception that leaves the lap loop. *)
Lemma process_lap_raises st l e :
  process_lap get_tyre_compound_int st l = Raise e -> e = AttributeError.
Proof.
  unfold process_lap. destruct st as [parts total].
  destruct (get_telemetry l) as [lap_tel|]; [|discriminate].
  destruct (empty lap_tel); [discriminate|].
  destruct (RelativeDistance lap_tel), (Speed lap_tel), (SpeedKph lap_tel),
    (nGear lap_tel), (DRS lap_tel); cbn; congruence.
Qed.

Lemma process_lap_incomplete st l lap_tel :
  usable_telemetry l = Some lap_tel -> complete lap_tel = false ->
  process_lap get_tyre_compound_int st l = Raise AttributeError.
Proof.
  unfold usable_telemetry, complete, speed_column , process_lap.
  destruct st as [parts total].
  destruct (get_telemetry l) as [lt|]; [|discriminate].
  destruct (empty lt); [discriminate|]. intros [= ->].
  destruct (RelativeDistance lap_tel), (Speed lap_tel), (SpeedKph lap_tel),
    (nGear lap_tel), (DRS lap_tel); cbn; intros; try discriminate; reflexivity.
Qed.

Lemma process_lap_complete parts total l lap_tel sp g d :
  usable_telemetry l = Some lap_tel ->
  speed_column lap_tel = Some sp -> nGear lap_tel = Some g -> DRS lap_tel = Some d ->
  let race_d_lap := map (Qcplus total) (Distance lap_tel) in
  process_lap get_tyre_compound_int (parts, total) l
  = Ok ({| ch_t := ch_t parts ++ [SessionTime lap_tel];
           ch_x := ch_x parts ++ [X lap_tel];
           ch_y := ch_y parts ++ [Y lap_tel];
           ch_dist := ch_dist parts ++ [race_d_lap];
           ch_rel_dist := ch_rel_dist parts
                          ++ [match RelativeDistance lap_tel with
                              | Some v => v
                              | None => Distance lap_tel
                              end];
           ch_lap := ch_lap parts ++ [full_like (SessionTime lap_tel) (LapNumber l)];
           ch_tyre := ch_tyre parts
                      ++ [full_like (SessionTime lap_tel)
                                    (get_tyre_compound_int (Compound l))];
           ch_speed := ch_speed parts ++ [sp];
           ch_gear := ch_gear parts ++ [g];
           ch_drs := ch_drs parts ++ [d] |},
        last race_d_lap total).
Proof.
  unfold usable_telemetry, speed_column , process_lap.
  destruct (get_telemetry l) as [lt|]; [|discriminate].
  destruct (empty lt); [discriminate|]. intros [= ->] Hsp -> ->.
  destruct (RelativeDistance lap_tel), (Speed lap_tel), (SpeedKph lap_tel);
    cbn; congruence.
Qed.
End Laps.

(** C2.  How [process_lap] resolves the optional channels of a lap that is
    not skipped.  With a speed column (under either name), a gear column
    and a DRS column it succeeds: relative distance is the column or else
    the lap's [Distance], speed is [Speed] or else [SpeedKph].  Without a
    gear column, a DRS column or any speed column it raises
    [AttributeError]: the zero array meant to stand in is a bare array and
    has no [to_numpy]. *)
Theorem optional_channel_resolution
        (get_tyre_compound_int : string -> Z)
        (parts : parts_t) (total : num) (l : lap) (lap_tel : telemetry) :
  usable_telemetry l = Some lap_tel ->
  (forall sp g d,
      speed_column lap_tel = Some sp -> nGear lap_tel = Some g -> DRS lap_tel = Some d ->
      exists parts',
        process_lap get_tyre_compound_int (parts, total) l
        = Ok (parts', last (map (Qcplus total) (Distance lap_tel)) total) /\
        ch_rel_dist parts'
        = ch_rel_dist parts ++ [match RelativeDistance lap_tel with
                                | Some v => v
                                | None => Distance lap_tel
                                end] /\
        ch_speed parts' = ch_speed parts ++ [sp] /\
        ch_gear parts' = ch_gear parts ++ [g] /\
        ch_drs parts' = ch_drs parts ++ [d]) /\
  (nGear lap_tel = None \/ DRS lap_tel = None \/ speed_column lap_tel = None ->
   process_lap get_tyre_compound_int (parts, total) l = Raise AttributeError).
Proof.
  intro Hu. split.
  - intros sp g d Hsp Hg Hd. eexists. split.
    + apply (process_lap_complete _ _ _ _ _ _ _ _ Hu Hsp Hg Hd).
    + cbn. auto.
  - intro H. apply (process_lap_incomplete _ _ _ _ Hu).
    unfold complete.
    destruct H as [-> | [-> | ->]];
      [destruct (speed_column lap_tel)
      |destruct (speed_column lap_tel), (nGear lap_tel)
      |]; reflexivity.
Qed.

(** A lap whose table has no gear column makes [process_lap] raise. *)
Lemma optional_channel_resolution_witness :
  usable_telemetry lap_without_gear = Some (table_without_gear 0 1 10) /\
  process_lap (fun _ => 1%Z) (empty_parts, 0%Qc) lap_without_gear = Raise AttributeError.
Proof.
  split; [reflexivity|].
  apply (optional_channel_resolution (fun _ => 1%Z) empty_parts 0%Qc lap_without_gear
           (table_without_gear 0 1 10) eq_refl).
  left. reflexivity.
Defined.

(** C5.  A lap that is not skipped and goes through (as every lap with
    complete columns does) appends its own distances plus the running
    offset, and the offset becomes the last of these values, or stays as
    it was when the lap has no distance sample; a skipped lap changes
    neither.  Laps with distances [0, 10] and [0, 5] give
    [0, 10, 10, 15], also with a lap without telemetry between them, and
    this is the distance channel of the driver's trace. *)
Theorem cumulative_distance_offset (get_tyre_compound_int : string -> Z) :
  (forall parts total l,
      match usable_telemetry l with
      | Some lap_tel =>
          (complete lap_tel = true ->
           exists st', process_lap get_tyre_compound_int (parts, total) l = Ok st') /\
          (forall st',
              process_lap get_tyre_compound_int (parts, total) l = Ok st' ->
              ch_dist (fst st')
              = ch_dist parts ++ [map (Qcplus total) (Distance lap_tel)] /\
              snd st' = match rev (Distance lap_tel) with
                        | [] => total
                        | d :: _ => (total + d)%Qc
                        end)
      | None => process_lap get_tyre_compound_int (parts, total) l = Ok (parts, total)
      end) /\
  (exists st,
      process_laps get_tyre_compound_int [lap_A; lap_B] = Ok st /\
      concat (ch_dist (fst st)) = ints [0; 10; 10; 15]%Z /\
      snd st = of_Z 15) /\
  (exists st,
      process_laps get_tyre_compound_int [lap_A; lap_unavailable; lap_B] = Ok st /\
      concat (ch_dist (fst st)) = ints [0; 10; 10; 15]%Z /\
      snd st = of_Z 15) /\
  (exists st,
      extract get_tyre_compound_int (with_drivers driver_1_then_no_gear ["1"%string])
      = Ok st /\
      map (fun cd => ch_dist (snd cd)) (driver_data st) = [ints [0; 10; 10; 15]%Z]).
Proof.
  split; [|split; [|split]].
  - intros parts total l.
    destruct (usable_telemetry l) as [lap_tel|] eqn:Hu;
      [|now apply process_lap_skip].
    destruct (complete lap_tel) eqn:Hc.
    + unfold complete in Hc.
      destruct (speed_column lap_tel) as [sp|] eqn:Hsp; [|discriminate].
      destruct (nGear lap_tel) as [g|] eqn:Hg; [|discriminate].
      destruct (DRS lap_tel) as [d|] eqn:Hd; [|discriminate].
      rewrite (process_lap_complete _ _ _ _ _ _ _ _ Hu Hsp Hg Hd).
      split; [eauto|]. intros st' H.
      injection H as <-. cbn [fst snd ch_dist]. split; [reflexivity|].
      destruct (Distance lap_tel) as [|d0 ds] using rev_ind; [reflexivity|].
      rewrite map_app. cbn [map]. rewrite last_last, rev_app_distr. reflexivity.
    + rewrite (process_lap_incomplete _ _ _ _ Hu Hc).
      split; [discriminate | intros st' H; discriminate H].
  - eexists. split; [vm_compute; reflexivity|].
    split; [apply Qc_list_eq | apply Qc_decomp]; vm_compute; reflexivity.
  - eexists. split; [vm_compute; reflexivity|].
    split; [apply Qc_list_eq | apply Qc_decomp]; vm_compute; reflexivity.
  - eexists. split; [vm_compute; reflexivity|].
    cbn [map driver_data snd ch_dist]. reflexivity.
Qed.

(** ** Loops that may raise *)

Lemma foldM_app {A B} (f : A -> B -> result A) l1 l2 a :
  foldM f (l1 ++ l2) a = (a' <- foldM f l1 a ;; foldM f l2 a').
Proof.
  revert a. induction l1 as [|b l1 IH]; intro a; cbn; [reflexivity|].
  destruct (f a b); cbn; [apply IH | reflexivity].
Qed.

Lemma foldM_ext_in {A B} (f g : A -> B -> result A) l a :
  (forall b, In b l -> forall a, f a b = g a b) -> foldM f l a = foldM g l a.
Proof.
  revert a. induction l as [|b l IH]; intros a H; cbn; [reflexivity|].
  rewrite (H b (or_introl eq_refl)). destruct (g a b); cbn; [|reflexivity].
  apply IH. intros b' Hb'. apply H. now right.
Qed.

(** When every exception of the body is [e0] and the body raises on one
    element whatever the state, the loop raises [e0]. *)
Lemma foldM_raises {A B} (f : A -> B -> result A) e0 l a b :
  (forall a b e, f a b = Raise e -> e = e0) ->
  In b l -> (forall a, f a b = Raise e0) -> foldM f l a = Raise e0.
Proof.
  intros Hall Hin Hb. revert a. induction l as [|c l IH]; intro a; [easy|].
  cbn. destruct (f a c) as [a'|e] eqn:E; cbn.
  - destruct Hin as [->|Hin]; [rewrite Hb in E; discriminate | now apply IH].
  - now rewrite (Hall _ _ _ E).
Qed.

Lemma foldM_only_raises {A B} (f : A -> B -> result A) e0 l a e :
  (forall a b e, f a b = Raise e -> e = e0) -> foldM f l a = Raise e -> e = e0.
Proof.
  intros Hall. revert a. induction l as [|c l IH]; intro a; cbn; [discriminate|].
  destruct (f a c) as [a'|e'] eqn:E; cbn.
  - apply IH.
  - intros [= <-]. eapply Hall, E.
Qed.

Lemma foldM_ok {A B} (f : A -> B -> result A) l a :
  (forall b, In b l -> forall a, exists a', f a b = Ok a') ->
  exists a', foldM f l a = Ok a'.
Proof.
  revert a. induction l as [|b l IH]; intros a H; cbn; [eauto|].
  destruct (H b (or_introl eq_refl) a) as [a' ->]. cbn.
  apply IH. intros b' Hb'. apply H. now right.
Qed.

(** ** Dictionaries *)

Section DictFacts.
Context {V : Type}.
Implicit Types (d : list (string * V)) (k : string) (v : V).

Lemma dict_set_new k v d : ~ In k (keys d) -> dict_set k v d = d ++ [(k, v)].
Proof.
  induction d as [|[k' v'] d IH]; intro H; cbn; [reflexivity|].
  destruct (String.eqb_spec k' k) as [->|Hne].
  - exfalso. apply H. now left.
  - rewrite IH; [reflexivity|]. intro Hin. apply H. now right.
Qed.

Lemma keys_dict_set_old k v d : In k (keys d) -> keys (dict_set k v d) = keys d.
Proof.
  induction d as [|[k' v'] d IH]; intro H; [easy|]. cbn.
  destruct (String.eqb_spec k' k) as [->|Hne]; [reflexivity|].
  cbn. f_equal. apply IH. destruct H as [H|H]; [contradiction | exact H].
Qed.

Lemma in_keys_dict_set k v d k' :
  In k' (keys (dict_set k v d)) <-> k' = k \/ In k' (keys d).
Proof.
  destruct (in_dec string_dec k (keys d)) as [Hin|Hnin].
  - rewrite keys_dict_set_old by assumption.
    split; [auto | intros [->|H]; assumption].
  - rewrite dict_set_new by assumption. unfold keys. rewrite map_app, in_app_iff.
    cbn. split; intros [H|H]; auto. destruct H as [->|[]]. auto.
Qed.

Lemma NoDup_keys_dict_set k v d : NoDup (keys d) -> NoDup (keys (dict_set k v d)).
Proof.
  intro H. destruct (in_dec string_dec k (keys d)) as [Hin|Hnin].
  - now rewrite keys_dict_set_old.
  - rewrite dict_set_new by assumption. unfold keys. rewrite map_app.
    apply NoDup_app; [exact H | repeat constructor; easy |].
    intros a Ha [<-|[]]. contradiction.
Qed.

Lemma length_dict_set_le k v d : length d <= length (dict_set k v d).
Proof.
  induction d as [|[k' v'] d IH]; cbn; [lia|].
  destruct (String.eqb k' k); cbn; lia.
Qed.

Lemma dict_set_nonempty k v d : dict_set k v d <> [].
Proof.
  destruct d as [|[k' v'] d]; cbn; [discriminate|].
  destruct (String.eqb k' k); discriminate.
Qed.
End DictFacts.

(** ** The loop over the drivers *)

Lemma dict_get_build_codes (f : string -> string) l d k :
  dict_get k (fold_left (fun dc n => dict_set n (f n) dc) l d)
  = if in_dec string_dec k l then Some (f k) else dict_get k d.
Proof.
  revert d. induction l as [|n l IH]; intro d; [reflexivity|].
  cbn [fold_left]. rewrite IH.
  assert (Hset : forall d, dict_get k (dict_set n (f n) d)
                           = if string_dec n k then Some (f k) else dict_get k d).
  { clear. induction d as [|[k' v'] d IH]; cbn.
    - destruct (String.eqb_spec n k), (string_dec n k); congruence.
    - destruct (String.eqb_spec k' n) as [->|Hne]; cbn.
      + destruct (String.eqb_spec n k), (string_dec n k); congruence.
      + destruct (String.eqb_spec k' k) as [->|Hne'].
        * destruct (string_dec n k); congruence.
        * exact IH. }
  rewrite Hset.
  destruct (in_dec string_dec k l) as [Hin|Hnin], (in_dec string_dec k (n :: l)) as [Hin'|Hnin'];
    try reflexivity.
  - exfalso. apply Hnin'. now right.
  - destruct Hin' as [->|H]; [|contradiction].
    destruct (string_dec k k); congruence.
  - destruct (string_dec n k) as [->|]; [|reflexivity].
    exfalso. apply Hnin'. now left.
Qed.

Lemma code_of_build s n :
  In n (drivers s) -> code_of (build_driver_codes s) n = driver_code s n.
Proof.
  intro H. unfold code_of, build_driver_codes.
  rewrite (dict_get_build_codes (driver_code s)).
  destruct (in_dec string_dec n (drivers s)); [reflexivity | contradiction].
Qed.

Section Drivers.
Variable get_tyre_compound_int : string -> Z.
Variable s : session.

Lemma process_driver_absorb codes st n :
  process_driver get_tyre_compound_int s codes st n
  = (o <- driver_outcome get_tyre_compound_int s n ;; Ok (absorb st (code_of codes n) o)).
Proof.
  unfold process_driver, driver_outcome.
  destruct (pick_drivers s n) as [[|l0 laps]|]; try reflexivity.
  destruct (process_laps _ (l0 :: laps)) as [[parts total]|e]; [|reflexivity].
  cbn [bind fst]. destruct (ch_t parts); [reflexivity|].
  destruct (concat_and_sort parts); reflexivity.
Qed.

Lemma extract_absorb :
  extract get_tyre_compound_int s
  = foldM (fun st n => o <- driver_outcome get_tyre_compound_int s n ;;
                       Ok (absorb st (driver_code s n) o))
          (drivers s) init_state.
Proof.
  unfold extract. apply foldM_ext_in. intros n Hn st.
  now rewrite process_driver_absorb, code_of_build.
Qed.

Lemma process_laps_raises laps e :
  process_laps get_tyre_compound_int laps = Raise e -> e = AttributeError.
Proof.
  apply foldM_only_raises. intros. eapply process_lap_raises; eassumption.
Qed.

Lemma driver_outcome_raises n e :
  driver_outcome get_tyre_compound_int s n = Raise e -> e = AttributeError.
Proof.
  unfold driver_outcome.
  destruct (pick_drivers s n) as [[|l0 laps]|]; try discriminate.
  destruct (process_laps _ (l0 :: laps)) eqn:E; [discriminate|].
  intros [= <-]. eapply process_laps_raises, E.
Qed.

Lemma extract_raises e :
  extract get_tyre_compound_int s = Raise e -> e = AttributeError.
Proof.
  rewrite extract_absorb. apply foldM_only_raises.
  intros st n e'. destruct (driver_outcome _ s n) eqn:E; [discriminate|].
  intros [= <-]. eapply driver_outcome_raises, E.
Qed.

(** A usable lap with a missing column anywhere stops the whole loop. *)
Lemma extract_incomplete n laps l lap_tel :
  In n (drivers s) -> pick_drivers s n = Some laps -> In l laps ->
  usable_telemetry l = Some lap_tel -> complete lap_tel = false ->
  extract get_tyre_compound_int s = Raise AttributeError.
Proof.
  intros Hn Hlaps Hl Hu Hc. rewrite extract_absorb.
  apply foldM_raises with (b := n); [|exact Hn|].
  - intros st m e. destruct (driver_outcome _ s m) eqn:E; [discriminate|].
    intros [= <-]. eapply driver_outcome_raises, E.
  - intro st. unfold driver_outcome. rewrite Hlaps.
    destruct laps as [|l0 laps']; [easy|].
    unfold process_laps.
    rewrite (foldM_raises _ AttributeError (l0 :: laps') _ l); [reflexivity | | exact Hl |].
    + intros. eapply process_lap_raises; eassumption.
    + intro a. eapply process_lap_incomplete; eassumption.
Qed.
End Drivers.

(** C1.  A lap that is not skipped and whose table lacks the gear column,
    the DRS column or both speed columns makes the whole computation raise
    [AttributeError], whatever the other laps and drivers yield: a missing
    optional channel is not absorbed. *)
Theorem missing_channel_aborts
        (get_tyre_compound_int : string -> Z) (s : session)
        (n : string) (laps : list lap) (l : lap) (lap_tel : telemetry) :
  In n (drivers s) -> pick_drivers s n = Some laps -> In l laps ->
  usable_telemetry l = Some lap_tel -> complete lap_tel = false ->
  compute_telemetry get_tyre_compound_int s = Raise AttributeError.
Proof.
  intros Hn Hlaps Hl Hu Hc. unfold compute_telemetry.
  now rewrite (extract_incomplete _ _ _ _ _ _ Hn Hlaps Hl Hu Hc).
Qed.

(** Driver 1 alone gives a payload; with driver 2, whose only lap has no
    gear column, nothing is returned. *)
Lemma missing_channel_aborts_witness :
  is_ok (compute_telemetry (fun _ => 1%Z) (with_drivers driver_1_then_no_gear ["1"%string]))
  = true /\
  compute_telemetry (fun _ => 1%Z) driver_1_then_no_gear = Raise AttributeError.
Proof.
  split; [vm_compute; reflexivity|].
  apply (missing_channel_aborts (fun _ => 1%Z) driver_1_then_no_gear "2"%string
           [lap_without_gear] lap_without_gear (table_without_gear 0 1 10)).
  - cbn. auto.
  - reflexivity.
  - now left.
  - reflexivity.
  - reflexivity.
Defined.

(** ** Stable insertion sort *)

Section SortFacts.
Context {A : Type} (before : A -> A -> bool).

Hypothesis before_asym : forall a b, before a b = true -> before b a = false.
Hypothesis not_after_trans :
  forall a b c, not_after before a b -> not_after before b c -> not_after before a c.

Lemma insert_perm a l : Permutation (insert before a l) (a :: l).
Proof.
  induction l as [|b l IH]; cbn; [reflexivity|].
  destruct (before b a); [|reflexivity].
  rewrite IH. apply perm_swap.
Qed.

Lemma stable_sort_perm l : Permutation (stable_sort before l) l.
Proof.
  induction l as [|a l IH]; cbn; [reflexivity|].
  rewrite insert_perm. now constructor.
Qed.

Lemma insert_sorted a l :
  StronglySorted (not_after before) l -> StronglySorted (not_after before) (insert before a l).
Proof.
  induction 1 as [|b l Hl IH Hb]; cbn.
  - repeat constructor.
  - destruct (before b a) eqn:E.
    + constructor; [exact IH|].
      rewrite Forall_forall. intros c Hc.
      apply (Permutation_in _ (insert_perm a l)) in Hc. destruct Hc as [<-|Hc].
      * apply before_asym, E.
      * rewrite Forall_forall in Hb. now apply Hb.
    + constructor; [now constructor|].
      constructor; [exact E|].
      rewrite Forall_forall in *. intros c Hc.
      apply (not_after_trans a b c); [exact E | now apply Hb].
Qed.

Lemma stable_sort_sorted l : StronglySorted (not_after before) (stable_sort before l).
Proof.
  induction l as [|a l IH]; cbn; [constructor | now apply insert_sorted].
Qed.

(** Two sorted arrangements of the same elements agree when any two
    different elements are strictly ordered one way or the other. *)
Lemma sorted_perm_unique l l' :
  (forall a b, In a l -> In b l -> a <> b -> before a b = true \/ before b a = true) ->
  NoDup l -> Permutation l l' ->
  StronglySorted (not_after before) l -> StronglySorted (not_after before) l' -> l = l'.
Proof.
  revert l'. induction l as [|a l IH]; intros l' Htot Hnd Hp Hs Hs'.
  - now apply Permutation_nil in Hp.
  - destruct l' as [|a' l']; [now apply Permutation_sym, Permutation_nil in Hp|].
    inversion Hs as [|? ? Hs1 Ha]; subst. inversion Hs' as [|? ? Hs1' Ha']; subst.
    inversion Hnd as [|? ? Hnin Hnd1]; subst.
    rewrite Forall_forall in Ha, Ha'.
    assert (Heq : a = a').
    { assert (Hin' : In a' (a :: l)) by (apply (Permutation_in _ (Permutation_sym Hp)); now left).
      assert (Hin : In a (a' :: l')) by (apply (Permutation_in _ Hp); now left).
      destruct Hin' as [E|Hin']; [exact E|].
      destruct Hin as [E|Hin]; [now symmetry|].
      destruct (Htot a a') as [E|E]; [now left | now right | | | ].
      - intros ->. contradiction.
      - specialize (Ha' a Hin). unfold not_after in Ha'. congruence.
      - specialize (Ha a' Hin'). unfold not_after in Ha. congruence. }
    subst a'. f_equal. apply Permutation_cons_inv in Hp.
    apply IH; auto. intros b c Hb Hc. apply Htot; now right.
Qed.

Lemma stable_sort_perm_unique l l' :
  (forall a b, In a l -> In b l -> a <> b -> before a b = true \/ before b a = true) ->
  NoDup l -> Permutation l l' -> stable_sort before l = stable_sort before l'.
Proof.
  intros Htot Hnd Hp.
  assert (Hps : Permutation (stable_sort before l) l) by apply stable_sort_perm.
  apply sorted_perm_unique; try apply stable_sort_sorted.
  - intros a b Ha Hb. apply Htot; eapply Permutation_in; eauto.
  - eapply Permutation_NoDup; [symmetry; exact Hps | exact Hnd].
  - rewrite Hps, Hp. symmetry. apply stable_sort_perm.
Qed.
End SortFacts.

Lemma StronglySorted_nth {A} (R : A -> A -> Prop) l :
  StronglySorted R l ->
  forall i j a b, i < j -> nth_error l i = Some a -> nth_error l j = Some b -> R a b.
Proof.
  induction 1 as [|c l Hl IH Hc]; intros i j a b Hij Ha Hb.
  - destruct i; discriminate.
  - destruct j as [|j]; [lia|]. cbn in Hb. destruct i as [|i].
    + cbn in Ha. injection Ha as <-. rewrite Forall_forall in Hc.
      eapply Hc, nth_error_In, Hb.
    + cbn in Ha. apply (IH i j); [lia | assumption | assumption].
Qed.

Lemma StronglySorted_weaken {A} (R R' : A -> A -> Prop) l :
  (forall a b, R a b -> R' a b) -> StronglySorted R l -> StronglySorted R' l.
Proof.
  intros H. induction 1 as [|a l Hl IH Ha]; constructor; [exact IH|].
  eapply Forall_impl; [|exact Ha]. intros b. apply H.
Qed.

(** The two orders the program sorts by. *)
Lemma Qcltb_asym (a b : num) : Qcltb a b = true -> Qcltb b a = false.
Proof.
  rewrite Qcltb_lt, Qcltb_ge. apply Qclt_le_weak.
Qed.

Lemma Qcltb_false_trans (a b c : num) :
  Qcltb b a = false -> Qcltb c b = false -> Qcltb c a = false.
Proof.
  rewrite !Qcltb_ge. apply Qcle_trans.
Qed.

(** ** Loops that fill a dictionary *)

Lemma fold_left_ext_eq {A B} (f g : A -> B -> A) l a :
  (forall a b, f a b = g a b) -> fold_left f l a = fold_left g l a.
Proof.
  intro H. revert a. induction l as [|b l IH]; intro a; cbn; [reflexivity|].
  now rewrite H, IH.
Qed.

Lemma file_into_cons {B V} (g : B -> option (string * V)) b l d :
  file_into g (b :: l) d
  = file_into g l (match g b with
                   | Some kv => dict_set (fst kv) (snd kv) d
                   | None => d
                   end).
Proof. reflexivity. Qed.

Lemma collect_cons {B V} (g : B -> option (string * V)) b l :
  collect g (b :: l)
  = match g b with Some kv => kv :: collect g l | None => collect g l end.
Proof. unfold collect. cbn. now destruct (g b). Qed.

Lemma file_into_NoDup {B V} (g : B -> option (string * V)) l d :
  NoDup (keys d) -> NoDup (keys (file_into g l d)).
Proof.
  revert d. induction l as [|b l IH]; intros d H; [exact H|].
  rewrite file_into_cons. apply IH.
  destruct (g b) as [[k v]|]; [now apply NoDup_keys_dict_set | exact H].
Qed.

Lemma file_into_collect {B V} (g : B -> option (string * V)) l d :
  NoDup (keys d ++ keys (collect g l)) -> file_into g l d = d ++ collect g l.
Proof.
  revert d. induction l as [|b l IH]; intros d H.
  - cbn. now rewrite app_nil_r.
  - rewrite file_into_cons. rewrite collect_cons in *.
    destruct (g b) as [[k v]|]; cbn [fst snd] in *.
    + rewrite dict_set_new.
      * rewrite IH; [now rewrite <- app_assoc|].
        unfold keys in *. rewrite map_app, <- app_assoc. exact H.
      * apply NoDup_remove_2 in H. intro Hin. apply H. apply in_or_app. now left.
    + now apply IH.
Qed.

Lemma in_file_into_keys {B V} (g : B -> option (string * V)) l d k :
  In k (keys (file_into g l d)) <-> In k (keys d) \/ In k (keys (collect g l)).
Proof.
  revert d. induction l as [|b l IH]; intro d.
  - cbn. tauto.
  - rewrite file_into_cons, collect_cons, IH.
    destruct (g b) as [[k' v]|]; cbn [fst snd]; [|tauto].
    rewrite in_keys_dict_set. cbn. intuition congruence.
Qed.

(** ** Enumerations *)

Lemma in_combine_seq {A} (l : list A) k i a :
  In (i, a) (combine (seq k (length l)) l) <-> k <= i /\ nth_error l (i - k) = Some a.
Proof.
  revert k. induction l as [|b l IH]; intro k; cbn.
  - split; [easy | intros [_ H]; destruct (i - k); discriminate].
  - rewrite IH. split.
    + intros [[= <- <-]|[Hle Hn]].
      * split; [lia|]. now rewrite Nat.sub_diag.
      * split; [lia|]. replace (i - k) with (S (i - S k)) by lia. exact Hn.
    + intros [Hle Hn]. destruct (Nat.eq_dec i k) as [->|Hne].
      * left. rewrite Nat.sub_diag in Hn. cbn in Hn. congruence.
      * right. split; [lia|]. replace (i - k) with (S (i - S k)) in Hn by lia. exact Hn.
Qed.

Lemma in_enumerate {A} (l : list A) i a :
  In (i, a) (enumerate l) <-> nth_error l i = Some a.
Proof.
  unfold enumerate. rewrite in_combine_seq, Nat.sub_0_r.
  split; [tauto | intro; split; [lia | assumption]].
Qed.

Lemma map_fst_enumerate {A} (l : list A) : map fst (enumerate l) = seq 0 (length l).
Proof.
  unfold enumerate. generalize 0.
  induction l as [|a l IH]; intro k; cbn; [reflexivity | now rewrite IH].
Qed.

Lemma map_snd_enumerate {A} (l : list A) : map snd (enumerate l) = l.
Proof.
  unfold enumerate. generalize 0.
  induction l as [|a l IH]; intro k; cbn; [reflexivity | now rewrite IH].
Qed.

Lemma length_enumerate {A} (l : list A) : length (enumerate l) = length l.
Proof. now rewrite <- (length_map fst), map_fst_enumerate, length_seq. Qed.

(** ** Ranking a frame *)

Lemma frame_drivers_at_file rs i :
  frame_drivers_at rs i = file_into (entry_at i) rs [].
Proof.
  unfold frame_drivers_at, file_into. apply fold_left_ext_eq.
  intros d [code tr]. unfold entry_at. cbn. now destruct (sample_at tr i).
Qed.

Lemma NoDup_frame_drivers_at rs i : NoDup (keys (frame_drivers_at rs i)).
Proof. rewrite frame_drivers_at_file. apply file_into_NoDup. constructor. Qed.

Lemma keys_ranked l : keys (ranked l) = keys l.
Proof.
  unfold ranked, keys. rewrite map_map. cbn.
  rewrite <- (map_snd_enumerate l) at 2. now rewrite map_map.
Qed.

Lemma rank_ranked snapshot : NoDup (keys snapshot) -> rank snapshot = ranked snapshot.
Proof.
  intro H. unfold rank.
  transitivity (file_into (fun ic => Some (fst (snd ic), car_of (fst ic) (snd (snd ic))))
                          (enumerate snapshot) []).
  - unfold file_into. apply fold_left_ext_eq. intros d [idx [code c]]. reflexivity.
  - assert (Hc : forall l : list (nat * (string * sample)),
               collect (fun ic => Some (fst (snd ic), car_of (fst ic) (snd (snd ic)))) l
               = map (fun ic => (fst (snd ic), car_of (fst ic) (snd (snd ic)))) l).
    { induction l as [|a l IH]; [reflexivity|]. rewrite collect_cons, IH. reflexivity. }
    rewrite file_into_collect; rewrite Hc; fold (ranked snapshot); [reflexivity|].
    cbn. now rewrite keys_ranked.
Qed.

Lemma positions_ranked l : map position (values (ranked l)) = seq 1 (length l).
Proof.
  unfold ranked, values. rewrite !map_map. cbn.
  rewrite <- seq_shift, <- map_fst_enumerate, map_map.
  apply map_ext. intro. apply Nat.add_1_r.
Qed.

Lemma in_ranked l c a :
  In (c, a) (ranked l) ->
  exists i sm, nth_error l i = Some (c, sm) /\ a = car_of i sm.
Proof.
  unfold ranked. rewrite in_map_iff. intros [[i [c' sm]] [[= <- <-] Hin]].
  apply in_enumerate in Hin. eauto.
Qed.

Lemma length_ranked l : length (ranked l) = length l.
Proof. unfold ranked. now rewrite length_map, length_enumerate. Qed.

Lemma sort_snapshot_sorted fd :
  StronglySorted (fun p q => (s_dist (snd q) <= s_dist (snd p))%Qc) (sort_snapshot fd).
Proof.
  unfold sort_snapshot.
  eapply StronglySorted_weaken.
  2: { apply stable_sort_sorted.
       - intros a b. apply Qcltb_asym.
       - intros a b c. unfold not_after. intros H1 H2.
         eapply Qcltb_false_trans; eassumption. }
  intros p q. unfold not_after. now rewrite Qcltb_ge.
Qed.

Lemma sort_snapshot_perm fd : Permutation (sort_snapshot fd) fd.
Proof. apply stable_sort_perm. Qed.

(** What a frame looks like when a tick gets one. *)
Lemma build_frame_some rs i tick f :
  build_frame rs i tick = Some f ->
  let snapshot := sort_snapshot (frame_drivers_at rs i) in
  frame_data f = ranked snapshot /\ t f = tick /\
  NoDup (keys snapshot) /\ snapshot <> [] /\
  leader_lap f
  = s_lap (snd (hd (EmptyString, mk_sample 0%Qc 0%Qc 0%Qc 0 0%Qc 0%Qc 0%Qc 0 0)
                   snapshot)).
Proof.
  unfold build_frame. cbv zeta.
  assert (Hnd : NoDup (keys (sort_snapshot (frame_drivers_at rs i)))).
  { unfold keys. eapply Permutation_NoDup.
    - apply Permutation_map. symmetry. apply sort_snapshot_perm.
    - apply NoDup_frame_drivers_at. }
  destruct (frame_drivers_at rs i) as [|e fd] eqn:Efd; [discriminate|].
  destruct (sort_snapshot (e :: fd)) as [|leader rest] eqn:Es; [discriminate|].
  intros [= <-]. cbn [frame_data t leader_lap hd].
  repeat split; try easy. now apply rank_ranked.
Qed.

Lemma in_build_frames rs timeline f :
  In f (build_frames rs timeline) <->
  exists i tick, nth_error timeline i = Some tick /\ build_frame rs i tick = Some f.
Proof.
  unfold build_frames. rewrite in_flat_map. split.
  - intros [[i tick] [Hin Hf]]. apply in_enumerate in Hin.
    exists i, tick. split; [exact Hin|].
    destruct (build_frame rs i tick) as [f'|]; [|easy].
    destruct Hf as [->|[]]. reflexivity.
  - intros (i & tick & Hn & Hf). exists (i, tick). split; [now apply in_enumerate|].
    rewrite Hf. now left.
Qed.

Lemma compute_frames tyre s p :
  compute_telemetry tyre s = Ok p ->
  exists st gmin gmax,
    extract tyre s = Ok st /\ driver_data st <> [] /\
    global_t_min st = Some gmin /\ global_t_max st = Some gmax /\
    frames p = build_frames (resample (make_timeline gmin gmax) gmin (driver_data st))
                            (make_timeline gmin gmax) /\
    track_statuses p = format_track_statuses gmin (track_status s) /\
    payload_driver_colors p = driver_colors s /\
    total_laps p = max_lap_number st.
Proof.
  unfold compute_telemetry. destruct (extract tyre s) as [st|]; [|discriminate].
  cbn [bind]. destruct (driver_data st) as [|e dd] eqn:Ed; [discriminate|].
  destruct (global_t_min st) as [gmin|] eqn:Emin; [|discriminate].
  destruct (global_t_max st) as [gmax|] eqn:Emax; [|discriminate].
  intros [= <-]. exists st, gmin, gmax. rewrite Ed. cbn.
  repeat split; try reflexivity; try assumption. discriminate.
Qed.

(** ** Binary64 rounding *)

Local Open Scope Q_scope.

Lemma two_nonzero : ~ 2 == 0.
Proof. discriminate. Qed.

Lemma pow2_pos k : 0 < 2 ^ k.
Proof. now apply Qpower_0_lt. Qed.

Lemma pow2_add a b : 2 ^ (a + b) == 2 ^ a * 2 ^ b.
Proof. apply Qpower_plus, two_nonzero. Qed.

Lemma pow2_sub a b : 2 ^ (a - b) == 2 ^ a / 2 ^ b.
Proof. apply Qpower_minus, two_nonzero. Qed.

Lemma pow2_le a b : (a <= b)%Z -> 2 ^ a <= 2 ^ b.
Proof. intro H. apply Qpower_le_compat_l; [exact H | discriminate]. Qed.

Lemma pow2_lt a b : (a < b)%Z -> 2 ^ a < 2 ^ b.
Proof. intro H. apply Qpower_lt_compat_l; [exact H | reflexivity]. Qed.

Lemma pow2_lt_inv a b : 2 ^ a < 2 ^ b -> (a < b)%Z.
Proof. intro H. apply (Qpower_lt_compat_l_inv 2); [exact H | reflexivity]. Qed.

Lemma pow2_Z k : (0 <= k)%Z -> 2 ^ k == inject_Z (2 ^ k).
Proof. intro H. now rewrite Zpower_Qpower. Qed.

Lemma rne_comp q q' : q == q' -> rne q = rne q'.
Proof.
  intro H. unfold rne. rewrite (Qfloor_comp _ _ H).
  assert (E : q - inject_Z (Qfloor q') == q' - inject_Z (Qfloor q')) by now rewrite H.
  now rewrite E.
Qed.

Lemma rne_Z z : rne (inject_Z z) = z.
Proof.
  unfold rne. rewrite Qfloor_Z.
  assert (E : inject_Z z - inject_Z z == 0) by ring.
  rewrite E. reflexivity.
Qed.

Lemma rne_floor q : (Qfloor q <= rne q <= Qfloor q + 1)%Z.
Proof.
  unfold rne. destruct (Qcompare _ _); [destruct (Z.even _)| |]; lia.
Qed.

Lemma rne_mono q q' : q <= q' -> (rne q <= rne q')%Z.
Proof.
  intro H. pose proof (Qfloor_resp_le _ _ H) as Hf.
  destruct (Z.eq_dec (Qfloor q) (Qfloor q')) as [E|E].
  - unfold rne. rewrite E.
    destruct (Qcompare_spec (q - inject_Z (Qfloor q')) (1 # 2)) as [H1|H1|H1];
      destruct (Qcompare_spec (q' - inject_Z (Qfloor q')) (1 # 2)) as [H2|H2|H2];
      try destruct (Z.even (Qfloor q')); try lia; exfalso; lra.
  - pose proof (rne_floor q). pose proof (rne_floor q'). lia.
Qed.

Lemma rne_nonneg q : 0 <= q -> (0 <= rne q)%Z.
Proof. intro H. apply rne_mono in H. exact H. Qed.

Lemma ilog2_spec q : 0 < q -> 2 ^ ilog2 q <= q /\ q < 2 ^ (ilog2 q + 1).
Proof.
  intro Hq. destruct q as [n d]. unfold ilog2. cbn [Qnum Qden].
  assert (Hn : (0 < n)%Z) by (unfold Qlt in Hq; cbn in Hq; lia).
  set (a := Z.log2 n). set (b := Z.log2 (Z.pos d)). set (k := (a - b)%Z).
  destruct (Z.log2_spec n Hn) as [Ha1 Ha2]. fold a in Ha1, Ha2.
  destruct (Z.log2_spec (Z.pos d) eq_refl) as [Hb1 Hb2]. fold b in Hb1, Hb2.
  assert (Ha0 : (0 <= a)%Z) by apply Z.log2_nonneg.
  assert (Hb0 : (0 <= b)%Z) by apply Z.log2_nonneg.
  assert (En : n # d == inject_Z n / inject_Z (Z.pos d)) by apply Qmake_Qdiv.
  assert (Hd : 0 < inject_Z (Z.pos d)) by reflexivity.
  rewrite Zle_Qle, <- pow2_Z in Ha1 by lia.
  rewrite Zlt_Qlt, <- pow2_Z in Ha2 by lia.
  rewrite Zle_Qle, <- pow2_Z in Hb1 by lia.
  rewrite Zlt_Qlt, <- pow2_Z in Hb2 by lia.
  replace (Z.succ a) with (a + 1)%Z in Ha2 by lia.
  replace (Z.succ b) with (b + 1)%Z in Hb2 by lia.
  assert (Hup : n # d < 2 ^ (k + 1)).
  { rewrite En. apply Qlt_shift_div_r; [exact Hd|].
    apply Qlt_le_trans with (2 ^ (a + 1)); [exact Ha2|].
    apply Qle_trans with (2 ^ (k + 1) * 2 ^ b).
    - rewrite <- pow2_add. apply pow2_le. unfold k. lia.
    - apply Qmult_le_l; [apply pow2_pos | exact Hb1]. }
  assert (Hlo : 2 ^ (k - 1) < n # d).
  { rewrite En. apply Qlt_shift_div_l; [exact Hd|].
    apply Qlt_le_trans with (2 ^ a); [|exact Ha1].
    apply Qlt_le_trans with (2 ^ (k - 1) * 2 ^ (b + 1)).
    - apply Qmult_lt_l; [apply pow2_pos | exact Hb2].
    - rewrite <- pow2_add. apply pow2_le. unfold k. lia. }
  destruct (Qle_bool (2 ^ k) (n # d)) eqn:E.
  - apply Qle_bool_iff in E. split; assumption.
  - assert (Hlt : n # d < 2 ^ k).
    { apply Qnot_le_lt. intro H. apply Qle_bool_iff in H. congruence. }
    replace (k - 1 + 1)%Z with k by lia. split; [now apply Qlt_le_weak | exact Hlt].
Qed.

Lemma ilog2_unique q k : 2 ^ k <= q -> q < 2 ^ (k + 1) -> ilog2 q = k.
Proof.
  intros H1 H2.
  assert (Hq : 0 < q) by (eapply Qlt_le_trans; [apply (pow2_pos k) | exact H1]).
  destruct (ilog2_spec q Hq) as [H3 H4].
  assert (ilog2 q < k + 1)%Z by (apply pow2_lt_inv; eapply Qle_lt_trans; eassumption).
  assert (k < ilog2 q + 1)%Z by (apply pow2_lt_inv; eapply Qle_lt_trans; eassumption).
  lia.
Qed.

Lemma ilog2_comp q q' : 0 < q -> q == q' -> ilog2 q = ilog2 q'.
Proof.
  intros Hq E. destruct (ilog2_spec q Hq) as [H1 H2].
  symmetry. apply ilog2_unique; now rewrite <- E.
Qed.

Lemma ilog2_mono q q' : 0 < q -> q <= q' -> (ilog2 q <= ilog2 q')%Z.
Proof.
  intros Hq H. destruct (ilog2_spec q Hq) as [H1 _].
  destruct (ilog2_spec q') as [_ H2]; [eapply Qlt_le_trans; eassumption|].
  assert (ilog2 q < ilog2 q' + 1)%Z; [|lia].
  apply pow2_lt_inv. eapply Qle_lt_trans; [exact H1|]. eapply Qle_lt_trans; eassumption.
Qed.

Lemma fexp_comp q q' : 0 < q -> q == q' -> fexp q = fexp q'.
Proof. intros Hq E. unfold fexp. now rewrite (ilog2_comp q q' Hq E). Qed.

Lemma fl_pos_comp q q' : 0 < q -> q == q' -> fl_pos q == fl_pos q'.
Proof.
  intros Hq E. unfold fl_pos. rewrite (fexp_comp q q' Hq E).
  assert (E' : q / 2 ^ fexp q' == q' / 2 ^ fexp q') by now rewrite E.
  now rewrite (rne_comp _ _ E').
Qed.

Lemma scaled_le a b e : a <= b -> a / 2 ^ e <= b / 2 ^ e.
Proof.
  intro H. unfold Qdiv. apply Qmult_le_compat_r; [exact H|].
  apply Qlt_le_weak, Qinv_lt_0_compat, pow2_pos.
Qed.

Lemma pow2_scaled a e : (e <= a)%Z -> 2 ^ a / 2 ^ e == inject_Z (2 ^ (a - e)).
Proof. intro H. rewrite <- pow2_sub. apply pow2_Z. lia. Qed.

Lemma rne_le_int q z : q <= inject_Z z -> (rne q <= z)%Z.
Proof. intro H. apply rne_mono in H. now rewrite rne_Z in H. Qed.

Lemma rne_ge_int q z : inject_Z z <= q -> (z <= rne q)%Z.
Proof. intro H. apply rne_mono in H. now rewrite rne_Z in H. Qed.

Lemma fl_pos_nonneg q : 0 < q -> 0 <= fl_pos q.
Proof.
  intro Hq. unfold fl_pos. apply Qmult_le_0_compat.
  - change 0 with (inject_Z 0). rewrite <- Zle_Qle. apply rne_nonneg.
    apply Qle_shift_div_l; [apply pow2_pos|]. rewrite Qmult_0_l. now apply Qlt_le_weak.
  - apply Qlt_le_weak, pow2_pos.
Qed.

Lemma fl_pos_le_pow2 q k : 0 < q -> q <= 2 ^ k -> (fexp q <= k)%Z -> fl_pos q <= 2 ^ k.
Proof.
  intros Hq H He. unfold fl_pos.
  assert (Hr : (rne (q / 2 ^ fexp q) <= 2 ^ (k - fexp q))%Z).
  { apply rne_le_int. rewrite <- (pow2_scaled k (fexp q) He). now apply scaled_le. }
  rewrite Zle_Qle in Hr.
  apply Qle_trans with (inject_Z (2 ^ (k - fexp q)) * 2 ^ fexp q).
  - apply Qmult_le_compat_r; [exact Hr | apply Qlt_le_weak, pow2_pos].
  - rewrite <- pow2_Z by lia. rewrite <- pow2_add.
    replace (k - fexp q + fexp q)%Z with k by lia. apply Qle_refl.
Qed.

Lemma fl_pos_ge_pow2 q k : 2 ^ k <= q -> (fexp q <= k)%Z -> 2 ^ k <= fl_pos q.
Proof.
  intros H He. unfold fl_pos.
  assert (Hr : (2 ^ (k - fexp q) <= rne (q / 2 ^ fexp q))%Z).
  { apply rne_ge_int. rewrite <- (pow2_scaled k (fexp q) He). now apply scaled_le. }
  rewrite Zle_Qle in Hr.
  apply Qle_trans with (inject_Z (2 ^ (k - fexp q)) * 2 ^ fexp q).
  - rewrite <- pow2_Z by lia. rewrite <- pow2_add.
    replace (k - fexp q + fexp q)%Z with k by lia. apply Qle_refl.
  - apply Qmult_le_compat_r; [exact Hr | apply Qlt_le_weak, pow2_pos].
Qed.

Lemma fl_pos_mono a b : 0 < a -> a <= b -> fl_pos a <= fl_pos b.
Proof.
  intros Ha Hab.
  assert (Hb : 0 < b) by (eapply Qlt_le_trans; eassumption).
  pose proof (ilog2_mono a b Ha Hab) as Hk.
  destruct (ilog2_spec a Ha) as [_ Ha2]. destruct (ilog2_spec b Hb) as [Hb1 _].
  destruct (Z.eq_dec (fexp a) (fexp b)) as [E|E].
  - unfold fl_pos. rewrite E. apply Qmult_le_compat_r; [|apply Qlt_le_weak, pow2_pos].
    rewrite <- Zle_Qle. apply rne_mono. now apply scaled_le.
  - assert (Hlt : (ilog2 a < ilog2 b)%Z).
    { destruct (Z.eq_dec (ilog2 a) (ilog2 b)) as [E'|E']; [|clear -Hk E'; lia].
      exfalso. apply E. unfold fexp. now rewrite E'. }
    apply Qle_trans with (2 ^ ilog2 b).
    + apply fl_pos_le_pow2; [exact Ha | | unfold fexp in *; lia].
      apply Qle_trans with (2 ^ (ilog2 a + 1)); [now apply Qlt_le_weak|].
      apply pow2_le. lia.
    + apply fl_pos_ge_pow2; [exact Hb1 | unfold fexp in *; lia].
Qed.

Lemma fl_pos_repr (m k : Z) :
  (0 < m < 2 ^ 53)%Z -> (-1074 <= k)%Z ->
  fl_pos (inject_Z m * 2 ^ k) == inject_Z m * 2 ^ k.
Proof.
  intros Hm Hk. set (q := inject_Z m * 2 ^ k).
  assert (Hq : 0 < q).
  { unfold q. apply Qmult_lt_0_compat; [|apply pow2_pos].
    change 0 with (inject_Z 0). rewrite <- Zlt_Qlt. lia. }
  assert (Hl : ilog2 q = (Z.log2 m + k)%Z).
  { destruct (Z.log2_spec m (proj1 Hm)) as [H1 H2].
    pose proof (Z.log2_nonneg m) as H0.
    rewrite Zle_Qle, <- pow2_Z in H1 by lia.
    rewrite Zlt_Qlt, <- pow2_Z in H2 by lia.
    apply ilog2_unique; unfold q.
    - rewrite pow2_add. apply Qmult_le_compat_r; [exact H1 | apply Qlt_le_weak, pow2_pos].
    - replace (Z.log2 m + k + 1)%Z with (Z.succ (Z.log2 m) + k)%Z by lia.
      rewrite pow2_add. apply Qmult_lt_compat_r; [apply pow2_pos | exact H2]. }
  assert (Hlog : (Z.log2 m < 53)%Z) by (apply Z.log2_lt_pow2; lia).
  assert (He : (fexp q <= k)%Z) by (unfold fexp; lia).
  unfold fl_pos.
  assert (E : q / 2 ^ fexp q == inject_Z (m * 2 ^ (k - fexp q))).
  { rewrite inject_Z_mult, <- (pow2_Z (k - fexp q)) by lia. rewrite pow2_sub.
    generalize (fexp q). intro e. unfold q. field.
    apply Qpower_not_0, two_nonzero. }
  rewrite (rne_comp _ _ E), rne_Z, inject_Z_mult, <- (pow2_Z (k - fexp q)) by lia.
  rewrite pow2_sub. generalize (fexp q). intro e. unfold q. field.
  apply Qpower_not_0, two_nonzero.
Qed.

Lemma flQ_comp q q' : q == q' -> flQ q == flQ q'.
Proof.
  intro E. unfold flQ. rewrite <- (Qcompare_comp q q' E 0 0 (Qeq_refl 0)).
  destruct (Qcompare_spec q 0) as [H|H|H].
  - reflexivity.
  - apply Qopp_comp, fl_pos_comp; [lra | now rewrite E].
  - now apply fl_pos_comp.
Qed.

Lemma flQ_pos q : 0 < q -> flQ q = fl_pos q.
Proof.
  intro H. unfold flQ. destruct (Qcompare_spec q 0); [exfalso; lra | exfalso; lra | reflexivity].
Qed.

Lemma flQ_neg q : q < 0 -> flQ q = - fl_pos (- q).
Proof.
  intro H. unfold flQ. destruct (Qcompare_spec q 0); [exfalso; lra | reflexivity | exfalso; lra].
Qed.

Lemma flQ_zero q : q == 0 -> flQ q = 0.
Proof.
  intro H. unfold flQ. destruct (Qcompare_spec q 0); [reflexivity | exfalso; lra | exfalso; lra].
Qed.

Lemma flQ_nonneg q : 0 <= q -> 0 <= flQ q.
Proof.
  intro H. destruct (Qlt_le_dec 0 q) as [Hq|Hq].
  - rewrite (flQ_pos q Hq). now apply fl_pos_nonneg.
  - rewrite flQ_zero; [apply Qle_refl | lra].
Qed.

Lemma flQ_nonpos q : q <= 0 -> flQ q <= 0.
Proof.
  intro H. destruct (Qlt_le_dec q 0) as [Hq|Hq].
  - rewrite (flQ_neg q Hq). assert (0 <= fl_pos (- q)) by (apply fl_pos_nonneg; lra). lra.
  - rewrite flQ_zero; [apply Qle_refl | lra].
Qed.

Lemma flQ_mono a b : a <= b -> flQ a <= flQ b.
Proof.
  intro H. destruct (Qlt_le_dec 0 a) as [Ha|Ha].
  - rewrite (flQ_pos a Ha), (flQ_pos b) by lra. now apply fl_pos_mono.
  - destruct (Qlt_le_dec b 0) as [Hb|Hb].
    + rewrite (flQ_neg a), (flQ_neg b Hb) by lra.
      assert (fl_pos (- b) <= fl_pos (- a)) by (apply fl_pos_mono; lra). lra.
    + apply Qle_trans with 0; [now apply flQ_nonpos | now apply flQ_nonneg].
Qed.

Lemma flQ_repr (m k : Z) :
  (Z.abs m < 2 ^ 53)%Z -> (-1074 <= k)%Z ->
  flQ (inject_Z m * 2 ^ k) == inject_Z m * 2 ^ k.
Proof.
  intros Hm Hk. pose proof (pow2_pos k) as Hp.
  destruct (Z.lt_trichotomy m 0) as [H|[H|H]].
  - assert (Hq : inject_Z m * 2 ^ k < 0).
    { setoid_replace (inject_Z m * 2 ^ k) with (- (inject_Z (- m) * 2 ^ k))
        by (rewrite inject_Z_opp; ring).
      assert (0 < inject_Z (- m) * 2 ^ k); [|lra].
      apply Qmult_lt_0_compat; [|exact Hp].
      change 0 with (inject_Z 0). rewrite <- Zlt_Qlt. lia. }
    rewrite (flQ_neg _ Hq).
    assert (E : - (inject_Z m * 2 ^ k) == inject_Z (- m) * 2 ^ k)
      by (rewrite inject_Z_opp; ring).
    assert (Hq' : 0 < - (inject_Z m * 2 ^ k)) by lra.
    rewrite (fl_pos_comp _ _ Hq' E), fl_pos_repr by lia.
    rewrite inject_Z_opp. ring.
  - subst m. rewrite flQ_zero; [|ring]. ring.
  - assert (Hq : 0 < inject_Z m * 2 ^ k).
    { apply Qmult_lt_0_compat; [|exact Hp].
      change 0 with (inject_Z 0). rewrite <- Zlt_Qlt. lia. }
    rewrite (flQ_pos _ Hq). apply fl_pos_repr; lia.
Qed.

Local Close Scope Q_scope.

Lemma this_fl (v : num) : (this (fl v) == flQ v)%Q.
Proof. apply this_Q2Qc. Qed.

Lemma this_plus (a b : num) : (this (a + b)%Qc == this a + this b)%Q.
Proof. apply this_Q2Qc. Qed.

Lemma this_minus (a b : num) : (this (a - b)%Qc == this a - this b)%Q.
Proof. unfold Qcminus, Qcplus, Qcopp. now rewrite !this_Q2Qc. Qed.

Lemma this_div (a b : num) : (this (a / b)%Qc == this a / this b)%Q.
Proof. unfold Qcdiv, Qcmult, Qcinv. now rewrite !this_Q2Qc. Qed.

Lemma this_fadd (a b : num) : (this (fadd a b) == flQ (this a + this b))%Q.
Proof. unfold fadd. rewrite this_fl. apply flQ_comp, this_plus. Qed.

Lemma this_fsub (a b : num) : (this (fsub a b) == flQ (this a - this b))%Q.
Proof. unfold fsub. rewrite this_fl. apply flQ_comp, this_minus. Qed.

Lemma this_fdiv (a b : num) : (this (fdiv a b) == flQ (this a / this b))%Q.
Proof. unfold fdiv. rewrite this_fl. apply flQ_comp, this_div. Qed.

Lemma fl_mono (a b : num) : (a <= b)%Qc -> (fl a <= fl b)%Qc.
Proof. unfold Qcle. intro H. rewrite !this_fl. now apply flQ_mono. Qed.

Lemma fl_zero : fl 0%Qc = 0%Qc.
Proof. apply Qc_is_canon. reflexivity. Qed.

Lemma fsub_self (a : num) : fsub a a = 0%Qc.
Proof. unfold fsub. replace (a - a)%Qc with 0%Qc by ring. apply fl_zero. Qed.

(** ** The timeline *)

Lemma DT_value : DT = Q2Qc (5764607523034235 # 144115188075855872).
Proof. apply Qc_is_canon. vm_compute. reflexivity. Qed.

Lemma DT_bounds : (5 # 128 < this DT)%Q /\ (this DT < 1 # 16)%Q.
Proof. rewrite DT_value. split; reflexivity. Qed.

Lemma length_make_timeline gmin gmax :
  length (make_timeline gmin gmax)
  = Z.to_nat (Qceiling (fdiv (fsub (fadd gmax DT) gmin) DT)).
Proof. unfold make_timeline, arange. now rewrite !length_map, length_seq. Qed.

Lemma nth_make_timeline gmin gmax i :
  i < length (make_timeline gmin gmax) ->
  nth_error (make_timeline gmin gmax) i
  = Some (fsub match i with
               | 0 => gmin
               | 1 => fadd gmin DT
               | _ => fadd gmin (fmul (of_Z (Z.of_nat i)) (fsub (fadd gmin DT) gmin))
               end gmin).
Proof.
  intro H. rewrite length_make_timeline in H. unfold make_timeline, arange.
  rewrite map_map, nth_error_map, nth_error_seq.
  destruct (Nat.ltb_spec i (Z.to_nat (Qceiling (fdiv (fsub (fadd gmax DT) gmin) DT))));
    [|lia].
  reflexivity.
Qed.

Lemma stop_above (g d : Q) :
  (5 # 128 < d)%Q -> (- inject_Z (2 ^ 45) <= g)%Q -> (g <= inject_Z (2 ^ 45))%Q ->
  (d < 1 # 16)%Q -> (g + (1 # 32) < flQ (g + d))%Q.
Proof.
  intros Hd Hlo Hhi Hd'.
  set (x := (g + d)%Q). set (m := Qfloor (128 * x)).
  assert (H1 : (inject_Z m <= 128 * x)%Q) by apply Qfloor_le.
  assert (H2 : (128 * x < inject_Z (m + 1))%Q) by apply Qlt_floor.
  rewrite inject_Z_plus in H2. change (inject_Z 1) with 1%Q in H2.
  change (inject_Z (2 ^ 45)) with (35184372088832 # 1)%Q in Hlo, Hhi.
  assert (Hm : (Z.abs m < 2 ^ 53)%Z).
  { assert (Ha : (- 2 ^ 52 <= m)%Z).
    { change (- 2 ^ 52)%Z with (Qfloor (inject_Z (- 2 ^ 52))).
      apply Qfloor_resp_le. unfold x.
      change (inject_Z (- 2 ^ 52)) with (-4503599627370496 # 1)%Q. lra. }
    assert (Hb : (m <= 2 ^ 52 + 8)%Z).
    { change (2 ^ 52 + 8)%Z with (Qfloor (inject_Z (2 ^ 52 + 8))).
      apply Qfloor_resp_le. unfold x.
      change (inject_Z (2 ^ 52 + 8)) with (4503599627370504 # 1)%Q. lra. }
    lia. }
  assert (Hr : (flQ (inject_Z m * 2 ^ (-7)) == inject_Z m * 2 ^ (-7))%Q)
    by (apply flQ_repr; [exact Hm | lia]).
  assert (Hle : (flQ (inject_Z m * 2 ^ (-7)) <= flQ x)%Q).
  { apply flQ_mono. change (2 ^ (-7))%Q with (1 # 128)%Q. lra. }
  rewrite Hr in Hle. change (2 ^ (-7))%Q with (1 # 128)%Q in Hle. unfold x in *. lra.
Qed.

Lemma make_timeline_nonempty gmin gmax :
  (gmin <= gmax)%Qc -> (- of_Z (2 ^ 45) <= gmax)%Qc -> (gmax <= of_Z (2 ^ 45))%Qc ->
  1 <= length (make_timeline gmin gmax).
Proof.
  intros Hle Hlo Hhi. rewrite length_make_timeline.
  destruct DT_bounds as [Hd Hd'].
  assert (Hstop : (this gmin + (1 # 32) < this (fadd gmax DT))%Q).
  { rewrite this_fadd. apply Qle_lt_trans with (this gmax + (1 # 32))%Q.
    - unfold Qcle in Hle. lra.
    - apply stop_above; assumption. }
  assert (Hspan : (1 # 32 <= this (fsub (fadd gmax DT) gmin))%Q).
  { rewrite this_fsub.
    assert (E : (flQ (inject_Z 1 * 2 ^ (-5)) == inject_Z 1 * 2 ^ (-5))%Q)
      by (apply flQ_repr; [reflexivity | lia]).
    change (inject_Z 1 * 2 ^ (-5))%Q with (1 # 32)%Q in E. rewrite <- E.
    apply flQ_mono. lra. }
  assert (Hq : (1 # 2 <= this (fdiv (fsub (fadd gmax DT) gmin) DT))%Q).
  { rewrite this_fdiv.
    assert (E : (flQ (inject_Z 1 * 2 ^ (-1)) == inject_Z 1 * 2 ^ (-1))%Q)
      by (apply flQ_repr; [reflexivity | lia]).
    change (inject_Z 1 * 2 ^ (-1))%Q with (1 # 2)%Q in E. rewrite <- E.
    apply flQ_mono. apply Qle_shift_div_l; [lra|].
    apply Qle_trans with (1 # 32)%Q; [|exact Hspan]. lra. }
  pose proof (Qle_ceiling (fdiv (fsub (fadd gmax DT) gmin) DT)) as Hc.
  assert (0 < Qceiling (fdiv (fsub (fadd gmax DT) gmin) DT))%Z; [|lia].
  rewrite Zlt_Qlt. change (inject_Z 0) with 0%Q. lra.
Qed.

Lemma make_timeline_head gmin gmax :
  1 <= length (make_timeline gmin gmax) ->
  nth_error (make_timeline gmin gmax) 0 = Some 0%Qc.
Proof. intro H. rewrite nth_make_timeline by lia. now rewrite fsub_self. Qed.

(** ** Bounds kept by the loop over the drivers *)

Lemma foldM_invariant {A B} (P : A -> Prop) (f : A -> B -> result A) l a a' :
  (forall a b a', P a -> f a b = Ok a' -> P a') ->
  P a -> foldM f l a = Ok a' -> P a'.
Proof.
  intro Hstep. revert a. induction l as [|b l IH]; intros a Ha; cbn.
  - now intros [= <-].
  - destruct (f a b) as [a1|] eqn:E; [|discriminate]. cbn.
    apply IH. eapply Hstep; eassumption.
Qed.

Lemma foldM_covers {A B} (Q : B -> A -> Prop) (f : A -> B -> result A) l a a' :
  (forall a b a', f a b = Ok a' -> Q b a') ->
  (forall a b b' a', Q b' a -> f a b = Ok a' -> Q b' a') ->
  foldM f l a = Ok a' -> forall b, In b l -> Q b a'.
Proof.
  intros Hnew Hkeep. revert a.
  induction l as [|b0 l IH]; intros a Hf b Hb; [destruct Hb|].
  cbn in Hf. destruct (f a b0) as [a0|e] eqn:E; [|discriminate]. cbn in Hf.
  destruct Hb as [->|Hb].
  - revert Hf. generalize (Hnew _ _ _ E).
    apply (foldM_invariant (fun x => Q b x)). intros x y x' Hx Hy.
    eapply Hkeep; eassumption.
  - eapply IH; eassumption.
Qed.

Lemma py_min_le_l a b : (py_min a b <= a)%Qc.
Proof.
  unfold py_min. destruct (Qcltb b a) eqn:E.
  - apply Qcltb_lt in E. now apply Qclt_le_weak.
  - apply Qcle_refl.
Qed.

Lemma py_min_le_r a b : (py_min a b <= b)%Qc.
Proof.
  unfold py_min. destruct (Qcltb b a) eqn:E.
  - apply Qcle_refl.
  - now apply Qcltb_ge in E.
Qed.

Lemma py_max_ge_l a b : (a <= py_max a b)%Qc.
Proof.
  unfold py_max. destruct (Qcltb a b) eqn:E.
  - apply Qcltb_lt in E. now apply Qclt_le_weak.
  - apply Qcle_refl.
Qed.

Lemma py_max_ge_r a b : (b <= py_max a b)%Qc.
Proof.
  unfold py_max. destruct (Qcltb a b) eqn:E.
  - apply Qcle_refl.
  - now apply Qcltb_ge in E.
Qed.

Lemma fold_py_min_le r v : (fold_left py_min r v <= v)%Qc.
Proof.
  revert v. induction r as [|a r IH]; intro v; cbn; [apply Qcle_refl|].
  eapply Qcle_trans; [apply IH | apply py_min_le_l].
Qed.

Lemma fold_py_max_ge r v : (v <= fold_left py_max r v)%Qc.
Proof.
  revert v. induction r as [|a r IH]; intro v; cbn; [apply Qcle_refl|].
  eapply Qcle_trans; [apply py_max_ge_l | apply IH].
Qed.

Lemma arr_min_le_max a : (arr_min a <= arr_max a)%Qc.
Proof.
  destruct a as [|v r]; cbn; [apply Qcle_refl|].
  eapply Qcle_trans; [apply fold_py_min_le | apply fold_py_max_ge].
Qed.

Lemma absorb_bounds_ok st code o : bounds_ok st -> bounds_ok (absorb st code o).
Proof.
  unfold bounds_ok, absorb. intro H.
  destruct o as [[m [data|]]|]; cbn; [|exact H|exact H].
  destruct (global_t_min st) as [a|], (global_t_max st) as [b|]; try easy.
  - destruct H as [Hab _]. split; [|apply dict_set_nonempty].
    eapply Qcle_trans; [apply py_min_le_l|].
    eapply Qcle_trans; [exact Hab | apply py_max_ge_l].
  - split; [apply arr_min_le_max | apply dict_set_nonempty].
Qed.

Lemma extract_bounds_ok tyre s st : extract tyre s = Ok st -> bounds_ok st.
Proof.
  rewrite extract_absorb. apply foldM_invariant.
  - intros a n a' Ha. destruct (driver_outcome tyre s n); [|discriminate].
    intros [= <-]. now apply absorb_bounds_ok.
  - reflexivity.
Qed.

(** ** Interpolation *)

Lemma Qc_eq_bool_iff (a b : Qc) : Qc_eq_bool a b = true <-> a = b.
Proof.
  split; [apply Qc_eq_bool_correct|]. intros ->. unfold Qc_eq_bool.
  destruct (Qc_eq_dec b b); congruence.
Qed.

Lemma bracket_le (x : num) (xp : list num) : bracket x xp <= length xp.
Proof.
  induction xp as [|v r IH]; cbn; [lia|]. destruct (Qcleb v x); cbn; lia.
Qed.

Lemma bracket_below (x : num) (xp : list num) k :
  k < bracket x xp -> (nth k xp 0%Qc <= x)%Qc.
Proof.
  revert k. induction xp as [|v r IH]; intros k H; cbn in H; [lia|].
  destruct (Qcleb v x) eqn:E; [|lia].
  destruct k as [|k]; cbn; [now apply Qcleb_le | apply IH; lia].
Qed.

Lemma bracket_above (x : num) (xp : list num) :
  bracket x xp < length xp -> (x < nth (bracket x xp) xp 0%Qc)%Qc.
Proof.
  induction xp as [|v r IH]; cbn; [lia|].
  destruct (Qcleb v x) eqn:E; cbn.
  - intro H. apply IH. lia.
  - intros _. now apply Qcleb_gt.
Qed.

Lemma bracket_pos (x : num) (xp : list num) : xp <> [] -> (hd 0%Qc xp <= x)%Qc -> 1 <= bracket x xp.
Proof.
  destruct xp as [|v r]; [easy|]. cbn. intros _ H.
  apply Qcleb_le in H. rewrite H. lia.
Qed.

Lemma last_nth {A} (l : list A) d : last l d = nth (length l - 1) l d.
Proof.
  induction l as [|a [|b l] IH]; [reflexivity | reflexivity |].
  change (last (a :: b :: l) d) with (last (b :: l) d). rewrite IH.
  cbn [length]. replace (S (S (length l)) - 1) with (S (S (length l) - 1)) by lia.
  reflexivity.
Qed.

(** The three regimes of [interp1]. *)
Lemma interp1_left (xp fp : list num) (x : num) :
  (x < hd 0%Qc xp)%Qc -> interp1 xp fp x = hd 0%Qc fp.
Proof.
  intro H. unfold interp1. apply Qcltb_lt in H. now rewrite H.
Qed.

Lemma interp1_right (xp fp : list num) (x : num) :
  (hd 0%Qc xp <= x)%Qc -> (last xp 0%Qc < x)%Qc -> interp1 xp fp x = last fp 0%Qc.
Proof.
  intros H1 H2. unfold interp1. apply Qcltb_ge in H1. apply Qcltb_lt in H2.
  now rewrite H1, H2.
Qed.

Lemma interp1_inside (xp fp : list num) (x : num) :
  xp <> [] -> (hd 0%Qc xp <= x)%Qc -> (x <= last xp 0%Qc)%Qc ->
  let j := bracket x xp - 1 in
  j < length xp /\ (nth j xp 0%Qc <= x)%Qc /\
  (x = nth j xp 0%Qc /\ interp1 xp fp x = nth j fp 0%Qc \/
   S j < length xp /\ (nth j xp 0 < x)%Qc /\ (x < nth (S j) xp 0)%Qc /\
   interp1 xp fp x
   = chord (nth j xp 0%Qc, nth j fp 0%Qc) (nth (S j) xp 0%Qc, nth (S j) fp 0%Qc) x).
Proof.
  intros Hne Hlo Hhi j.
  pose proof (bracket_pos x xp Hne Hlo) as Hpos.
  pose proof (bracket_le x xp) as Hble.
  assert (Hj : j < length xp) by (unfold j; lia).
  assert (Hbelow : (nth j xp 0%Qc <= x)%Qc) by (apply bracket_below; unfold j; lia).
  split; [exact Hj|]. split; [exact Hbelow|].
  unfold interp1. fold j.
  apply Qcltb_ge in Hlo. rewrite Hlo.
  assert (Hhi' : Qcltb (last xp 0%Qc) x = false) by now apply Qcltb_ge.
  rewrite Hhi'.
  destruct (Nat.eqb_spec j (length xp - 1)) as [Hlast|Hnl].
  - left. split; [|reflexivity].
    apply Qcle_antisym; [|exact Hbelow]. rewrite last_nth, <- Hlast in Hhi. exact Hhi.
  - destruct (Qc_eq_bool (nth j xp 0%Qc) x) eqn:E.
    + left. apply Qc_eq_bool_iff in E. now split.
    + right. assert (HSj : S j = bracket x xp) by (unfold j; lia).
      split; [lia|]. split; [|split].
      * apply Qcle_lt_or_eq in Hbelow. destruct Hbelow as [H|H]; [exact H|].
        apply Qc_eq_bool_iff in H. congruence.
      * rewrite HSj. apply bracket_above. lia.
      * unfold chord. cbn [fst snd]. reflexivity.
Qed.

Lemma np_interp_ok (x xp fp r : list num) :
  np_interp x xp fp = Ok r ->
  xp <> [] /\ length xp = length fp /\ r = map (interp1 xp fp) x.
Proof.
  unfold np_interp. destruct xp as [|v xp']; [discriminate|].
  destruct (Nat.eqb_spec (length (v :: xp')) (length fp)); [|discriminate].
  intros [= <-]. repeat split; [discriminate | assumption].
Qed.

(** ** Indexing by [argsort] *)

Lemma index_by_ok (arr : list num) order a :
  index_by arr order = Ok a ->
  a = map (fun i => nth i arr 0%Qc) order /\ Forall (fun i => i < length arr) order.
Proof.
  revert a. induction order as [|i order IH]; intros a; cbn.
  - intros [= <-]. split; constructor.
  - destruct (nth_error arr i) as [v|] eqn:E; [|discriminate].
    destruct (index_by arr order) as [r|]; [|discriminate]. cbn.
    intros [= <-]. destruct (IH r eq_refl) as [-> HF]. split.
    + f_equal. symmetry. now apply nth_error_nth.
    + constructor; [|exact HF]. apply nth_error_Some. congruence.
Qed.

Lemma index_by_length (arr : list num) order a :
  index_by arr order = Ok a -> length a = length order.
Proof. intro H. apply index_by_ok in H. destruct H as [-> _]. apply length_map. Qed.

Lemma in_combine_nth {A B} (l1 : list A) (l2 : list B) k d1 d2 :
  k < length l1 -> k < length l2 -> In (nth k l1 d1, nth k l2 d2) (combine l1 l2).
Proof.
  revert l2 k. induction l1 as [|a l1 IH]; intros [|b l2] k H1 H2; cbn in *; try lia.
  destruct k as [|k]; [now left | right; apply IH; lia].
Qed.

Lemma sorted_pairs_perm times : Permutation (sorted_pairs times) (enumerate times).
Proof. apply stable_sort_perm. Qed.

Lemma sorted_pairs_sorted times :
  StronglySorted (fun p q => (snd p <= snd q)%Qc) (sorted_pairs times).
Proof.
  unfold sorted_pairs. eapply StronglySorted_weaken.
  2: { apply stable_sort_sorted.
       - intros a b. apply Qcltb_asym.
       - intros a b c. unfold not_after. intros H1 H2.
         eapply Qcltb_false_trans; eassumption. }
  intros p q. unfold not_after. now rewrite Qcltb_ge.
Qed.

Lemma sorted_pairs_nth times p :
  In p (sorted_pairs times) -> nth_error times (fst p) = Some (snd p).
Proof.
  intro H. apply (Permutation_in _ (sorted_pairs_perm times)) in H.
  destruct p as [k v]. now apply in_enumerate.
Qed.

Lemma sorted_times (times ts : list num) :
  index_by times (argsort times) = Ok ts -> ts = map snd (sorted_pairs times).
Proof.
  intro H. apply index_by_ok in H. destruct H as [-> _].
  unfold argsort. fold (sorted_pairs times). rewrite map_map.
  apply map_ext_in. intros p Hp. apply sorted_pairs_nth in Hp.
  now apply nth_error_nth.
Qed.

Lemma sorted_times_perm (times ts : list num) :
  index_by times (argsort times) = Ok ts -> Permutation ts times.
Proof.
  intro H. rewrite (sorted_times _ _ H).
  rewrite <- (map_snd_enumerate times) at 2.
  apply Permutation_map, sorted_pairs_perm.
Qed.

Lemma StronglySorted_map {A B} (f : A -> B) (R : B -> B -> Prop) l :
  StronglySorted (fun a b => R (f a) (f b)) l -> StronglySorted R (map f l).
Proof.
  induction 1 as [|a l Hl IH Ha]; cbn; constructor; [exact IH|].
  rewrite Forall_forall in *. intros b Hb. apply in_map_iff in Hb.
  destruct Hb as (b' & <- & Hb'). now apply Ha.
Qed.

Lemma sorted_times_sorted (times ts : list num) :
  index_by times (argsort times) = Ok ts -> StronglySorted Qcle ts.
Proof.
  intro H. rewrite (sorted_times _ _ H).
  apply StronglySorted_map, sorted_pairs_sorted.
Qed.

Lemma nth_map_lt {A B} (f : A -> B) l j d d' :
  j < length l -> nth j (map f l) d = f (nth j l d').
Proof.
  revert j. induction l as [|a l IH]; intros [|j] H; cbn in *; try lia; [reflexivity|].
  apply IH. lia.
Qed.

(** Position [j] of the sorted arrays is one of the driver's samples. *)
Lemma sorted_sample (times arr ts a : list num) j :
  index_by times (argsort times) = Ok ts -> index_by arr (argsort times) = Ok a ->
  j < length ts -> In (nth j ts 0%Qc, nth j a 0%Qc) (combine times arr).
Proof.
  intros Ht Ha Hj.
  pose proof (index_by_length _ _ _ Ht) as Hlen.
  apply index_by_ok in Ht, Ha. destruct Ht as [-> Ft], Ha as [-> Fa].
  rewrite Forall_forall in Ft, Fa.
  assert (Hk : In (nth j (argsort times) 0) (argsort times)) by (apply nth_In; lia).
  rewrite length_map in Hj.
  rewrite !(nth_map_lt _ _ _ _ 0) by lia.
  apply in_combine_nth; [now apply Ft | now apply Fa].
Qed.

Lemma StronglySorted_hd_min (l : list num) u :
  StronglySorted Qcle l -> In u l -> (hd 0%Qc l <= u)%Qc.
Proof.
  intros Hs Hin. destruct Hs as [|a l Hl Ha]; [easy|]. cbn.
  destruct Hin as [<-|Hin]; [apply Qcle_refl|].
  rewrite Forall_forall in Ha. now apply Ha.
Qed.

Lemma StronglySorted_last_max (l : list num) u :
  StronglySorted Qcle l -> In u l -> (u <= last l 0%Qc)%Qc.
Proof.
  intros Hs Hin. rewrite last_nth.
  apply In_nth_error in Hin. destruct Hin as [k Hk].
  assert (Hlt : k < length l) by (apply nth_error_Some; congruence).
  destruct (Nat.eq_dec k (length l - 1)) as [->|Hne].
  - rewrite (nth_error_nth _ _ _ Hk). apply Qcle_refl.
  - apply (StronglySorted_nth _ _ Hs k (length l - 1)); [lia | exact Hk |].
    apply nth_error_nth'. lia.
Qed.

(** ** One driver on the timeline *)

Lemma resample_driver_channels timeline gmin data r :
  resample_driver timeline gmin data = Ok r ->
  let times := map (fun v => (v - gmin)%Qc) (ch_t data) in
  ch_t r = timeline /\
  exists ts,
    index_by times (argsort times) = Ok ts /\
    forall c, exists a,
        index_by (channel_of c data) (argsort times) = Ok a /\
        np_interp timeline ts a = Ok (channel_of c r).
Proof.
  unfold resample_driver. cbv zeta.
  set (times := map (fun v => (v - gmin)%Qc) (ch_t data)).
  destruct (index_by times (argsort times)) as [ts|]; [|discriminate]. cbn [bind].
  repeat match goal with
  | |- context [index_by ?arr (argsort times)] =>
      destruct (index_by arr (argsort times)) eqn:?; [|discriminate]; cbn [bind]
  | |- context [np_interp timeline ts ?a] =>
      destruct (np_interp timeline ts a) eqn:?; [|discriminate]; cbn [bind]
  end.
  intros [= <-]. split; [reflexivity|]. exists ts. split; [reflexivity|].
  intros []; cbn [channel_of ch_x ch_y ch_dist ch_rel_dist ch_lap ch_tyre ch_speed
                  ch_gear ch_drs]; eauto.
Qed.

Lemma argsort_in_range (times : list num) :
  Forall (fun i => i < length times) (argsort times).
Proof.
  unfold argsort. fold (sorted_pairs times). rewrite Forall_forall.
  intros i Hi. apply in_map_iff in Hi. destruct Hi as (p & <- & Hp).
  apply sorted_pairs_nth in Hp. apply nth_error_Some. congruence.
Qed.

Lemma length_argsort (times : list num) : length (argsort times) = length times.
Proof.
  unfold argsort. fold (sorted_pairs times). rewrite length_map.
  rewrite (Permutation_length (sorted_pairs_perm times)). apply length_enumerate.
Qed.

Lemma index_by_total (arr : list num) order :
  Forall (fun i => i < length arr) order -> exists a, index_by arr order = Ok a.
Proof.
  induction 1 as [|i order Hi _ [a IH]]; cbn; [eauto|].
  destruct (nth_error arr i) eqn:E.
  - rewrite IH. cbn. eauto.
  - apply nth_error_None in E. lia.
Qed.

(** A well-formed trace always resamples. *)
Lemma resample_driver_ok timeline gmin data :
  well_formed data -> exists r, resample_driver timeline gmin data = Ok r.
Proof.
  intros [Hne Hlen]. unfold resample_driver.
  set (times := map (fun v => (v - gmin)%Qc) (ch_t data)).
  assert (Hlt : length times = length (ch_t data)) by apply length_map.
  assert (Hidx : forall arr, length arr = length (ch_t data) ->
                             exists a, index_by arr (argsort times) = Ok a /\
                                       length a = length times).
  { intros arr Harr. destruct (index_by_total arr (argsort times)) as [a Ha].
    - rewrite Harr, <- Hlt. apply argsort_in_range.
    - exists a. split; [exact Ha|].
      now rewrite (index_by_length _ _ _ Ha), length_argsort. }
  destruct (Hidx times Hlt) as (ts & -> & Hts). cbn [bind].
  assert (Hinterp : forall a, length a = length times ->
                              exists v, np_interp timeline ts a = Ok v).
  { intros a Ha. unfold np_interp. destruct ts as [|t0 ts'].
    - exfalso. apply Hne. destruct (ch_t data); [reflexivity|]. cbn in *. lia.
    - rewrite Hts, <- Ha, Nat.eqb_refl. eauto. }
  destruct (Hidx (ch_x data) (Hlen CX)) as (? & -> & Ha); cbn [bind];
    destruct (Hinterp _ Ha) as [? ->]; cbn [bind]; clear Ha.
  destruct (Hidx (ch_y data) (Hlen CY)) as (? & -> & Ha); cbn [bind];
    destruct (Hinterp _ Ha) as [? ->]; cbn [bind]; clear Ha.
  destruct (Hidx (ch_dist data) (Hlen CDist)) as (? & -> & Ha); cbn [bind];
    destruct (Hinterp _ Ha) as [? ->]; cbn [bind]; clear Ha.
  destruct (Hidx (ch_rel_dist data) (Hlen CRelDist)) as (? & -> & Ha); cbn [bind];
    destruct (Hinterp _ Ha) as [? ->]; cbn [bind]; clear Ha.
  destruct (Hidx (ch_lap data) (Hlen CLap)) as (? & -> & Ha); cbn [bind];
    destruct (Hinterp _ Ha) as [? ->]; cbn [bind]; clear Ha.
  destruct (Hidx (ch_tyre data) (Hlen CTyre)) as (? & -> & Ha); cbn [bind];
    destruct (Hinterp _ Ha) as [? ->]; cbn [bind]; clear Ha.
  destruct (Hidx (ch_speed data) (Hlen CSpeed)) as (? & -> & Ha); cbn [bind];
    destruct (Hinterp _ Ha) as [? ->]; cbn [bind]; clear Ha.
  destruct (Hidx (ch_gear data) (Hlen CGear)) as (? & -> & Ha); cbn [bind];
    destruct (Hinterp _ Ha) as [? ->]; cbn [bind]; clear Ha.
  destruct (Hidx (ch_drs data) (Hlen CDrs)) as (? & -> & Ha); cbn [bind];
    destruct (Hinterp _ Ha) as [? ->]; cbn [bind]; clear Ha.
  cbn. eauto.
Qed.

(** C8.  A driver's resampled channel at an instant [x] of the timeline.
    Before all of the driver's (shifted) sample times it is the value of an
    earliest sample, after all of them the value of a latest sample; in
    between it lies on the chord through two samples that are neighbours
    in time and enclose [x], or is the value of a sample taken at [x]. *)
Theorem resampling_clamps_and_interpolates
        (timeline : list num) (global_t_min : num) (data r : trace)
        (c : channel) (i : nat) (x : num) :
  resample_driver timeline global_t_min data = Ok r ->
  nth_error timeline i = Some x ->
  let times := map (fun v => (v - global_t_min)%Qc) (ch_t data) in
  let trace_samples := samples global_t_min c data in
  exists v,
    nth_error (channel_of c r) i = Some v /\
    ((forall u, In u times -> (x < u)%Qc) ->
     exists tk, In (tk, v) trace_samples /\ forall u, In u times -> (tk <= u)%Qc) /\
    ((forall u, In u times -> (u < x)%Qc) ->
     exists tk, In (tk, v) trace_samples /\ forall u, In u times -> (u <= tk)%Qc) /\
    ((exists u, In u times /\ (u <= x)%Qc) -> (exists u, In u times /\ (x <= u)%Qc) ->
     exists p q,
       In p trace_samples /\ In q trace_samples /\
       (fst p <= x)%Qc /\ (x <= fst q)%Qc /\
       (forall u, In u times -> (u <= fst p)%Qc \/ (fst q <= u)%Qc) /\
       (x = fst p /\ v = snd p \/
        (fst p < x)%Qc /\ (x < fst q)%Qc /\ v = chord p q x)).
Proof.
  intros Hr Hx times trace_samples.
  destruct (resample_driver_channels _ _ _ _ Hr) as (_ & ts & Hts & Hch).
  fold times in Hts, Hch. destruct (Hch c) as (a & Ha & Hi).
  apply np_interp_ok in Hi. destruct Hi as (Hne & Hlen & Hvals).
  pose proof (sorted_times_perm _ _ Hts) as Hperm.
  pose proof (sorted_times_sorted _ _ Hts) as Hsorted.
  assert (Hsample : forall j, j < length ts ->
                              In (nth j ts 0%Qc, nth j a 0%Qc) trace_samples).
  { intros j Hj. apply (sorted_sample times _ ts a j Hts Ha Hj). }
  assert (Hpos : 0 < length ts) by (destruct ts; [easy | cbn; lia]).
  assert (Hmin : forall u, In u times -> (hd 0%Qc ts <= u)%Qc).
  { intros u Hu. apply StronglySorted_hd_min; [exact Hsorted|].
    apply (Permutation_in _ (Permutation_sym Hperm) Hu). }
  assert (Hmax : forall u, In u times -> (u <= last ts 0%Qc)%Qc).
  { intros u Hu. apply StronglySorted_last_max; [exact Hsorted|].
    apply (Permutation_in _ (Permutation_sym Hperm) Hu). }
  assert (Hhd_in : In (hd 0%Qc ts) times).
  { apply (Permutation_in _ Hperm). destruct ts; [easy | now left]. }
  assert (Hlast_in : In (last ts 0%Qc) times).
  { apply (Permutation_in _ Hperm). rewrite last_nth. apply nth_In. lia. }
  exists (interp1 ts a x). split.
  { rewrite Hvals. rewrite nth_error_map, Hx. reflexivity. }
  split; [|split].
  - intro Hbefore. rewrite interp1_left by (now apply Hbefore).
    exists (hd 0%Qc ts). split; [|exact Hmin].
    specialize (Hsample 0 Hpos).
    replace (hd 0%Qc ts) with (nth 0 ts 0%Qc) by (now destruct ts).
    replace (hd 0%Qc a) with (nth 0 a 0%Qc) by (now destruct a).
    exact Hsample.
  - intro Hafter.
    rewrite interp1_right; [| apply Qclt_le_weak; now apply Hafter | now apply Hafter].
    exists (last ts 0%Qc). split; [|exact Hmax].
    assert (Hl : length ts - 1 < length ts) by lia.
    specialize (Hsample (length ts - 1) Hl).
    rewrite !last_nth, <- Hlen. exact Hsample.
  - intros (u & Hu & Hux) (u' & Hu' & Hxu').
    assert (Hlo : (hd 0%Qc ts <= x)%Qc) by (apply Qcle_trans with u; [now apply Hmin | exact Hux]).
    assert (Hhi : (x <= last ts 0%Qc)%Qc)
      by (apply Qcle_trans with u'; [exact Hxu' | now apply Hmax]).
    destruct (interp1_inside ts a x Hne Hlo Hhi) as (Hj & Hbelow & Hcase).
    set (j := bracket x ts - 1) in *.
    destruct Hcase as [[Hxj Hv] | (HSj & Hjx & HxS & Hv)].
    + exists (nth j ts 0%Qc, nth j a 0%Qc), (nth j ts 0%Qc, nth j a 0%Qc).
      cbn [fst snd]. repeat split; try (now apply Hsample).
      * exact Hbelow.
      * rewrite <- Hxj. apply Qcle_refl.
      * intros w Hw. destruct (Qclt_le_dec (nth j ts 0%Qc) w) as [H|H];
          [right; now apply Qclt_le_weak | now left].
      * left. now split.
    + exists (nth j ts 0%Qc, nth j a 0%Qc), (nth (S j) ts 0%Qc, nth (S j) a 0%Qc).
      cbn [fst snd]. repeat split; try (now apply Hsample).
      * exact Hbelow.
      * now apply Qclt_le_weak.
      * intros w Hw. apply (Permutation_in _ (Permutation_sym Hperm)) in Hw.
        apply In_nth_error in Hw. destruct Hw as [m Hm].
        assert (Hmlt : m < length ts) by (apply nth_error_Some; congruence).
        destruct (Nat.le_gt_cases m j) as [Hle|Hgt].
        -- left. destruct (Nat.eq_dec m j) as [->|Hne'].
           ++ rewrite (nth_error_nth _ _ _ Hm). apply Qcle_refl.
           ++ apply (StronglySorted_nth _ _ Hsorted m j); [lia | exact Hm |].
              apply nth_error_nth'. lia.
        -- right. destruct (Nat.eq_dec m (S j)) as [->|Hne'].
           ++ rewrite (nth_error_nth _ _ _ Hm). apply Qcle_refl.
           ++ apply (StronglySorted_nth _ _ Hsorted (S j) m); [lia | | exact Hm].
              apply nth_error_nth'. lia.
      * right. repeat split; assumption.
Qed.

(** ** Which drivers reach the frames *)

Lemma foldM_invariant_in {A B} (P : A -> Prop) (f : A -> B -> result A) l a a' :
  (forall a b a', In b l -> P a -> f a b = Ok a' -> P a') ->
  P a -> foldM f l a = Ok a' -> P a'.
Proof.
  revert a. induction l as [|b l IH]; intros a Hstep Ha; cbn.
  - now intros [= <-].
  - destruct (f a b) as [a1|] eqn:E; [|discriminate]. cbn.
    apply IH.
    + intros a2 b2 a3 Hin. apply Hstep. now right.
    + eapply Hstep; [now left | exact Ha | exact E].
Qed.

Lemma resample_file timeline gmin dd :
  resample timeline gmin dd = file_into (resampled_entry timeline gmin) dd [].
Proof.
  unfold resample, file_into. apply fold_left_ext_eq.
  intros d [code data]. unfold resampled_entry. cbn.
  now destruct (resample_driver timeline gmin data).
Qed.

Lemma keys_collect_incl {V W} (g : string * V -> option (string * W)) l k :
  (forall cd kv, g cd = Some kv -> fst kv = fst cd) ->
  In k (keys (collect g l)) -> In k (keys l).
Proof.
  intros Hg. induction l as [|cd l IH]; [easy|].
  rewrite collect_cons. destruct (g cd) as [kv|] eqn:E; cbn.
  - intros [<-|H]; [left; symmetry; now apply Hg | right; now apply IH].
  - intro H. right. now apply IH.
Qed.

Lemma keys_resample_incl timeline gmin dd k :
  In k (keys (resample timeline gmin dd)) -> In k (keys dd).
Proof.
  rewrite resample_file, in_file_into_keys. intros [[]|H].
  eapply keys_collect_incl; [|exact H].
  intros cd kv. unfold resampled_entry.
  destruct (resample_driver timeline gmin (snd cd)); [|discriminate].
  now intros [= <-].
Qed.

Lemma keys_frame_drivers_incl rs i k :
  In k (keys (frame_drivers_at rs i)) -> In k (keys rs).
Proof.
  rewrite frame_drivers_at_file, in_file_into_keys. intros [[]|H].
  eapply keys_collect_incl; [|exact H].
  intros cd kv. unfold entry_at. destruct (sample_at (snd cd) i); [|discriminate].
  now intros [= <-].
Qed.

Lemma keys_frame_incl rs timeline f k :
  In f (build_frames rs timeline) -> In k (keys (frame_data f)) -> In k (keys rs).
Proof.
  intros Hf Hk. apply in_build_frames in Hf. destruct Hf as (i & tick & _ & Hb).
  destruct (build_frame_some _ _ _ _ Hb) as (Hfd & _).
  rewrite Hfd, keys_ranked in Hk. apply (keys_frame_drivers_incl rs i).
  unfold keys in *. eapply Permutation_in; [|exact Hk].
  apply Permutation_map, sort_snapshot_perm.
Qed.

Section Unusable.
Variable get_tyre_compound_int : string -> Z.
Variable s : session.

Lemma process_laps_skipped laps st :
  Forall (fun l => usable_telemetry l = None) laps ->
  foldM (process_lap get_tyre_compound_int) laps st = Ok st.
Proof.
  induction 1 as [|l laps Hl _ IH]; cbn; [reflexivity|].
  now rewrite (process_lap_skip _ _ _ Hl).
Qed.

Lemma driver_outcome_unusable n :
  no_usable_lap s n ->
  driver_outcome get_tyre_compound_int s n = Ok None \/
  driver_outcome get_tyre_compound_int s n = Ok (Some (lap_count s n, None)).
Proof.
  unfold no_usable_lap, driver_outcome, lap_count. intro H.
  destruct (pick_drivers s n) as [[|l0 laps]|]; auto.
  right. unfold process_laps. now rewrite (process_laps_skipped _ _ (H _ eq_refl)).
Qed.

Lemma driver_outcome_none_count n :
  driver_outcome get_tyre_compound_int s n = Ok None -> lap_count s n = 0%Z.
Proof.
  unfold driver_outcome, lap_count.
  destruct (pick_drivers s n) as [[|l0 laps]|]; try reflexivity.
  destruct (process_laps _ (l0 :: laps)); discriminate.
Qed.

(** Every key of [driver_data] is the code of a listed driver that has a
    trace. *)
Lemma driver_data_keys st k :
  extract get_tyre_compound_int s = Ok st -> In k (keys (driver_data st)) ->
  exists m M data,
    In m (drivers s) /\ driver_code s m = k /\
    driver_outcome get_tyre_compound_int s m = Ok (Some (M, Some data)).
Proof.
  rewrite extract_absorb. intros He. revert k.
  apply (foldM_invariant_in
           (fun st => forall k, In k (keys (driver_data st)) ->
              exists m M data, In m (drivers s) /\ driver_code s m = k /\
                 driver_outcome get_tyre_compound_int s m = Ok (Some (M, Some data)))
           _ _ _ _ ) with (3 := He).
  - intros a m a' Hm Ha. destruct (driver_outcome _ s m) as [o|] eqn:Eo; [|discriminate].
    intros [= <-] k. unfold absorb. destruct o as [[M [data|]]|]; cbn; try apply Ha.
    intro Hk. apply in_keys_dict_set in Hk. destruct Hk as [->|Hk]; [|now apply Ha].
    exists m, M, data. auto.
  - intros k [].
Qed.
End Unusable.

(** ** Leaving out a driver without usable laps *)

Section Removal.
Variable get_tyre_compound_int : string -> Z.
Variable s : session.
Variable n : string.
Hypothesis n_unusable : no_usable_lap s n.

Let step := driver_step get_tyre_compound_int s.
Let related := same_but_laps (lap_count s n).

Lemma absorb_related seen st st' code o :
  related seen st st' -> related seen (absorb st code o) (absorb st' code o).
Proof.
  unfold related, same_but_laps, same_traces, absorb. intros ((Hd & Hmin & Hmax) & Hnn & Hl).
  destruct o as [[M [data|]]|]; cbn; rewrite ?Hd, ?Hmin, ?Hmax;
    (repeat split; try reflexivity; try assumption; try lia);
    rewrite Hl; destruct seen; lia.
Qed.

Lemma step_unusable seen st st' :
  related seen st st' -> exists st1, step st n = Ok st1 /\ related true st1 st'.
Proof.
  unfold related, same_but_laps, same_traces, step, driver_step.
  intros ((Hd & Hmin & Hmax) & Hnn & Hl).
  destruct (driver_outcome_unusable get_tyre_compound_int s n n_unusable) as [E|E].
  - rewrite E. cbn. eexists. split; [reflexivity|].
    rewrite (driver_outcome_none_count _ _ _ E) in *.
    repeat split; try assumption. rewrite Hl. destruct seen; lia.
  - rewrite E. cbn. eexists. split; [reflexivity|]. cbn.
    repeat split; try assumption. rewrite Hl. destruct seen; lia.
Qed.

Lemma foldM_remove l : forall seen st st',
  related seen st st' ->
  match foldM step l st, foldM step (remove string_dec n l) st' with
  | Ok a, Ok a' => related (seen || existsb (String.eqb n) l) a a'
  | Raise e, Raise e' => e = e'
  | _, _ => False
  end.
Proof.
  induction l as [|m l IH]; intros seen st st' HR.
  - cbn. now rewrite orb_false_r.
  - cbn [foldM remove existsb]. destruct (string_dec n m) as [<-|Hne].
    + destruct (step_unusable _ _ _ HR) as (st1 & -> & HR1). cbn [bind].
      rewrite String.eqb_refl, orb_true_r. specialize (IH true st1 st' HR1).
      now rewrite orb_true_l in IH.
    + cbn [foldM].
      assert (Hs : forall a, step a m
                             = (o <- driver_outcome get_tyre_compound_int s m ;;
                                Ok (absorb a (driver_code s m) o))) by reflexivity.
      rewrite !Hs.
      destruct (driver_outcome get_tyre_compound_int s m) as [o|e]; cbn [bind].
      * destruct (String.eqb_spec n m) as [E|_]; [contradiction|]. cbn [orb].
        apply IH. now apply absorb_related.
      * reflexivity.
Qed.

Lemma extract_remove :
  In n (drivers s) ->
  match extract get_tyre_compound_int s,
        extract get_tyre_compound_int (with_drivers s (remove string_dec n (drivers s))) with
  | Ok st, Ok st' =>
      same_traces st st' /\
      max_lap_number st = Z.max (max_lap_number st') (lap_count s n)
  | Raise e, Raise e' => e = e'
  | _, _ => False
  end.
Proof.
  intro Hin. rewrite !extract_absorb.
  change (drivers (with_drivers s (remove string_dec n (drivers s))))
    with (remove string_dec n (drivers s)).
  assert (H0 : related false init_state init_state).
  { unfold related, same_but_laps, same_traces. cbn. repeat split; lia. }
  pose proof (foldM_remove (drivers s) false init_state init_state H0) as H.
  set (s' := with_drivers s (remove string_dec n (drivers s))).
  change (fun st m => o <- driver_outcome get_tyre_compound_int s' m ;;
                      Ok (absorb st (driver_code s' m) o))
    with step.
  change (fun st m => o <- driver_outcome get_tyre_compound_int s m ;;
                      Ok (absorb st (driver_code s m) o))
    with step.
  assert (Hseen : existsb (String.eqb n) (drivers s) = true).
  { apply existsb_exists. exists n. split; [exact Hin | apply String.eqb_refl]. }
  rewrite Hseen in H. cbn [orb] in H.
  destruct (foldM step (drivers s) init_state),
    (foldM step (remove string_dec n (drivers s)) init_state); try exact H.
  unfold related, same_but_laps in H. destruct H as (Hs & _ & Hl). now split.
Qed.
End Removal.

(** C7, as the code has it.  A listed driver whose laps are all skipped
    gets no trace: frames and status intervals are those of the session
    without it, and no frame has an entry under its code (when no driver
    with usable laps shares the code).  The payload still carries the
    provider's colour table as it is, and its lap count is the maximum over
    the remaining drivers and this driver's own highest lap number. *)
Theorem unusable_driver_leaves_no_trace
        (get_tyre_compound_int : string -> Z) (s : session) (n : string) :
  In n (drivers s) -> no_usable_lap s n ->
  match compute_telemetry get_tyre_compound_int s,
        compute_telemetry get_tyre_compound_int
                          (with_drivers s (remove string_dec n (drivers s))) with
  | Ok p, Ok p' =>
      frames p = frames p' /\
      track_statuses p = track_statuses p' /\
      payload_driver_colors p = driver_colors s /\
      total_laps p = Z.max (total_laps p') (lap_count s n) /\
      ((forall m, In m (drivers s) -> driver_code s m = driver_code s n ->
                  no_usable_lap s m) ->
       forall f, In f (frames p) -> ~ In (driver_code s n) (keys (frame_data f)))
  | Raise e, Raise e' => e = e'
  | _, _ => False
  end.
Proof.
  intros Hin Hn.
  pose proof (extract_remove get_tyre_compound_int s n Hn Hin) as H.
  pose proof (driver_data_keys get_tyre_compound_int s) as Hkeys.
  unfold compute_telemetry.
  destruct (extract get_tyre_compound_int s) as [st|e],
    (extract get_tyre_compound_int (with_drivers s (remove string_dec n (drivers s))))
    as [st'|e']; try contradiction; [|exact H].
  destruct H as ((Hd & Hmin & Hmax) & Hl). cbn [bind].
  rewrite <- Hd, <- Hmin, <- Hmax.
  destruct (driver_data st) as [|e dd] eqn:Ed; [reflexivity|].
  destruct (global_t_min st) as [gmin|]; [|reflexivity].
  destruct (global_t_max st) as [gmax|]; [|reflexivity].
  cbn [frames track_statuses payload_driver_colors total_laps track_status with_drivers].
  split; [reflexivity|]. split; [reflexivity|]. split; [reflexivity|].
  split; [exact Hl|].
  intros Hcode f Hf Hk.
  apply (keys_frame_incl _ _ _ _ Hf) in Hk. apply keys_resample_incl in Hk.
  rewrite <- Ed in Hk.
  destruct (Hkeys st _ eq_refl Hk) as (m & M & data & Hm & Hc & Ho).
  destruct (driver_outcome_unusable get_tyre_compound_int s m (Hcode m Hm Hc)) as [E|E];
    rewrite E in Ho; discriminate.
Qed.

(** The session with the silent driver 2. *)
Lemma unusable_driver_leaves_no_trace_witness :
  match compute_telemetry (fun _ => 1%Z) session_with_silent_driver,
        compute_telemetry (fun _ => 1%Z)
          (with_drivers session_with_silent_driver
             (remove string_dec "2"%string (drivers session_with_silent_driver))) with
  | Ok p, Ok p' =>
      frames p = frames p' /\
      total_laps p = Z.max (total_laps p') (lap_count session_with_silent_driver "2")
  | _, _ => False
  end.
Proof.
  assert (Hin : In "2"%string (drivers session_with_silent_driver)) by (cbn; auto).
  assert (Hn : no_usable_lap session_with_silent_driver "2").
  { intros laps [= <-]. repeat constructor. }
  pose proof (unusable_driver_leaves_no_trace (fun _ => 1%Z)
                session_with_silent_driver "2" Hin Hn) as H.
  destruct (compute_telemetry (fun _ => 1%Z) session_with_silent_driver) eqn:E;
    [clear E|vm_compute in E; discriminate E].
  destruct (compute_telemetry _ _); [|exact H].
  destruct H as (H1 & _ & _ & H2 & _). now split.
Defined.

(** C7 as stated fails on this session: driver 2 has no usable lap, yet
    the payload counts its 57 laps, where driver 1 alone gives 2, and it
    keeps driver 2 in the colour table. *)
Lemma excluded_driver_counterexample :
  no_usable_lap session_with_silent_driver "2" /\
  payload_total_laps (compute_telemetry (fun _ => 1%Z) session_with_silent_driver)
  = Some 57%Z /\
  payload_total_laps
    (compute_telemetry (fun _ => 1%Z) (with_drivers session_with_silent_driver ["1"%string]))
  = Some 2%Z /\
  payload_colors (compute_telemetry (fun _ => 1%Z) session_with_silent_driver)
  = Some ["1"%string; "2"%string].
Proof.
  split; [intros laps [= <-]; repeat constructor|].
  repeat split; vm_compute; reflexivity.
Qed.

(** ** The loop over the drivers, driver by driver *)

Section Gather.
Variable get_tyre_compound_int : string -> Z.
Variable s : session.

Lemma foldM_gather l st :
  foldM (fun st n => o <- driver_outcome get_tyre_compound_int s n ;;
                     Ok (absorb st (driver_code s n) o)) l st
  = (cs <- gather get_tyre_compound_int s l ;; Ok (state_of cs st)).
Proof.
  revert st. induction l as [|m l IH]; intro st; cbn; [reflexivity|].
  destruct (driver_outcome get_tyre_compound_int s m) as [o|e]; cbn; [|reflexivity].
  rewrite IH. destruct (gather get_tyre_compound_int s l) as [rest|e]; cbn; [|reflexivity].
  destruct o as [c|]; reflexivity.
Qed.

Lemma extract_gather l :
  extract get_tyre_compound_int (with_drivers s l)
  = (cs <- gather get_tyre_compound_int s l ;; Ok (state_of cs init_state)).
Proof. rewrite extract_absorb. apply foldM_gather. Qed.

Lemma gather_raises l e :
  gather get_tyre_compound_int s l = Raise e -> e = AttributeError.
Proof.
  induction l as [|m l IH]; cbn; [discriminate|].
  destruct (driver_outcome get_tyre_compound_int s m) as [o|e0] eqn:Eo; cbn.
  - destruct (gather get_tyre_compound_int s l); cbn; [discriminate|].
    intros [= <-]. now apply IH.
  - intros [= <-]. eapply driver_outcome_raises, Eo.
Qed.

Lemma same_up_to_order_trans {A} (r1 r2 r3 : result (list A)) :
  same_up_to_order r1 r2 -> same_up_to_order r2 r3 -> same_up_to_order r1 r3.
Proof.
  destruct r1, r2, r3; cbn; try easy; [apply Permutation_trans | congruence].
Qed.

Lemma gather_perm l l' :
  Permutation l l' ->
  same_up_to_order (gather get_tyre_compound_int s l) (gather get_tyre_compound_int s l').
Proof.
  induction 1 as [|m l l' Hp IH|m1 m2 l|l1 l2 l3 H12 IH12 H23 IH23].
  - cbn. constructor.
  - cbn. destruct (driver_outcome get_tyre_compound_int s m) as [o|e]; cbn; [|reflexivity].
    destruct (gather _ s l), (gather _ s l'); cbn in *; try easy.
    destruct o; [now constructor | assumption].
  - cbn.
    destruct (driver_outcome _ s m1) as [o1|e1] eqn:E1,
             (driver_outcome _ s m2) as [o2|e2] eqn:E2; cbn.
    + destruct (gather _ s l) as [rest|e]; cbn; [|reflexivity].
      destruct o1, o2; try reflexivity. apply perm_swap.
    + reflexivity.
    + reflexivity.
    + apply driver_outcome_raises in E1, E2. congruence.
  - eapply same_up_to_order_trans; eassumption.
Qed.

Lemma keys_gather_incl l cs k :
  gather get_tyre_compound_int s l = Ok cs -> In k (keys cs) ->
  In k (map (driver_code s) l).
Proof.
  revert cs. induction l as [|m l IH]; intros cs; cbn.
  - intros [= <-] [].
  - destruct (driver_outcome _ s m) as [o|]; cbn; [|discriminate].
    destruct (gather _ s l) as [rest|]; cbn; [|discriminate].
    intros [= <-]. destruct o as [c|]; cbn.
    + intros [<-|H]; [now left | right; now apply (IH rest)].
    + intro H. right. now apply (IH rest).
Qed.

Lemma NoDup_keys_gather l cs :
  NoDup (map (driver_code s) l) -> gather get_tyre_compound_int s l = Ok cs ->
  NoDup (keys cs).
Proof.
  revert cs. induction l as [|m l IH]; intros cs Hnd; cbn.
  - intros [= <-]. constructor.
  - inversion Hnd as [|? ? Hnin Hnd']; subst.
    destruct (driver_outcome _ s m) as [o|]; cbn; [|discriminate].
    destruct (gather _ s l) as [rest|] eqn:E; cbn; [|discriminate].
    intros [= <-]. destruct o as [c|]; [|now apply IH].
    cbn. constructor; [|now apply IH].
    intro H. apply Hnin. eapply keys_gather_incl; eassumption.
Qed.
End Gather.

(** ** What the final state depends on *)

Lemma fold_left_perm {A B} (f : A -> B -> A) l l' :
  (forall a x y, f (f a x) y = f (f a y) x) ->
  Permutation l l' -> forall a, fold_left f l a = fold_left f l' a.
Proof.
  intro Hf. induction 1 as [|x l l' _ IH|x y l|l1 l2 l3 _ IH12 _ IH23]; intro a; cbn.
  - reflexivity.
  - apply IH.
  - now rewrite Hf.
  - now rewrite IH12.
Qed.

Ltac order_cases :=
  repeat match goal with
  | H : Qcltb _ _ = true |- _ => apply Qcltb_lt in H
  | H : Qcltb _ _ = false |- _ => apply Qcltb_ge in H
  end;
  try reflexivity;
  try (exfalso; qc2q; lra);
  try (apply Qc_is_canon; qc2q; lra).

Lemma py_min_swap g a b : py_min (py_min g a) b = py_min (py_min g b) a.
Proof.
  unfold py_min.
  destruct (Qcltb a g) eqn:E1, (Qcltb b g) eqn:E2; rewrite ?E1, ?E2;
    destruct (Qcltb b a) eqn:E3, (Qcltb a b) eqn:E4; rewrite ?E1, ?E2; order_cases.
Qed.

Lemma py_min_comm a b : py_min a b = py_min b a.
Proof.
  unfold py_min. destruct (Qcltb b a) eqn:E1, (Qcltb a b) eqn:E2; order_cases.
Qed.

Lemma py_max_swap g a b : py_max (py_max g a) b = py_max (py_max g b) a.
Proof.
  unfold py_max.
  destruct (Qcltb g a) eqn:E1, (Qcltb g b) eqn:E2; rewrite ?E1, ?E2;
    destruct (Qcltb a b) eqn:E3, (Qcltb b a) eqn:E4; rewrite ?E1, ?E2; order_cases.
Qed.

Lemma py_max_comm a b : py_max a b = py_max b a.
Proof.
  unfold py_max. destruct (Qcltb a b) eqn:E1, (Qcltb b a) eqn:E2; order_cases.
Qed.

Lemma opt_min_swap g a b : opt_min (opt_min g a) b = opt_min (opt_min g b) a.
Proof.
  destruct g as [g|]; unfold opt_min; f_equal; [apply py_min_swap | apply py_min_comm].
Qed.

Lemma opt_max_swap g a b : opt_max (opt_max g a) b = opt_max (opt_max g b) a.
Proof.
  destruct g as [g|]; unfold opt_max; f_equal; [apply py_max_swap | apply py_max_comm].
Qed.

Lemma traces_cons c cs :
  traces (c :: cs)
  = match with_trace c with Some cd => cd :: traces cs | None => traces cs end.
Proof. apply collect_cons. Qed.

Lemma state_of_cons c cs st :
  state_of (c :: cs) st = state_of cs (absorb st (fst c) (Some (snd c))).
Proof. reflexivity. Qed.

Lemma state_of_parts cs : forall st,
  driver_data (state_of cs st) = file_into with_trace cs (driver_data st) /\
  global_t_min (state_of cs st)
  = fold_left opt_min (map t_min_of (traces cs)) (global_t_min st) /\
  global_t_max (state_of cs st)
  = fold_left opt_max (map t_max_of (traces cs)) (global_t_max st) /\
  max_lap_number (state_of cs st)
  = fold_left Z.max (map (fun c => fst (snd c)) cs) (max_lap_number st).
Proof.
  induction cs as [|[code [M [data|]]] cs IH]; intro st.
  - cbn. auto.
  - rewrite state_of_cons, traces_cons, file_into_cons.
    destruct (IH (absorb st (fst (code, (M, Some data))) (Some (snd (code, (M, Some data))))))
      as (H1 & H2 & H3 & H4).
    rewrite H1, H2, H3, H4. cbn. auto.
  - rewrite state_of_cons, traces_cons, file_into_cons.
    destruct (IH (absorb st (fst (code, (M, @None trace))) (Some (snd (code, (M, @None trace))))))
      as (H1 & H2 & H3 & H4).
    rewrite H1, H2, H3, H4. cbn. auto.
Qed.

Lemma collect_perm {B V} (g : B -> option (string * V)) l l' :
  Permutation l l' -> Permutation (collect g l) (collect g l').
Proof.
  induction 1 as [|x l l' _ IH|x y l|l1 l2 l3 _ IH12 _ IH23].
  - constructor.
  - rewrite !collect_cons. destruct (g x); [now constructor | exact IH].
  - rewrite !collect_cons. destruct (g x), (g y); try reflexivity. apply perm_swap.
  - now transitivity (collect g l2).
Qed.

Lemma NoDup_keys_collect {V W} (g : string * V -> option (string * W)) l :
  (forall cd kv, g cd = Some kv -> fst kv = fst cd) ->
  NoDup (keys l) -> NoDup (keys (collect g l)).
Proof.
  intros Hg. induction l as [|cd l IH]; intro Hnd; [constructor|].
  inversion Hnd as [|? ? Hnin Hnd']; subst.
  rewrite collect_cons. destruct (g cd) as [kv|] eqn:E; [|now apply IH].
  cbn. constructor; [|now apply IH].
  rewrite (Hg _ _ E). intro H. apply Hnin. eapply keys_collect_incl; eassumption.
Qed.

Lemma with_trace_key c kv : with_trace c = Some kv -> fst kv = fst c.
Proof.
  unfold with_trace. destruct (snd (snd c)); [|discriminate]. now intros [= <-].
Qed.

(** With distinct codes the dictionary [driver_data] is the list of the
    traces in the order of the loop. *)
Lemma driver_data_state_of cs :
  NoDup (keys cs) -> driver_data (state_of cs init_state) = traces cs.
Proof.
  intro Hnd. destruct (state_of_parts cs init_state) as (-> & _).
  cbn [driver_data init_state]. rewrite file_into_collect; [reflexivity|]. cbn.
  apply NoDup_keys_collect; [apply with_trace_key | exact Hnd].
Qed.

Lemma state_of_perm cs cs' :
  Permutation cs cs' ->
  global_t_min (state_of cs init_state) = global_t_min (state_of cs' init_state) /\
  global_t_max (state_of cs init_state) = global_t_max (state_of cs' init_state) /\
  max_lap_number (state_of cs init_state) = max_lap_number (state_of cs' init_state).
Proof.
  intro Hp.
  destruct (state_of_parts cs init_state) as (_ & -> & -> & ->).
  destruct (state_of_parts cs' init_state) as (_ & -> & -> & ->).
  pose proof (collect_perm with_trace _ _ Hp) as Ht. fold (traces cs) (traces cs') in Ht.
  repeat split.
  - apply fold_left_perm; [apply opt_min_swap | now apply Permutation_map].
  - apply fold_left_perm; [apply opt_max_swap | now apply Permutation_map].
  - apply fold_left_perm; [intros; lia | now apply Permutation_map].
Qed.

(** ** Frames do not depend on the order of the dictionary, ties apart *)

Lemma flat_map_ext_on {A B} (f g : A -> list B) l :
  (forall a, In a l -> f a = g a) -> flat_map f l = flat_map g l.
Proof.
  induction l as [|a l IH]; intro H; cbn; [reflexivity|].
  rewrite (H a (or_introl eq_refl)), IH; [reflexivity|].
  intros b Hb. apply H. now right.
Qed.

Lemma NoDup_map_injective_on {A B} (f : A -> B) l a b :
  NoDup (map f l) -> In a l -> In b l -> f a = f b -> a = b.
Proof.
  induction l as [|c l IH]; intros Hnd Ha Hb Hf; [easy|].
  cbn in Hnd. inversion Hnd as [|? ? Hnin Hnd']; subst.
  destruct Ha as [<-|Ha], Hb as [<-|Hb]; try reflexivity.
  - exfalso. apply Hnin. rewrite Hf. now apply in_map.
  - exfalso. apply Hnin. rewrite <- Hf. now apply in_map.
  - now apply IH.
Qed.

Lemma dist_ranked l :
  map (fun e => dist (snd e)) (ranked l) = map (fun e => s_dist (snd e)) l.
Proof.
  unfold ranked. rewrite map_map. cbn.
  rewrite <- (map_snd_enumerate l) at 2. now rewrite map_map.
Qed.

Lemma build_frame_alt rs i tick :
  build_frame rs i tick
  = match sort_snapshot (frame_drivers_at rs i) with
    | [] => None
    | leader :: rest =>
        Some {| t := tick; leader_lap := s_lap (snd leader);
                frame_data := rank (leader :: rest) |}
    end.
Proof.
  unfold build_frame. destruct (frame_drivers_at rs i) as [|e fd]; reflexivity.
Qed.

Lemma sort_snapshot_perm_eq fd fd' :
  Permutation fd fd' ->
  NoDup (map (fun e => s_dist (snd e)) fd) ->
  sort_snapshot fd = sort_snapshot fd'.
Proof.
  intros Hp Hnd. unfold sort_snapshot. apply stable_sort_perm_unique.
  - intros a b. apply Qcltb_asym.
  - intros a b c. unfold not_after. intros H1 H2. eapply Qcltb_false_trans; eassumption.
  - intros a b Ha Hb Hab.
    destruct (Qc_dec (s_dist (snd a)) (s_dist (snd b))) as [[H|H]|H].
    + right. now apply Qcltb_lt.
    + left. now apply Qcltb_lt.
    + exfalso. apply Hab.
      apply (NoDup_map_injective_on (fun e => s_dist (snd e)) fd); assumption.
  - eapply NoDup_map_inv, Hnd.
  - exact Hp.
Qed.

Lemma build_frame_perm rs rs' i tick :
  Permutation rs rs' -> NoDup (keys rs) ->
  (forall f, build_frame rs i tick = Some f ->
             NoDup (map (fun e => dist (snd e)) (frame_data f))) ->
  build_frame rs' i tick = build_frame rs i tick.
Proof.
  intros Hp Hnd Hties.
  assert (Hnd' : NoDup (keys rs')).
  { unfold keys. eapply Permutation_NoDup; [apply Permutation_map, Hp | exact Hnd]. }
  assert (Hkey : forall cd kv, entry_at i cd = Some kv -> fst kv = fst cd).
  { intros cd kv. unfold entry_at. destruct (sample_at (snd cd) i); [|discriminate].
    now intros [= <-]. }
  assert (Hfd : forall l, NoDup (keys l) ->
                          frame_drivers_at l i = collect (entry_at i) l).
  { intros l Hl. rewrite frame_drivers_at_file, file_into_collect; [reflexivity|].
    cbn. now apply NoDup_keys_collect. }
  assert (Hperm : Permutation (frame_drivers_at rs i) (frame_drivers_at rs' i)).
  { rewrite !Hfd by assumption. now apply collect_perm. }
  assert (Hsort : sort_snapshot (frame_drivers_at rs i)
                  = sort_snapshot (frame_drivers_at rs' i)).
  { destruct (build_frame rs i tick) as [f|] eqn:Ef.
    - apply sort_snapshot_perm_eq; [exact Hperm|].
      specialize (Hties f eq_refl).
      destruct (build_frame_some _ _ _ _ Ef) as (Hdata & _).
      rewrite Hdata, dist_ranked in Hties.
      eapply Permutation_NoDup; [|exact Hties].
      apply Permutation_map, sort_snapshot_perm.
    - rewrite build_frame_alt in Ef.
      destruct (sort_snapshot (frame_drivers_at rs i)) as [|e l] eqn:Es; [|discriminate].
      assert (Hnil : frame_drivers_at rs i = []).
      { apply Permutation_nil. rewrite <- Es. apply sort_snapshot_perm. }
      rewrite Hnil in Hperm. apply Permutation_nil in Hperm. now rewrite Hperm. }
  now rewrite !build_frame_alt, Hsort.
Qed.

Lemma build_frames_perm timeline gmin dd dd' :
  Permutation dd dd' -> NoDup (keys dd) ->
  (forall f, In f (build_frames (resample timeline gmin dd) timeline) ->
             NoDup (map (fun e => dist (snd e)) (frame_data f))) ->
  build_frames (resample timeline gmin dd') timeline
  = build_frames (resample timeline gmin dd) timeline.
Proof.
  intros Hp Hnd Hties.
  assert (Hnd' : NoDup (keys dd')).
  { unfold keys. eapply Permutation_NoDup; [apply Permutation_map, Hp | exact Hnd]. }
  assert (Hkey : forall cd kv, resampled_entry timeline gmin cd = Some kv -> fst kv = fst cd).
  { intros cd kv. unfold resampled_entry.
    destruct (resample_driver timeline gmin (snd cd)); [|discriminate]. now intros [= <-]. }
  assert (Hrs : forall l, NoDup (keys l) ->
                          resample timeline gmin l = collect (resampled_entry timeline gmin) l).
  { intros l Hl. rewrite resample_file, file_into_collect; [reflexivity|].
    cbn. now apply NoDup_keys_collect. }
  assert (Hperm : Permutation (resample timeline gmin dd) (resample timeline gmin dd')).
  { rewrite !Hrs by assumption. now apply collect_perm. }
  assert (Hnd_rs : NoDup (keys (resample timeline gmin dd))).
  { rewrite Hrs by assumption. now apply NoDup_keys_collect. }
  unfold build_frames at 1 2. apply flat_map_ext_on. intros [i tick] Hin.
  rewrite (build_frame_perm _ _ i tick Hperm Hnd_rs); [reflexivity|].
  intros f Hf. apply Hties. apply in_build_frames. exists i, tick.
  split; [now apply in_enumerate | exact Hf].
Qed.

(** ** The order of the drivers *)

Lemma compute_finish tyre s :
  compute_telemetry tyre s
  = (cs <- gather tyre s (drivers s) ;; finish s (state_of cs init_state)).
Proof.
  unfold compute_telemetry. rewrite extract_absorb, foldM_gather.
  destruct (gather tyre s (drivers s)); reflexivity.
Qed.

Lemma gather_with_drivers tyre s l0 l :
  gather tyre (with_drivers s l0) l = gather tyre s l.
Proof.
  induction l as [|m l IH]; [reflexivity|].
  cbn [gather]. rewrite IH. reflexivity.
Qed.

Lemma finish_with_drivers s l st : finish (with_drivers s l) st = finish s st.
Proof. reflexivity. Qed.

Lemma finish_perm s cs cs' :
  Permutation cs cs' -> NoDup (keys cs) ->
  (forall p f, finish s (state_of cs init_state) = Ok p -> In f (frames p) ->
               NoDup (map (fun e => dist (snd e)) (frame_data f))) ->
  finish s (state_of cs' init_state) = finish s (state_of cs init_state).
Proof.
  intros Hp Hnd Hties.
  assert (Hnd' : NoDup (keys cs')).
  { unfold keys. eapply Permutation_NoDup; [apply Permutation_map, Hp | exact Hnd]. }
  destruct (state_of_perm _ _ Hp) as (Hmin & Hmax & Hlaps).
  pose proof (driver_data_state_of cs Hnd) as Hdd.
  pose proof (driver_data_state_of cs' Hnd') as Hdd'.
  pose proof (collect_perm with_trace _ _ Hp) as Ht. fold (traces cs) (traces cs') in Ht.
  assert (Hndt : NoDup (keys (traces cs))).
  { apply NoDup_keys_collect; [apply with_trace_key | exact Hnd]. }
  unfold finish in *. rewrite Hdd', <- Hmin, <- Hmax, <- Hlaps. rewrite Hdd in *.
  destruct (traces cs) as [|e dd] eqn:Etr.
  - apply Permutation_nil in Ht. now rewrite Ht.
  - destruct (traces cs') as [|e' dd'] eqn:Etr';
      [apply Permutation_sym, Permutation_nil in Ht; discriminate|].
    destruct (global_t_min (state_of cs init_state)) as [gmin|]; [|reflexivity].
    destruct (global_t_max (state_of cs init_state)) as [gmax|]; [|reflexivity].
    cbv zeta. f_equal. f_equal.
    apply build_frames_perm; [exact Ht | exact Hndt |].
    intros f Hf. eapply Hties; [reflexivity | exact Hf].
Qed.

(** ** What is recovered *)

Section Recovery.
Variable get_tyre_compound_int : string -> Z.
Variable s : session.
Hypothesis s_complete : complete_session s.

Lemma process_lap_ok st l :
  (forall lap_tel, usable_telemetry l = Some lap_tel -> complete lap_tel = true) ->
  exists st', process_lap get_tyre_compound_int st l = Ok st'.
Proof.
  intro H. destruct st as [parts total].
  destruct (usable_telemetry l) as [lap_tel|] eqn:Hu.
  - specialize (H lap_tel eq_refl). unfold complete in H.
    destruct (speed_column lap_tel) as [sp|] eqn:Hsp; [|discriminate].
    destruct (nGear lap_tel) as [g|] eqn:Hg; [|discriminate].
    destruct (DRS lap_tel) as [d|] eqn:Hd; [|discriminate].
    rewrite (process_lap_complete _ _ _ _ _ _ _ _ Hu Hsp Hg Hd). eauto.
  - rewrite (process_lap_skip _ _ _ Hu). eauto.
Qed.

Lemma driver_outcome_ok n :
  In n (drivers s) -> exists o, driver_outcome get_tyre_compound_int s n = Ok o.
Proof.
  intro Hn. unfold driver_outcome.
  destruct (pick_drivers s n) as [[|l0 laps]|] eqn:Hp; eauto.
  destruct (foldM_ok (process_lap get_tyre_compound_int) (l0 :: laps) (empty_parts, 0%Qc))
    as [st' Hst'].
  - intros l Hl st. apply process_lap_ok. intros lap_tel Hu.
    eapply s_complete; eassumption.
  - unfold process_laps. rewrite Hst'. cbn. eauto.
Qed.

(** With complete tables the computation raises only for want of any
    trace: failing or empty laps, drivers without laps, traces that do not
    concatenate or resample and a missing status log are all absorbed. *)
Lemma complete_session_recovers :
  exists st,
    extract get_tyre_compound_int s = Ok st /\
    (driver_data st = [] ->
     compute_telemetry get_tyre_compound_int s = Raise ValueError) /\
    (driver_data st <> [] ->
     exists p, compute_telemetry get_tyre_compound_int s = Ok p).
Proof.
  destruct (foldM_ok (fun st n => o <- driver_outcome get_tyre_compound_int s n ;;
                                  Ok (absorb st (driver_code s n) o))
                     (drivers s) init_state) as [st Hst].
  - intros n Hn st. destruct (driver_outcome_ok n Hn) as [o ->]. cbn. eauto.
  - rewrite <- extract_absorb in Hst. exists st. split; [exact Hst|].
    pose proof (extract_bounds_ok _ _ _ Hst) as Hb.
    unfold compute_telemetry. rewrite Hst. cbn [bind]. unfold bounds_ok in Hb.
    split; intro Hd.
    + now rewrite Hd.
    + destruct (driver_data st); [contradiction|].
      destruct (global_t_min st), (global_t_max st); try contradiction; eauto.
Qed.
End Recovery.

(** ** Witnesses on the two-driver session *)

Lemma two_driver_payload_computed :
  compute_telemetry (fun _ => 1%Z) two_driver_session = Ok two_driver_payload.
Proof. vm_compute. reflexivity. Qed.

(** The distance channel of the two-sample trace at the instant 15, half
    way between its samples. *)
Lemma resampling_clamps_and_interpolates_witness :
  exists v,
    nth_error (channel_of CDist two_sample_resampled) 1 = Some v /\
    ((forall u, In u (map (fun v => (v - of_Z 0)%Qc) (ch_t two_sample_trace)) ->
                (of_Z 15 < u)%Qc) ->
     exists tk, In (tk, v) (samples (of_Z 0) CDist two_sample_trace) /\
                forall u, In u (map (fun v => (v - of_Z 0)%Qc) (ch_t two_sample_trace)) ->
                          (tk <= u)%Qc) /\
    ((forall u, In u (map (fun v => (v - of_Z 0)%Qc) (ch_t two_sample_trace)) ->
                (u < of_Z 15)%Qc) ->
     exists tk, In (tk, v) (samples (of_Z 0) CDist two_sample_trace) /\
                forall u, In u (map (fun v => (v - of_Z 0)%Qc) (ch_t two_sample_trace)) ->
                          (u <= tk)%Qc) /\
    ((exists u, In u (map (fun v => (v - of_Z 0)%Qc) (ch_t two_sample_trace)) /\
                (u <= of_Z 15)%Qc) ->
     (exists u, In u (map (fun v => (v - of_Z 0)%Qc) (ch_t two_sample_trace)) /\
                (of_Z 15 <= u)%Qc) ->
     exists p q,
       In p (samples (of_Z 0) CDist two_sample_trace) /\
       In q (samples (of_Z 0) CDist two_sample_trace) /\
       (fst p <= of_Z 15)%Qc /\ (of_Z 15 <= fst q)%Qc /\
       (forall u, In u (map (fun v => (v - of_Z 0)%Qc) (ch_t two_sample_trace)) ->
                  (u <= fst p)%Qc \/ (fst q <= u)%Qc) /\
       (of_Z 15 = fst p /\ v = snd p \/
        (fst p < of_Z 15)%Qc /\ (of_Z 15 < fst q)%Qc /\ v = chord p q (of_Z 15))).
Proof.
  apply (resampling_clamps_and_interpolates (ints [0; 15; 30]%Z) (of_Z 0)
           two_sample_trace two_sample_resampled CDist 1 (of_Z 15)).
  - vm_compute. reflexivity.
  - reflexivity.
Defined.

(** ** Retained traces are sorted and rectangular *)

Lemma in_dict_set {V} (k : string) (v : V) d kv :
  In kv (dict_set k v d) -> kv = (k, v) \/ In kv d.
Proof.
  induction d as [|[k' v'] d IH]; cbn.
  - intros [<-|[]]. now left.
  - destruct (String.eqb k' k); cbn.
    + intros [<-|H]; auto.
    + intros [<-|H]; auto. destruct (IH H); auto.
Qed.

Lemma process_lap_times tyre st l st' :
  process_lap tyre st l = Ok st' ->
  Forall (fun a : list num => a <> []) (ch_t (fst st)) ->
  Forall (fun a : list num => a <> []) (ch_t (fst st')).
Proof.
  destruct st as [parts total]. intros H Hinv.
  destruct (usable_telemetry l) as [lap_tel|] eqn:Hu.
  - destruct (complete lap_tel) eqn:Hc.
    + unfold complete in Hc.
      destruct (speed_column lap_tel) as [sp|] eqn:Hsp; [|discriminate].
      destruct (nGear lap_tel) as [g|] eqn:Hg; [|discriminate].
      destruct (DRS lap_tel) as [d|] eqn:Hd; [|discriminate].
      rewrite (process_lap_complete _ _ _ _ _ _ _ _ Hu Hsp Hg Hd) in H.
      injection H as <-. cbn [fst ch_t]. apply Forall_app. split; [exact Hinv|].
      constructor; [|constructor].
      unfold usable_telemetry in Hu. destruct (get_telemetry l) as [lt|]; [|discriminate].
      destruct (empty lt) eqn:He; [discriminate|]. injection Hu as ->.
      unfold empty in He. destruct (SessionTime lap_tel); [discriminate | discriminate].
    + rewrite (process_lap_incomplete _ _ _ _ Hu Hc) in H. discriminate.
  - rewrite (process_lap_skip _ _ _ Hu) in H. injection H as <-. exact Hinv.
Qed.

Lemma process_laps_times tyre laps st :
  process_laps tyre laps = Ok st ->
  Forall (fun a : list num => a <> []) (ch_t (fst st)).
Proof.
  unfold process_laps.
  apply (foldM_invariant
           (fun st => Forall (fun a : list num => a <> []) (ch_t (fst st)))).
  - intros a b a' Ha Hs. eapply process_lap_times; eassumption.
  - constructor.
Qed.

Lemma concat_and_sort_ok parts data :
  concat_and_sort parts = Ok data ->
  StronglySorted Qcle (ch_t data) /\
  Permutation (ch_t data) (concat (ch_t parts)) /\
  forall c, length (channel_of c data) = length (ch_t data).
Proof.
  unfold concat_and_sort.
  set (t_all := concat (ch_t parts)).
  destruct (index_by t_all (argsort t_all)) as [ts|] eqn:Et; [|discriminate]. cbn [bind].
  repeat match goal with
  | |- context [index_by ?arr (argsort t_all)] =>
      destruct (index_by arr (argsort t_all)) eqn:?; [|discriminate]; cbn [bind]
  end.
  intros [= <-]. cbn [ch_t].
  split; [eapply sorted_times_sorted; eassumption|].
  split; [eapply sorted_times_perm; eassumption|].
  pose proof (index_by_length _ _ _ Et) as Hl.
  intros []; cbn [channel_of ch_x ch_y ch_dist ch_rel_dist ch_lap ch_tyre ch_speed
                  ch_gear ch_drs];
    rewrite Hl; eapply index_by_length; eassumption.
Qed.

(** A trace that [driver_outcome] hands over. *)
Lemma driver_outcome_trace tyre s n M data :
  driver_outcome tyre s n = Ok (Some (M, Some data)) ->
  StronglySorted Qcle (ch_t data) /\ well_formed data.
Proof.
  unfold driver_outcome.
  destruct (pick_drivers s n) as [[|l0 laps]|]; try discriminate.
  destruct (process_laps tyre (l0 :: laps)) as [r|] eqn:Er; [|discriminate].
  cbn [bind]. pose proof (process_laps_times _ _ _ Er) as Hne.
  destruct (ch_t (fst r)) as [|a rest] eqn:Ea; [discriminate|].
  destruct (concat_and_sort (fst r)) as [d|] eqn:Ec; [|discriminate].
  intros [= _ <-]. destruct (concat_and_sort_ok _ _ Ec) as (Hs & Hp & Hl).
  split; [exact Hs|]. split; [|exact Hl].
  intro Hnil. rewrite Hnil in Hp. apply Permutation_nil in Hp.
  rewrite Ea in Hp. cbn in Hp. apply app_eq_nil in Hp. destruct Hp as [Ha _].
  inversion Hne; subst. contradiction.
Qed.

Lemma extract_traces tyre s st cd :
  extract tyre s = Ok st -> In cd (driver_data st) ->
  StronglySorted Qcle (ch_t (snd cd)) /\ well_formed (snd cd).
Proof.
  rewrite extract_absorb. intro He. revert cd. revert He.
  apply (foldM_invariant
           (fun st0 => forall cd, In cd (driver_data st0) ->
              StronglySorted Qcle (ch_t (snd cd)) /\ well_formed (snd cd))).
  - intros a n a' Ha. destruct (driver_outcome _ s n) as [o|] eqn:Eo; [|discriminate].
    intros [= <-] cd Hcd. unfold absorb in Hcd.
    destruct o as [[M [d|]]|]; cbn in Hcd; try now apply Ha.
    apply in_dict_set in Hcd. destruct Hcd as [->|Hcd]; [|now apply Ha].
    cbn [snd]. eapply driver_outcome_trace, Eo.
  - intros cd [].
Qed.

(** X1.  Every trace kept in [driver_data] is in time order, has at least
    one sample, and all its channels have as many values as it has
    times. *)
Theorem retained_traces_are_sorted
        (get_tyre_compound_int : string -> Z) (s : session) (st : extract_state)
        (code : string) (data : trace) :
  extract get_tyre_compound_int s = Ok st ->
  In (code, data) (driver_data st) ->
  StronglySorted Qcle (ch_t data) /\ ch_t data <> [] /\
  forall c, length (channel_of c data) = length (ch_t data).
Proof.
  intros He Hin.
  destruct (extract_traces _ _ _ _ He Hin) as (Hs & Hne & Hl). auto.
Qed.

Lemma retained_traces_are_sorted_witness :
  StronglySorted Qcle (ch_t single_sample_trace) /\ ch_t single_sample_trace <> [] /\
  forall c, length (channel_of c single_sample_trace) = length (ch_t single_sample_trace).
Proof.
  apply (retained_traces_are_sorted (fun _ => 1%Z) single_sample_session
           single_sample_state "HAM"%string single_sample_trace).
  - vm_compute. reflexivity.
  - left. reflexivity.
Defined.

(** ** Every tick has a frame with every retained driver *)

Lemma extract_keys_NoDup tyre s st :
  extract tyre s = Ok st -> NoDup (keys (driver_data st)).
Proof.
  rewrite extract_absorb.
  apply (foldM_invariant (fun st0 => NoDup (keys (driver_data st0)))).
  - intros a n a' Ha. destruct (driver_outcome tyre s n) as [o|]; [|discriminate].
    intros [= <-]. unfold absorb. destruct o as [[M [d|]]|]; cbn; try exact Ha.
    now apply NoDup_keys_dict_set.
  - constructor.
Qed.

Lemma extract_well_formed tyre s st cd :
  extract tyre s = Ok st -> In cd (driver_data st) -> well_formed (snd cd).
Proof.
  intros He Hin. now destruct (extract_traces _ _ _ _ He Hin).
Qed.

Lemma collect_total {B V} (g : B -> option (string * V)) (h : B -> string * V) l :
  (forall b, In b l -> g b = Some (h b)) -> collect g l = map h l.
Proof.
  induction l as [|b l IH]; intro H; [reflexivity|].
  rewrite collect_cons, (H b (or_introl eq_refl)). cbn. f_equal.
  apply IH. intros b' Hb'. apply H. now right.
Qed.

Lemma resample_driver_lengths timeline gmin data r c :
  resample_driver timeline gmin data = Ok r ->
  length (channel_of c r) = length timeline.
Proof.
  intro H. destruct (resample_driver_channels _ _ _ _ H) as (_ & ts & _ & Hc).
  destruct (Hc c) as (a & _ & Hi). apply np_interp_ok in Hi.
  destruct Hi as (_ & _ & ->). apply length_map.
Qed.

Lemma sample_at_some (d : trace) i :
  (forall c, i < length (channel_of c d)) -> exists v, sample_at d i = Some v.
Proof.
  intro H. unfold sample_at.
  assert (Hn : forall c, exists v, nth_error (channel_of c d) i = Some v).
  { intro c. destruct (nth_error (channel_of c d) i) eqn:E; [eauto|].
    apply nth_error_None in E. specialize (H c). lia. }
  destruct (Hn CX) as [? E1], (Hn CY) as [? E2], (Hn CDist) as [? E3],
    (Hn CLap) as [? E4], (Hn CRelDist) as [? E5], (Hn CTyre) as [? E6],
    (Hn CSpeed) as [? E7], (Hn CGear) as [? E8], (Hn CDrs) as [? E9].
  cbn [channel_of] in *. rewrite E1, E2, E3, E4, E5, E6, E7, E8, E9. cbn. eauto.
Qed.

Lemma keys_collect_total {V W} (g : string * V -> option (string * W)) l :
  (forall cd kv, g cd = Some kv -> fst kv = fst cd) ->
  (forall cd, In cd l -> exists kv, g cd = Some kv) ->
  keys (collect g l) = keys l.
Proof.
  intros Hk Hs. induction l as [|cd l IH]; [reflexivity|].
  rewrite collect_cons. destruct (Hs cd (or_introl eq_refl)) as [kv E]. rewrite E.
  cbn. f_equal; [now apply Hk|]. apply IH. intros cd' Hcd'. apply Hs. now right.
Qed.

Lemma flat_map_singletons {A B} (F : A -> list B) (g : A -> B) l :
  (forall a, In a l -> F a = [g a]) -> flat_map F l = map g l.
Proof.
  induction l as [|a l IH]; intro H; [reflexivity|]. cbn.
  rewrite (H a (or_introl eq_refl)). cbn. f_equal. apply IH.
  intros b Hb. apply H. now right.
Qed.

Lemma nth_error_enumerate {A} (l : list A) i a :
  nth_error l i = Some a -> nth_error (enumerate l) i = Some (i, a).
Proof.
  unfold enumerate. intro H.
  assert (Hlt : i < length l) by (apply nth_error_Some; congruence).
  assert (Hg : forall k, nth_error (combine (seq k (length l)) l) i = Some (k + i, a)).
  { clear Hlt. revert i H. induction l as [|b l IH]; intros [|i] H k; cbn in *; try discriminate.
    - injection H as ->. now rewrite Nat.add_0_r.
    - rewrite (IH i H (S k)). f_equal. f_equal. lia. }
  apply Hg.
Qed.

Section FullFrames.
Variables (timeline : list num) (gmin : num) (dd : list (string * trace)).
Hypothesis dd_keys : NoDup (keys dd).
Hypothesis dd_well_formed : forall cd, In cd dd -> well_formed (snd cd).

Lemma resample_keys : keys (resample timeline gmin dd) = keys dd.
Proof.
  assert (Hkey : forall cd kv, resampled_entry timeline gmin cd = Some kv -> fst kv = fst cd).
  { intros cd kv. unfold resampled_entry.
    destruct (resample_driver timeline gmin (snd cd)); [|discriminate]. now intros [= <-]. }
  assert (Hsome : forall cd, In cd dd -> exists kv, resampled_entry timeline gmin cd = Some kv).
  { intros cd Hcd. unfold resampled_entry.
    destruct (resample_driver_ok timeline gmin (snd cd) (dd_well_formed cd Hcd)) as [r ->].
    eauto. }
  rewrite resample_file, file_into_collect.
  - cbn. now apply keys_collect_total.
  - cbn. now apply NoDup_keys_collect.
Qed.

Lemma resample_lengths code r c :
  In (code, r) (resample timeline gmin dd) -> length (channel_of c r) = length timeline.
Proof.
  assert (Hkey : forall cd kv, resampled_entry timeline gmin cd = Some kv -> fst kv = fst cd).
  { intros cd kv. unfold resampled_entry.
    destruct (resample_driver timeline gmin (snd cd)); [|discriminate]. now intros [= <-]. }
  rewrite resample_file, file_into_collect
    by (cbn; now apply NoDup_keys_collect).
  cbn. unfold collect. rewrite in_flat_map. intros (cd & _ & Hin).
  unfold resampled_entry in Hin.
  destruct (resample_driver timeline gmin (snd cd)) as [r'|] eqn:E; [|easy].
  destruct Hin as [[= _ <-]|[]]. eapply resample_driver_lengths, E.
Qed.

Lemma frame_drivers_keys i :
  i < length timeline ->
  keys (frame_drivers_at (resample timeline gmin dd) i) = keys dd.
Proof.
  intro Hi. rewrite <- resample_keys.
  assert (Hkey : forall cd kv, entry_at i cd = Some kv -> fst kv = fst cd).
  { intros cd kv. unfold entry_at. destruct (sample_at (snd cd) i); [|discriminate].
    now intros [= <-]. }
  assert (Hnd : NoDup (keys (resample timeline gmin dd))) by (now rewrite resample_keys).
  rewrite frame_drivers_at_file, file_into_collect
    by (cbn; now apply NoDup_keys_collect).
  cbn. apply keys_collect_total; [exact Hkey|].
  intros [code r] Hin. unfold entry_at. cbn [snd fst].
  destruct (sample_at_some r i) as [v ->]; [|eauto].
  intro c. now rewrite (resample_lengths code r c Hin).
Qed.

Lemma build_frame_full i tick :
  i < length timeline -> dd <> [] ->
  exists f, build_frame (resample timeline gmin dd) i tick = Some f /\
            t f = tick /\ Permutation (keys (frame_data f)) (keys dd).
Proof.
  intros Hi Hne. pose proof (frame_drivers_keys i Hi) as Hk.
  destruct (build_frame (resample timeline gmin dd) i tick) as [f|] eqn:E.
  - exists f. split; [reflexivity|].
    destruct (build_frame_some _ _ _ _ E) as (Hfd & Ht & _).
    split; [exact Ht|]. rewrite Hfd, keys_ranked, <- Hk.
    apply Permutation_map, sort_snapshot_perm.
  - exfalso. rewrite build_frame_alt in E.
    destruct (sort_snapshot _) as [|e l] eqn:Es; [|discriminate].
    pose proof (sort_snapshot_perm (frame_drivers_at (resample timeline gmin dd) i)) as Hp.
    rewrite Es in Hp. apply Permutation_nil in Hp. rewrite Hp in Hk.
    destruct dd; [contradiction | discriminate].
Qed.

Lemma build_frames_full :
  dd <> [] ->
  build_frames (resample timeline gmin dd) timeline
  = map (frame_of (resample timeline gmin dd)) (enumerate timeline).
Proof.
  intro Hne. unfold build_frames. apply flat_map_singletons.
  intros [i tick] Hin. apply in_enumerate in Hin.
  assert (Hi : i < length timeline) by (apply nth_error_Some; congruence).
  destruct (build_frame_full i tick Hi Hne) as (f & E & _).
  unfold frame_of. cbn [fst snd]. now rewrite E.
Qed.
End FullFrames.

Lemma nth_error_enumerate_inv {A} (l : list A) i j a :
  nth_error (enumerate l) i = Some (j, a) -> j = i /\ nth_error l i = Some a.
Proof.
  intro H. apply nth_error_In in H as Hin. apply in_enumerate in Hin.
  assert (Hi : i < length l).
  { rewrite <- (length_enumerate l). apply nth_error_Some. congruence. }
  destruct (nth_error l i) as [b|] eqn:E; [|apply nth_error_None in E; lia].
  rewrite (nth_error_enumerate l i b E) in H. injection H as <- <-. now split.
Qed.

Lemma frames_by_tick tyre s p :
  compute_telemetry tyre s = Ok p ->
  exists st gmin gmax,
    extract tyre s = Ok st /\ driver_data st <> [] /\
    global_t_min st = Some gmin /\ global_t_max st = Some gmax /\
    length (frames p) = length (make_timeline gmin gmax) /\
    forall i f,
      nth_error (frames p) i = Some f <->
      exists tick,
        nth_error (make_timeline gmin gmax) i = Some tick /\
        build_frame (resample (make_timeline gmin gmax) gmin (driver_data st)) i tick
        = Some f.
Proof.
  intro Hp.
  destruct (compute_frames _ _ _ Hp) as (st & gmin & gmax & He & Hne & Hmin & Hmax & Hfr & _).
  exists st, gmin, gmax. repeat split; try assumption.
  - rewrite Hfr, build_frames_full, length_map, length_enumerate; try assumption.
    + reflexivity.
    + eapply extract_keys_NoDup, He.
    + intros cd. eapply extract_well_formed, He.
  - intro H. rewrite Hfr, build_frames_full in H; try assumption.
    2: eapply extract_keys_NoDup, He.
    2: intros cd; eapply extract_well_formed, He.
    rewrite nth_error_map in H.
    destruct (nth_error (enumerate (make_timeline gmin gmax)) i) as [[i' tick]|] eqn:E;
      [|discriminate].
    injection H as <-. apply nth_error_enumerate_inv in E as [-> Et].
    exists tick. split; [exact Et|].
    assert (Hi : i < length (make_timeline gmin gmax))
      by (apply nth_error_Some; congruence).
    destruct (build_frame_full (make_timeline gmin gmax) gmin (driver_data st)
                (extract_keys_NoDup _ _ _ He)
                (fun cd => extract_well_formed _ _ _ cd He) i tick Hi Hne)
      as (f & Ef & _).
    unfold frame_of. cbn [fst snd]. now rewrite Ef.
  - intros (tick & Et & Ef). rewrite Hfr, build_frames_full; try assumption.
    2: eapply extract_keys_NoDup, He.
    2: intros cd; eapply extract_well_formed, He.
    rewrite nth_error_map, (nth_error_enumerate _ _ _ Et). cbn [option_map].
    unfold frame_of. cbn [fst snd]. now rewrite Ef.
Qed.

(** X2.  A payload has one frame per instant of the timeline, in order: the
    [i]-th frame is stamped with the [i]-th instant and holds every
    retained driver, each once.  There is a frame as soon as
    [global_t_max] is at most 2^45 in size. *)
Theorem every_tick_has_a_full_frame
        (get_tyre_compound_int : string -> Z) (s : session) (p : payload) :
  compute_telemetry get_tyre_compound_int s = Ok p ->
  exists st gmin gmax,
    extract get_tyre_compound_int s = Ok st /\
    global_t_min st = Some gmin /\ global_t_max st = Some gmax /\
    length (frames p) = length (make_timeline gmin gmax) /\
    ((- of_Z (2 ^ 45) <= gmax)%Qc -> (gmax <= of_Z (2 ^ 45))%Qc -> frames p <> []) /\
    forall i f, nth_error (frames p) i = Some f ->
                nth_error (make_timeline gmin gmax) i = Some (t f) /\
                Permutation (keys (frame_data f)) (keys (driver_data st)).
Proof.
  intro Hp.
  destruct (frames_by_tick _ _ _ Hp) as (st & gmin & gmax & He & Hne & Hmin & Hmax & Hlen & Hfr).
  exists st, gmin, gmax. repeat split; try assumption.
  - intros Hlo Hhi Hnil.
    pose proof (extract_bounds_ok _ _ _ He) as Hb. unfold bounds_ok in Hb.
    rewrite Hmin, Hmax in Hb. destruct Hb as [Hle _].
    pose proof (make_timeline_nonempty gmin gmax Hle Hlo Hhi) as H1.
    rewrite <- Hlen, Hnil in H1. cbn in H1. lia.
  - apply Hfr in H as (tick & Et & Ef).
    assert (Hi : i < length (make_timeline gmin gmax))
      by (apply nth_error_Some; congruence).
    destruct (build_frame_full (make_timeline gmin gmax) gmin (driver_data st)
                (extract_keys_NoDup _ _ _ He)
                (fun cd => extract_well_formed _ _ _ cd He) i tick Hi Hne)
      as (f0 & Ef0 & Ht & _).
    rewrite Ef in Ef0. injection Ef0 as <-. now rewrite Ht.
  - apply Hfr in H as (tick & Et & Ef).
    assert (Hi : i < length (make_timeline gmin gmax))
      by (apply nth_error_Some; congruence).
    destruct (build_frame_full (make_timeline gmin gmax) gmin (driver_data st)
                (extract_keys_NoDup _ _ _ He)
                (fun cd => extract_well_formed _ _ _ cd He) i tick Hi Hne)
      as (f0 & Ef0 & _ & Hperm).
    rewrite Ef in Ef0. injection Ef0 as <-. exact Hperm.
Qed.

(** The payload of the two-driver session. *)
Lemma every_tick_has_a_full_frame_witness :
  exists st gmin gmax,
    extract (fun _ => 1%Z) two_driver_session = Ok st /\
    global_t_min st = Some gmin /\ global_t_max st = Some gmax /\
    length (frames two_driver_payload) = length (make_timeline gmin gmax) /\
    ((- of_Z (2 ^ 45) <= gmax)%Qc -> (gmax <= of_Z (2 ^ 45))%Qc ->
     frames two_driver_payload <> []) /\
    forall i f, nth_error (frames two_driver_payload) i = Some f ->
                nth_error (make_timeline gmin gmax) i = Some (t f) /\
                Permutation (keys (frame_data f)) (keys (driver_data st)).
Proof.
  apply (every_tick_has_a_full_frame (fun _ => 1%Z) two_driver_session two_driver_payload).
  apply two_driver_payload_computed.
Defined.

(** ** Who is ranked *)

Lemma in_ranked_nth l i c sm :
  nth_error l i = Some (c, sm) -> In (c, car_of i sm) (ranked l).
Proof.
  intro H. unfold ranked. apply in_map_iff. exists (i, (c, sm)).
  split; [reflexivity | now apply in_enumerate].
Qed.

(** C4.  In every frame the positions of the [k] drivers, read in the
    order of the frame, are 1, 2, ..., [k]; no driver occurs twice; and of
    two drivers the one with strictly more cumulative distance has the
    strictly smaller position.  The [k] drivers are those with a sample at
    the instant of the frame, which are all the retained drivers: each of
    them has an entry, built from its sample, with a position from 1 to
    [k], and the frame has no other entry. *)
Theorem ranks_are_dense
        (get_tyre_compound_int : string -> Z) (s : session) (p : payload) (f : frame) :
  compute_telemetry get_tyre_compound_int s = Ok p -> In f (frames p) ->
  map position (values (frame_data f)) = seq 1 (length (frame_data f)) /\
  NoDup (keys (frame_data f)) /\
  (forall c1 a c2 b,
      In (c1, a) (frame_data f) -> In (c2, b) (frame_data f) ->
      (dist b < dist a)%Qc -> position a < position b) /\
  exists st gmin gmax i,
    extract get_tyre_compound_int s = Ok st /\
    global_t_min st = Some gmin /\ global_t_max st = Some gmax /\
    nth_error (frames p) i = Some f /\
    let gathered :=
      frame_drivers_at (resample (make_timeline gmin gmax) gmin (driver_data st)) i in
    keys gathered = keys (driver_data st) /\
    length (frame_data f) = length gathered /\
    (forall c sm,
        In (c, sm) gathered ->
        exists a, In (c, a) (frame_data f) /\
                  1 <= position a <= length gathered /\
                  a = car_of (position a - 1) sm) /\
    (forall c a,
        In (c, a) (frame_data f) ->
        exists sm, In (c, sm) gathered /\ a = car_of (position a - 1) sm).
Proof.
  intros Hp Hf.
  destruct (frames_by_tick _ _ _ Hp) as (st & gmin & gmax & He & Hne & Hmin & Hmax & Hlen & Hfr).
  apply In_nth_error in Hf as (i & Hi).
  destruct (proj1 (Hfr i f) Hi) as (tick & Et & Hb).
  destruct (build_frame_some _ _ _ _ Hb) as (Hfd & _ & Hnd & _).
  set (gathered := frame_drivers_at
                     (resample (make_timeline gmin gmax) gmin (driver_data st)) i) in *.
  pose proof (sort_snapshot_perm gathered) as Hperm.
  rewrite Hfd. split; [|split; [|split]].
  - now rewrite positions_ranked, length_ranked.
  - now rewrite keys_ranked.
  - intros c1 a c2 b Ha Hb' Hlt.
    apply in_ranked in Ha. destruct Ha as (ia & sa & Hia & ->).
    apply in_ranked in Hb'. destruct Hb' as (ib & sb & Hib & ->).
    cbn in *. destruct (Nat.lt_trichotomy ia ib) as [H|[H|H]]; [lia | |].
    + subst ib. rewrite Hia in Hib. injection Hib as _ <-.
      exfalso. eapply Qclt_not_eq; [exact Hlt | reflexivity].
    + pose proof (StronglySorted_nth _ _ (sort_snapshot_sorted _) _ _ _ _ H Hib Hia) as Hle.
      cbn in Hle. exfalso. eapply Qclt_not_le; eassumption.
  - exists st, gmin, gmax, i. repeat split; try assumption.
    + apply frame_drivers_keys.
      * eapply extract_keys_NoDup, He.
      * intros cd. eapply extract_well_formed, He.
      * apply nth_error_Some. congruence.
    + rewrite length_ranked. now apply Permutation_length.
    + intros c sm Hin.
      apply (Permutation_in _ (Permutation_sym Hperm)) in Hin.
      apply In_nth_error in Hin as (k & Hk).
      assert (Hlt : k < length gathered).
      { rewrite <- (Permutation_length Hperm). apply nth_error_Some. congruence. }
      exists (car_of k sm). split; [now apply in_ranked_nth|].
      cbn [car_of position]. rewrite Nat.add_sub. fold gathered.
      split; [lia | reflexivity].
    + intros c a Hin. apply in_ranked in Hin as (k & sm & Hk & ->).
      exists sm. split.
      * apply (Permutation_in _ Hperm). eapply nth_error_In, Hk.
      * cbn [car_of position]. now rewrite Nat.add_sub.
Qed.

(** The frame of the two-driver session. *)
Lemma ranks_are_dense_witness :
  map position (values (frame_data two_driver_frame))
  = seq 1 (length (frame_data two_driver_frame)) /\
  NoDup (keys (frame_data two_driver_frame)) /\
  (forall c1 a c2 b,
      In (c1, a) (frame_data two_driver_frame) ->
      In (c2, b) (frame_data two_driver_frame) ->
      (dist b < dist a)%Qc -> position a < position b) /\
  exists st gmin gmax i,
    extract (fun _ => 1%Z) two_driver_session = Ok st /\
    global_t_min st = Some gmin /\ global_t_max st = Some gmax /\
    nth_error (frames two_driver_payload) i = Some two_driver_frame /\
    let gathered :=
      frame_drivers_at (resample (make_timeline gmin gmax) gmin (driver_data st)) i in
    keys gathered = keys (driver_data st) /\
    length (frame_data two_driver_frame) = length gathered /\
    (forall c sm,
        In (c, sm) gathered ->
        exists a, In (c, a) (frame_data two_driver_frame) /\
                  1 <= position a <= length gathered /\
                  a = car_of (position a - 1) sm) /\
    (forall c a,
        In (c, a) (frame_data two_driver_frame) ->
        exists sm, In (c, sm) gathered /\ a = car_of (position a - 1) sm).
Proof.
  apply (ranks_are_dense (fun _ => 1%Z) two_driver_session two_driver_payload
                         two_driver_frame).
  - apply two_driver_payload_computed.
  - left. reflexivity.
Defined.

(** ** The order of the drivers, frame by frame *)

Lemma precedes_in {A} (a b : A) l : precedes a b l -> In a l /\ In b l.
Proof.
  induction l as [|c l IH]; cbn; [easy|].
  intros [[-> H]|H]; [auto|]. destruct (IH H). auto.
Qed.

Lemma precedes_app {A} (a b : A) l1 l2 l3 : precedes a b (l1 ++ a :: l2 ++ b :: l3).
Proof.
  induction l1 as [|c l1 IH]; cbn.
  - left. split; [reflexivity|]. apply in_or_app. right. now left.
  - right. exact IH.
Qed.

Lemma precedes_nth {A} (a b : A) l :
  precedes a b l ->
  exists i j, i < j /\ nth_error l i = Some a /\ nth_error l j = Some b.
Proof.
  induction l as [|c l IH]; cbn; [easy|].
  intros [[-> H]|H].
  - apply In_nth_error in H as (j & Hj). exists 0, (S j). repeat split; [lia | exact Hj].
  - destruct (IH H) as (i & j & Hij & Hi & Hj). exists (S i), (S j).
    repeat split; [lia | exact Hi | exact Hj].
Qed.

(** A loop that files entries under the keys of what it goes through
    keeps the order of the keys. *)
Lemma keys_collect_in {B V} (key : B -> string) (g : B -> option (string * V)) l k :
  (forall b kv, g b = Some kv -> fst kv = key b) ->
  In k (keys (collect g l)) -> In k (map key l).
Proof.
  intros Hg. induction l as [|b l IH]; [easy|].
  rewrite collect_cons. destruct (g b) as [kv|] eqn:E; cbn.
  - intros [<-|H]; [left; symmetry; now apply Hg | right; now apply IH].
  - intro H. right. now apply IH.
Qed.

Lemma precedes_collect {B V} (key : B -> string) (g : B -> option (string * V)) l k1 k2 :
  (forall b kv, g b = Some kv -> fst kv = key b) ->
  NoDup (map key l) -> precedes k1 k2 (map key l) ->
  In k1 (keys (collect g l)) -> In k2 (keys (collect g l)) ->
  precedes k1 k2 (keys (collect g l)).
Proof.
  intros Hg. induction l as [|b l IH]; [easy|].
  cbn [map precedes]. intros Hnd Hp. inversion Hnd as [|? ? Hnin Hnd']; subst.
  rewrite collect_cons. destruct (g b) as [kv|] eqn:E.
  - cbn [keys map precedes]. fold (keys (collect g l)). rewrite (Hg _ _ E).
    intros H1 H2. destruct Hp as [[Hk Hin]|Hp].
    + left. split; [exact Hk|]. destruct H2 as [H2|H2]; [|exact H2].
      exfalso. apply Hnin. now rewrite H2.
    + right. destruct (precedes_in _ _ _ Hp) as [Hi1 Hi2]. apply IH; try assumption.
      * destruct H1 as [H1|H1]; [|exact H1]. exfalso. apply Hnin. now rewrite H1.
      * destruct H2 as [H2|H2]; [|exact H2]. exfalso. apply Hnin. now rewrite H2.
  - intros H1 H2. destruct Hp as [[Hk Hin]|Hp].
    + exfalso. apply Hnin. rewrite Hk. eapply keys_collect_in; eassumption.
    + now apply IH.
Qed.

(** With distinct keys the order of the keys is the order of the
    entries. *)
Lemma precedes_entries {V} (e1 e2 : string * V) l :
  NoDup (keys l) -> precedes (fst e1) (fst e2) (keys l) ->
  In e1 l -> In e2 l -> precedes e1 e2 l.
Proof.
  induction l as [|c l IH]; [easy|].
  cbn [keys map precedes]. fold (keys l). intros Hnd Hp H1 H2.
  inversion Hnd as [|? ? Hnin Hnd']; subst.
  assert (Hk : forall e, In e l -> fst e <> fst c).
  { intros e He Heq. apply Hnin. rewrite <- Heq. now apply in_map. }
  destruct Hp as [[Hc Hin]|Hp].
  - left. destruct H1 as [H1|H1]; [|now destruct (Hk _ H1)].
    split; [exact H1|]. destruct H2 as [H2|H2]; [|exact H2].
    exfalso. apply Hnin. subst. exact Hin.
  - right. destruct (precedes_in _ _ _ Hp) as [Hi1 Hi2]. apply IH; try assumption.
    + destruct H1 as [H1|H1]; [|exact H1]. exfalso. apply Hnin. now subst.
    + destruct H2 as [H2|H2]; [|exact H2]. exfalso. apply Hnin. now subst.
Qed.

(** The sort is stable: an element stays in front of a later one that is
    not strictly [before] it. *)
Section Stability.
Context {A : Type} (before : A -> A -> bool).

Lemma insert_keeps (c a b : A) l :
  precedes a b l -> precedes a b (insert before c l).
Proof.
  induction l as [|d l IH]; cbn; [easy|].
  intros H. destruct (before d c).
  - cbn. destruct H as [[-> H]|H].
    + left. split; [reflexivity|].
      apply (Permutation_in _ (Permutation_sym (insert_perm before c l))). now right.
    + right. now apply IH.
  - cbn. right. exact H.
Qed.

Lemma insert_first (a b : A) l :
  In b l -> before b a = false -> precedes a b (insert before a l).
Proof.
  induction l as [|d l IH]; cbn; [easy|].
  intros Hin Hb. destruct (before d a) eqn:E.
  - cbn. right. destruct Hin as [->|Hin]; [congruence | now apply IH].
  - cbn. left. split; [reflexivity | exact Hin].
Qed.

Lemma stable_sort_stable (a b : A) l :
  precedes a b l -> before b a = false -> precedes a b (stable_sort before l).
Proof.
  intros H Hb. induction l as [|c l IH]; cbn in *; [easy|].
  destruct H as [[-> H]|H].
  - apply insert_first; [|exact Hb].
    apply (Permutation_in _ (Permutation_sym (stable_sort_perm before l))). exact H.
  - apply insert_keeps. now apply IH.
Qed.
End Stability.

Lemma gather_collect tyre s l cs :
  gather tyre s l = Ok cs -> cs = collect (contribution tyre s) l.
Proof.
  revert cs. induction l as [|m l IH]; intros cs; cbn [gather].
  - now intros [= <-].
  - rewrite collect_cons. unfold contribution at 1.
    destruct (driver_outcome tyre s m) as [o|]; cbn; [|discriminate].
    destruct (gather tyre s l) as [rest|]; cbn; [|discriminate].
    intros [= <-]. rewrite <- (IH rest eq_refl). now destruct o.
Qed.

Lemma contribution_key tyre s m kv :
  contribution tyre s m = Some kv -> fst kv = driver_code s m.
Proof.
  unfold contribution. destruct (driver_outcome tyre s m) as [[c|]|]; try discriminate.
  now intros [= <-].
Qed.

Lemma resampled_entry_key timeline gmin cd kv :
  resampled_entry timeline gmin cd = Some kv -> fst kv = fst cd.
Proof.
  unfold resampled_entry. destruct (resample_driver timeline gmin (snd cd)); [|discriminate].
  now intros [= <-].
Qed.

Lemma entry_at_key i cd kv : entry_at i cd = Some kv -> fst kv = fst cd.
Proof.
  unfold entry_at. destruct (sample_at (snd cd) i); [|discriminate]. now intros [= <-].
Qed.

Lemma resample_collect timeline gmin l :
  NoDup (keys l) -> resample timeline gmin l = collect (resampled_entry timeline gmin) l.
Proof.
  intro Hl. rewrite resample_file, file_into_collect; [reflexivity|].
  cbn. apply NoDup_keys_collect; [apply resampled_entry_key | exact Hl].
Qed.

Lemma frame_drivers_at_collect l i :
  NoDup (keys l) -> frame_drivers_at l i = collect (entry_at i) l.
Proof.
  intro Hl. rewrite frame_drivers_at_file, file_into_collect; [reflexivity|].
  cbn. apply NoDup_keys_collect; [apply entry_at_key | exact Hl].
Qed.

Lemma NoDup_keys_perm {V} (l l' : list (string * V)) :
  Permutation l l' -> NoDup (keys l) -> NoDup (keys l').
Proof.
  intros Hp Hnd. unfold keys. eapply Permutation_NoDup; [apply Permutation_map, Hp | exact Hnd].
Qed.

Lemma resample_perm timeline gmin dd dd' :
  Permutation dd dd' -> NoDup (keys dd) ->
  Permutation (resample timeline gmin dd) (resample timeline gmin dd') /\
  NoDup (keys (resample timeline gmin dd)).
Proof.
  intros Hp Hnd. pose proof (NoDup_keys_perm _ _ Hp Hnd) as Hnd'.
  rewrite !resample_collect by assumption. split.
  - now apply collect_perm.
  - apply NoDup_keys_collect; [apply resampled_entry_key | exact Hnd].
Qed.

Lemma frame_drivers_at_perm rs rs' i :
  Permutation rs rs' -> NoDup (keys rs) ->
  Permutation (frame_drivers_at rs i) (frame_drivers_at rs' i).
Proof.
  intros Hp Hnd. pose proof (NoDup_keys_perm _ _ Hp Hnd) as Hnd'.
  rewrite !frame_drivers_at_collect by assumption. now apply collect_perm.
Qed.

Lemma without_position_ranked l :
  map without_position (ranked l) = map (fun e => without_position (fst e, car_of 0 (snd e))) l.
Proof.
  unfold ranked. rewrite map_map.
  rewrite <- (map_snd_enumerate l) at 2. rewrite map_map. reflexivity.
Qed.

(** The codes of a frame stand in the order in which their drivers were
    gone through, wherever the sort leaves them so. *)
Lemma gathered_in_driver_order tyre s cs timeline gmin i k1 k2 :
  NoDup (map (driver_code s) (drivers s)) ->
  gather tyre s (drivers s) = Ok cs ->
  precedes k1 k2 (map (driver_code s) (drivers s)) ->
  In k1 (keys (frame_drivers_at (resample timeline gmin (traces cs)) i)) ->
  In k2 (keys (frame_drivers_at (resample timeline gmin (traces cs)) i)) ->
  precedes k1 k2 (keys (frame_drivers_at (resample timeline gmin (traces cs)) i)).
Proof.
  intros Hnd Hg Hp.
  pose proof (NoDup_keys_gather tyre s _ _ Hnd Hg) as Hcs.
  assert (Htr : NoDup (keys (traces cs))).
  { apply NoDup_keys_collect; [apply with_trace_key | exact Hcs]. }
  assert (Hrs : NoDup (keys (resample timeline gmin (traces cs)))).
  { rewrite resample_collect by assumption.
    apply NoDup_keys_collect; [apply resampled_entry_key | exact Htr]. }
  rewrite frame_drivers_at_collect by assumption.
  rewrite resample_collect in * by assumption.
  apply gather_collect in Hg. subst cs.
  intros H1 H2.
  assert (In1 : forall k, In k (keys (collect (entry_at i)
                 (collect (resampled_entry timeline gmin)
                    (traces (collect (contribution tyre s) (drivers s)))))) ->
                In k (keys (collect (resampled_entry timeline gmin)
                    (traces (collect (contribution tyre s) (drivers s)))))).
  { intros k. apply (keys_collect_in fst). apply entry_at_key. }
  assert (In2 : forall k, In k (keys (collect (resampled_entry timeline gmin)
                    (traces (collect (contribution tyre s) (drivers s))))) ->
                In k (keys (traces (collect (contribution tyre s) (drivers s))))).
  { intros k. apply (keys_collect_in fst). apply resampled_entry_key. }
  assert (In3 : forall k, In k (keys (traces (collect (contribution tyre s) (drivers s)))) ->
                In k (keys (collect (contribution tyre s) (drivers s)))).
  { intros k. apply (keys_collect_in fst). apply with_trace_key. }
  apply (precedes_collect fst); [apply entry_at_key | exact Hrs | | exact H1 | exact H2].
  apply (precedes_collect fst);
    [apply resampled_entry_key | exact Htr | | now apply In1 | now apply In1].
  apply (precedes_collect fst);
    [apply with_trace_key | exact Hcs | | now apply In2, In1 | now apply In2, In1].
  apply (precedes_collect (driver_code s));
    [apply contribution_key | exact Hnd | exact Hp
     | now apply In3, In2, In1 | now apply In3, In2, In1].
Qed.

(** In a frame, a driver that stands in front of another in the
    dictionary of the tick, and has the same cumulative distance, gets the
    smaller position. *)
Lemma level_drivers_keep_their_order gathered c1 a c2 b :
  NoDup (keys gathered) ->
  precedes c1 c2 (keys gathered) ->
  In (c1, a) (ranked (sort_snapshot gathered)) ->
  In (c2, b) (ranked (sort_snapshot gathered)) ->
  dist a = dist b -> position a < position b.
Proof.
  intros Hnd Hp Ha Hb Hd.
  pose proof (sort_snapshot_perm gathered) as Hperm.
  apply in_ranked in Ha as (ia & sa & Hia & ->).
  apply in_ranked in Hb as (ib & sb & Hib & ->).
  cbn [car_of dist position] in *.
  assert (Hs : precedes (c1, sa) (c2, sb) (sort_snapshot gathered)).
  { apply stable_sort_stable.
    - apply precedes_entries; [exact Hnd | exact Hp | |].
      + apply (Permutation_in _ Hperm). eapply nth_error_In, Hia.
      + apply (Permutation_in _ Hperm). eapply nth_error_In, Hib.
    - cbn. rewrite Hd. apply Qcltb_ge. apply Qcle_refl. }
  apply precedes_nth in Hs as (i & j & Hij & Hi & Hj).
  assert (Hnds : NoDup (keys (sort_snapshot gathered))).
  { eapply NoDup_keys_perm; [symmetry; exact Hperm | exact Hnd]. }
  assert (Ei : ia = i).
  { apply (proj1 (NoDup_nth_error (keys (sort_snapshot gathered))) Hnds).
    - unfold keys. rewrite length_map. apply nth_error_Some. congruence.
    - unfold keys. rewrite !nth_error_map, Hia, Hi. reflexivity. }
  assert (Ej : ib = j).
  { apply (proj1 (NoDup_nth_error (keys (sort_snapshot gathered))) Hnds).
    - unfold keys. rewrite length_map. apply nth_error_Some. congruence.
    - unfold keys. rewrite !nth_error_map, Hib, Hj. reflexivity. }
  lia.
Qed.

(** What the part after the loop keeps, whatever the order. *)
Lemma finish_perm_shape s cs cs' :
  Permutation cs cs' -> NoDup (keys cs) ->
  match finish s (state_of cs init_state), finish s (state_of cs' init_state) with
  | Ok p, Ok p' =>
      payload_driver_colors p' = payload_driver_colors p /\
      track_statuses p' = track_statuses p /\
      total_laps p' = total_laps p
  | Raise e, Raise e' => e' = e
  | _, _ => False
  end.
Proof.
  intros Hp Hnd.
  pose proof (NoDup_keys_perm _ _ Hp Hnd) as Hnd'.
  destruct (state_of_perm _ _ Hp) as (Hmin & Hmax & Hlaps).
  pose proof (driver_data_state_of cs Hnd) as Hdd.
  pose proof (driver_data_state_of cs' Hnd') as Hdd'.
  pose proof (collect_perm with_trace _ _ Hp) as Ht. fold (traces cs) (traces cs') in Ht.
  unfold finish. rewrite Hdd', Hdd, <- Hmin, <- Hmax, <- Hlaps.
  destruct (traces cs) as [|e dd] eqn:Etr.
  - apply Permutation_nil in Ht. now rewrite Ht.
  - destruct (traces cs') as [|e' dd'] eqn:Etr';
      [apply Permutation_sym, Permutation_nil in Ht; discriminate|].
    destruct (global_t_min (state_of cs init_state)) as [gmin|]; [|reflexivity].
    destruct (global_t_max (state_of cs init_state)) as [gmax|]; [|reflexivity].
    cbv zeta. cbn. auto.
Qed.

(** The frames of a payload, tick by tick, from what the drivers
    brought. *)
Lemma frames_by_tick_gathered tyre s cs p :
  NoDup (map (driver_code s) (drivers s)) ->
  gather tyre s (drivers s) = Ok cs ->
  compute_telemetry tyre s = Ok p ->
  exists gmin gmax,
    global_t_min (state_of cs init_state) = Some gmin /\
    global_t_max (state_of cs init_state) = Some gmax /\
    length (frames p) = length (make_timeline gmin gmax) /\
    forall i f, nth_error (frames p) i = Some f <->
      exists tick, nth_error (make_timeline gmin gmax) i = Some tick /\
        build_frame (resample (make_timeline gmin gmax) gmin (traces cs)) i tick = Some f.
Proof.
  intros Hnd Hg Hc.
  destruct (frames_by_tick _ _ _ Hc) as (st & gmin & gmax & He & _ & Hmin & Hmax & Hlen & Hfr).
  rewrite extract_absorb, foldM_gather, Hg in He. cbn in He. injection He as <-.
  rewrite driver_data_state_of in Hfr by (eapply NoDup_keys_gather; eassumption).
  exists gmin, gmax. auto.
Qed.

(** C6, as the code has it.  Let the drivers have pairwise different
    codes, and let them be gone through in another order.  An exception
    is the same exception.  A payload has the same colours, track
    statuses and lap count and as many frames; its [i]-th frame has the
    same time and the same entries apart from the positions; it is the
    same frame when no two of its drivers have the same cumulative
    distance, whatever happens in the other frames; and when that holds
    of every frame the payload is the same.  Of two drivers with the same
    cumulative distance in a frame, the one gone through first has the
    smaller position. *)
Theorem order_insensitive_without_ties
        (get_tyre_compound_int : string -> Z) (s : session) (l' : list string) :
  Permutation (drivers s) l' ->
  NoDup (map (driver_code s) (drivers s)) ->
  (forall e,
      compute_telemetry get_tyre_compound_int s = Raise e ->
      compute_telemetry get_tyre_compound_int (with_drivers s l') = Raise e) /\
  (forall p,
      compute_telemetry get_tyre_compound_int s = Ok p ->
      exists p',
        compute_telemetry get_tyre_compound_int (with_drivers s l') = Ok p' /\
        payload_driver_colors p' = payload_driver_colors p /\
        track_statuses p' = track_statuses p /\
        total_laps p' = total_laps p /\
        length (frames p') = length (frames p) /\
        (forall i f,
            nth_error (frames p) i = Some f ->
            exists f',
              nth_error (frames p') i = Some f' /\
              t f' = t f /\
              Permutation (map without_position (frame_data f'))
                          (map without_position (frame_data f)) /\
              (level_free f -> f' = f)) /\
        ((forall f, In f (frames p) -> level_free f) -> p' = p)) /\
  (forall p f l1 n1 l2 n2 l3 a b,
      compute_telemetry get_tyre_compound_int s = Ok p -> In f (frames p) ->
      drivers s = l1 ++ n1 :: l2 ++ n2 :: l3 ->
      In (driver_code s n1, a) (frame_data f) ->
      In (driver_code s n2, b) (frame_data f) ->
      dist a = dist b -> position a < position b).
Proof.
  intros Hp Hnd.
  assert (Hnd' : NoDup (map (driver_code (with_drivers s l')) (drivers (with_drivers s l')))).
  { change (NoDup (map (driver_code s) l')).
    eapply Permutation_NoDup; [apply Permutation_map, Hp | exact Hnd]. }
  pose proof (gather_perm get_tyre_compound_int s _ _ Hp) as Hg.
  pose proof (NoDup_keys_gather get_tyre_compound_int s (drivers s)) as Hk.
  assert (Hc' : compute_telemetry get_tyre_compound_int (with_drivers s l')
                = (cs <- gather get_tyre_compound_int s l' ;;
                   finish s (state_of cs init_state))).
  { rewrite compute_finish. change (drivers (with_drivers s l')) with l'.
    now rewrite gather_with_drivers. }
  assert (Hgw : gather get_tyre_compound_int (with_drivers s l')
                       (drivers (with_drivers s l'))
                = gather get_tyre_compound_int s l').
  { apply gather_with_drivers. }
  split; [|split].
  - intros e. rewrite Hc', compute_finish.
    destruct (gather get_tyre_compound_int s (drivers s)) as [cs|e0],
      (gather get_tyre_compound_int s l') as [cs'|e0']; cbn in Hg; try contradiction.
    + cbn [bind]. pose proof (finish_perm_shape s cs cs' Hg (Hk cs Hnd eq_refl)) as Hs.
      destruct (finish s (state_of cs init_state)), (finish s (state_of cs' init_state));
        try contradiction; [discriminate|]. intros [= <-]. now subst.
    + cbn. intros [= <-]. now subst.
  - intros p Hc. pose proof Hc as Hc0. rewrite compute_finish in Hc.
    destruct (gather get_tyre_compound_int s (drivers s)) as [cs|e0] eqn:Eg;
      [|discriminate].
    destruct (gather get_tyre_compound_int s l') as [cs'|e0'] eqn:Eg';
      cbn in Hg; [|contradiction].
    cbn [bind] in Hc, Hc'. specialize (Hk cs Hnd eq_refl).
    pose proof (finish_perm_shape s cs cs' Hg Hk) as Hs. rewrite Hc in Hs.
    destruct (finish s (state_of cs' init_state)) as [p'|] eqn:Ef'; [|contradiction].
    destruct Hs as (Hcol & Hts & Hlaps).
    exists p'. split; [exact Hc'|]. split; [exact Hcol|]. split; [exact Hts|].
    split; [exact Hlaps|].
    destruct (frames_by_tick_gathered _ _ _ _ Hnd Eg Hc0)
      as (gmin & gmax & Hmin & Hmax & Hlen & Hfr).
    destruct (frames_by_tick_gathered _ _ _ _ Hnd' Hgw Hc')
      as (gmin' & gmax' & Hmin' & Hmax' & Hlen' & Hfr').
    destruct (state_of_perm _ _ Hg) as (Emin & Emax & _).
    assert (gmin' = gmin) by congruence. assert (gmax' = gmax) by congruence. subst gmin' gmax'.
    pose proof (collect_perm with_trace _ _ Hg) as Ht. fold (traces cs) (traces cs') in Ht.
    assert (Hndt : NoDup (keys (traces cs))).
    { apply NoDup_keys_collect; [apply with_trace_key | exact Hk]. }
    destruct (resample_perm (make_timeline gmin gmax) gmin _ _ Ht Hndt) as (Hrp & Hrn).
    split; [congruence|]. split.
    + intros i f Hi.
      assert (Hlt : i < length (frames p')).
      { rewrite Hlen', <- Hlen. apply nth_error_Some. congruence. }
      destruct (nth_error (frames p') i) as [f'|] eqn:Hi';
        [|apply nth_error_None in Hi'; lia].
      exists f'. split; [reflexivity|].
      destruct (proj1 (Hfr i f) Hi) as (tick & Et & Hb).
      destruct (proj1 (Hfr' i f') Hi') as (tick' & Et' & Hb').
      assert (tick' = tick) by congruence. subst tick'.
      destruct (build_frame_some _ _ _ _ Hb) as (Hfd & Htf & _).
      destruct (build_frame_some _ _ _ _ Hb') as (Hfd' & Htf' & _).
      split; [congruence|]. split.
      * rewrite Hfd, Hfd', !without_position_ranked. apply Permutation_map.
        rewrite !sort_snapshot_perm. symmetry. now apply frame_drivers_at_perm.
      * intro Hfree.
        assert (E : build_frame
                      (resample (make_timeline gmin gmax) gmin (traces cs')) i tick
                    = build_frame
                        (resample (make_timeline gmin gmax) gmin (traces cs)) i tick).
        { apply build_frame_perm; [exact Hrp | exact Hrn|].
          intros f0 Hf0. rewrite Hb in Hf0. injection Hf0 as <-. exact Hfree. }
        congruence.
    + intro Hall.
      assert (E : finish s (state_of cs' init_state) = finish s (state_of cs init_state)).
      { apply finish_perm; [exact Hg | exact Hk|].
        intros p0 f0 Hp0 Hf0. rewrite Hc in Hp0. injection Hp0 as <-. now apply Hall. }
      congruence.
  - intros p f l1 n1 l2 n2 l3 a b Hc Hf Hd Ha Hb Hdist.
    pose proof Hc as Hc0. rewrite compute_finish in Hc.
    destruct (gather get_tyre_compound_int s (drivers s)) as [cs|e0] eqn:Eg;
      [|discriminate].
    destruct (frames_by_tick_gathered _ _ _ _ Hnd Eg Hc0)
      as (gmin & gmax & Hmin & Hmax & Hlen & Hfr).
    apply In_nth_error in Hf as (i & Hi).
    destruct (proj1 (Hfr i f) Hi) as (tick & Et & Hbf).
    destruct (build_frame_some _ _ _ _ Hbf) as (Hfd & _).
    rewrite Hfd in Ha, Hb.
    assert (Hin : forall c v, In (c, v) (ranked (sort_snapshot (frame_drivers_at
                     (resample (make_timeline gmin gmax) gmin (traces cs)) i))) ->
                  In c (keys (frame_drivers_at
                     (resample (make_timeline gmin gmax) gmin (traces cs)) i))).
    { intros c v Hv. apply (in_map fst) in Hv. fold (keys (ranked (sort_snapshot
        (frame_drivers_at (resample (make_timeline gmin gmax) gmin (traces cs)) i)))) in Hv.
      rewrite keys_ranked in Hv. unfold keys in *.
      eapply Permutation_in; [apply Permutation_map, sort_snapshot_perm | exact Hv]. }
    eapply level_drivers_keep_their_order; [apply NoDup_frame_drivers_at | | exact Ha | exact Hb | exact Hdist].
    eapply gathered_in_driver_order; [exact Hnd | exact Eg | | eapply Hin, Ha | eapply Hin, Hb].
    rewrite Hd. rewrite map_app. cbn [map]. rewrite map_app. cbn [map]. apply precedes_app.
Qed.

(** On the two-driver session, where VER leads NOR, with the drivers
    gone through in the other order. *)
Lemma order_insensitive_without_ties_witness :
  (forall e,
      compute_telemetry (fun _ => 1%Z) two_driver_session = Raise e ->
      compute_telemetry (fun _ => 1%Z)
                        (with_drivers two_driver_session ["2"; "1"]%string) = Raise e) /\
  (forall p,
      compute_telemetry (fun _ => 1%Z) two_driver_session = Ok p ->
      exists p',
        compute_telemetry (fun _ => 1%Z)
                          (with_drivers two_driver_session ["2"; "1"]%string) = Ok p' /\
        payload_driver_colors p' = payload_driver_colors p /\
        track_statuses p' = track_statuses p /\
        total_laps p' = total_laps p /\
        length (frames p') = length (frames p) /\
        (forall i f,
            nth_error (frames p) i = Some f ->
            exists f',
              nth_error (frames p') i = Some f' /\
              t f' = t f /\
              Permutation (map without_position (frame_data f'))
                          (map without_position (frame_data f)) /\
              (level_free f -> f' = f)) /\
        ((forall f, In f (frames p) -> level_free f) -> p' = p)) /\
  (forall p f l1 n1 l2 n2 l3 a b,
      compute_telemetry (fun _ => 1%Z) two_driver_session = Ok p -> In f (frames p) ->
      drivers two_driver_session = l1 ++ n1 :: l2 ++ n2 :: l3 ->
      In (driver_code two_driver_session n1, a) (frame_data f) ->
      In (driver_code two_driver_session n2, b) (frame_data f) ->
      dist a = dist b -> position a < position b).
Proof.
  apply (order_insensitive_without_ties (fun _ => 1%Z) two_driver_session
                                        ["2"; "1"]%string).
  - apply perm_swap.
  - cbn. repeat constructor; cbn; intuition discriminate.
Defined.

(** C6 as stated fails on the tied session: the two drivers are level in
    every frame, and the one gone through first is ranked first.  It also
    fails when two drivers share a code: the one gone through last keeps
    the entry. *)
Lemma driver_order_counterexample :
  Permutation (drivers tied_session) ["2"; "1"]%string /\
  first_frame_ranks (compute_telemetry (fun _ => 1%Z) tied_session)
  = [("1"%string, 1); ("2"%string, 2)] /\
  first_frame_ranks
    (compute_telemetry (fun _ => 1%Z) (with_drivers tied_session ["2"; "1"]%string))
  = [("2"%string, 1); ("1"%string, 2)] /\
  first_frame_dists (compute_telemetry (fun _ => 1%Z) shared_code_session)
  = [("XXX"%string, 5%Q)] /\
  first_frame_dists
    (compute_telemetry (fun _ => 1%Z)
                       (with_drivers shared_code_session ["2"; "1"]%string))
  = [("XXX"%string, 7%Q)].
Proof.
  split; [apply perm_swap|]. repeat split; vm_compute; reflexivity.
Qed.

(** ** The bounds and the shape of the timeline *)

Lemma fold_py_min_lower r v u : In u (v :: r) -> (fold_left py_min r v <= u)%Qc.
Proof.
  revert v. induction r as [|a r IH]; intros v [<-|Hin]; cbn.
  - apply Qcle_refl.
  - destruct Hin.
  - eapply Qcle_trans; [apply fold_py_min_le | apply py_min_le_l].
  - destruct Hin as [<-|Hin].
    + eapply Qcle_trans; [apply fold_py_min_le | apply py_min_le_r].
    + apply IH. now right.
Qed.

Lemma fold_py_max_upper r v u : In u (v :: r) -> (u <= fold_left py_max r v)%Qc.
Proof.
  revert v. induction r as [|a r IH]; intros v [<-|Hin]; cbn.
  - apply Qcle_refl.
  - destruct Hin.
  - eapply Qcle_trans; [apply py_max_ge_l | apply fold_py_max_ge].
  - destruct Hin as [<-|Hin].
    + eapply Qcle_trans; [apply py_max_ge_r | apply fold_py_max_ge].
    + apply IH. now right.
Qed.

Lemma py_min_cases a b : py_min a b = a \/ py_min a b = b.
Proof. unfold py_min. destruct (Qcltb b a); auto. Qed.

Lemma py_max_cases a b : py_max a b = a \/ py_max a b = b.
Proof. unfold py_max. destruct (Qcltb a b); auto. Qed.

Lemma fold_py_min_in r v : In (fold_left py_min r v) (v :: r).
Proof.
  revert v. induction r as [|a r IH]; intro v; cbn; [now left|].
  destruct (IH (py_min v a)) as [H|H]; [|now auto].
  rewrite <- H. destruct (py_min_cases v a) as [->| ->]; auto.
Qed.

Lemma fold_py_max_in r v : In (fold_left py_max r v) (v :: r).
Proof.
  revert v. induction r as [|a r IH]; intro v; cbn; [now left|].
  destruct (IH (py_max v a)) as [H|H]; [|now auto].
  rewrite <- H. destruct (py_max_cases v a) as [->| ->]; auto.
Qed.

Lemma arr_min_lower (a : list num) u : In u a -> (arr_min a <= u)%Qc.
Proof. destruct a as [|v r]; [easy|]. apply fold_py_min_lower. Qed.

Lemma arr_max_upper (a : list num) u : In u a -> (u <= arr_max a)%Qc.
Proof. destruct a as [|v r]; [easy|]. apply fold_py_max_upper. Qed.

Lemma arr_min_in (a : list num) : a <> [] -> In (arr_min a) a.
Proof. destruct a as [|v r]; [easy|]. intros _. apply fold_py_min_in. Qed.

Lemma arr_max_in (a : list num) : a <> [] -> In (arr_max a) a.
Proof. destruct a as [|v r]; [easy|]. intros _. apply fold_py_max_in. Qed.

(** What one turn of the loop over the drivers does to the bounds. *)
Lemma step_bounds tyre s a n a' :
  driver_step tyre s a n = Ok a' ->
  (exists m data,
      driver_outcome tyre s n = Ok (Some (m, Some data)) /\
      global_t_min a' = opt_min (global_t_min a) (arr_min (ch_t data)) /\
      global_t_max a' = opt_max (global_t_max a) (arr_max (ch_t data)) /\
      driver_data a' = dict_set (driver_code s n) data (driver_data a)) \/
  ((forall m data, driver_outcome tyre s n <> Ok (Some (m, Some data))) /\
   global_t_min a' = global_t_min a /\ global_t_max a' = global_t_max a /\
   driver_data a' = driver_data a).
Proof.
  unfold driver_step.
  destruct (driver_outcome tyre s n) as [[[m [data|]]|]|e]; cbn [bind]; intro H;
    try discriminate; injection H as <-.
  - left. exists m, data. repeat split.
  - right. repeat split. intros m0 d0. discriminate.
  - right. repeat split. intros m0 d0. discriminate.
Qed.

Lemma extract_steps tyre s :
  extract tyre s = foldM (driver_step tyre s) (drivers s) init_state.
Proof. apply extract_absorb. Qed.

Lemma opt_min_le g v a : opt_min g v = Some a -> (a <= v)%Qc.
Proof.
  unfold opt_min. intros [= <-]. destruct g; [apply py_min_le_r | apply Qcle_refl].
Qed.

Lemma opt_max_ge g v b : opt_max g v = Some b -> (v <= b)%Qc.
Proof.
  unfold opt_max. intros [= <-]. destruct g; [apply py_max_ge_r | apply Qcle_refl].
Qed.

Lemma opt_min_below g v a a' : g = Some a -> opt_min g v = Some a' -> (a' <= a)%Qc.
Proof. intros ->. unfold opt_min. intros [= <-]. apply py_min_le_l. Qed.

Lemma opt_max_above g v b b' : g = Some b -> opt_max g v = Some b' -> (b <= b')%Qc.
Proof. intros ->. unfold opt_max. intros [= <-]. apply py_max_ge_l. Qed.

(** The bounds enclose the times of every trace that is produced. *)
Lemma bounds_enclose tyre s st gmin gmax data v :
  extract tyre s = Ok st ->
  global_t_min st = Some gmin -> global_t_max st = Some gmax ->
  produced tyre s data -> In v (ch_t data) -> (gmin <= v)%Qc /\ (v <= gmax)%Qc.
Proof.
  intros He Hmin Hmax (n & m & Hn & Ho) Hv. rewrite extract_steps in He.
  set (Q := fun (n : string) (st0 : extract_state) =>
              forall m data v,
                driver_outcome tyre s n = Ok (Some (m, Some data)) ->
                In v (ch_t data) ->
                exists a b, global_t_min st0 = Some a /\ global_t_max st0 = Some b /\
                            (a <= v)%Qc /\ (v <= b)%Qc).
  assert (Hnew : forall a n a', driver_step tyre s a n = Ok a' -> Q n a').
  { clear. intros a n a' Hstep m data v Ho Hv.
    destruct (step_bounds _ _ _ _ _ Hstep) as [(m0 & d0 & Ho' & Emin & Emax & _)|[Hno _]];
      [|now destruct (Hno m data)].
    rewrite Ho in Ho'. injection Ho' as <- <-.
    exists (match global_t_min a with None => arr_min (ch_t data)
                                 | Some g => py_min g (arr_min (ch_t data)) end),
           (match global_t_max a with None => arr_max (ch_t data)
                                 | Some g => py_max g (arr_max (ch_t data)) end).
    repeat split; try assumption.
    + apply Qcle_trans with (arr_min (ch_t data)); [|now apply arr_min_lower].
      eapply opt_min_le. reflexivity.
    + apply Qcle_trans with (arr_max (ch_t data)); [now apply arr_max_upper|].
      eapply opt_max_ge. reflexivity. }
  assert (Hkeep : forall a n n' a', Q n' a -> driver_step tyre s a n = Ok a' -> Q n' a').
  { clear. intros a n n' a' Hq Hstep m data v Ho Hv.
    destruct (Hq m data v Ho Hv) as (x & y & Ex & Ey & H1 & H2).
    destruct (step_bounds _ _ _ _ _ Hstep)
      as [(m0 & d0 & _ & Emin & Emax & _)|(_ & Emin & Emax & _)].
    + exists (py_min x (arr_min (ch_t d0))), (py_max y (arr_max (ch_t d0))).
      rewrite Emin, Emax, Ex, Ey. repeat split.
      * eapply Qcle_trans; [apply py_min_le_l | exact H1].
      * eapply Qcle_trans; [exact H2 | apply py_max_ge_l].
    + exists x, y. rewrite Emin, Emax. auto. }
  destruct (foldM_covers Q _ _ _ _ Hnew Hkeep He n Hn m data v Ho Hv)
    as (a & b & Ea & Eb & H1 & H2).
  rewrite Hmin in Ea. rewrite Hmax in Eb. injection Ea as <-. injection Eb as <-. auto.
Qed.

(** Each bound is a time of a trace that is produced, and every retained
    trace is one. *)
Lemma bounds_attained tyre s st :
  extract tyre s = Ok st ->
  (forall gmin, global_t_min st = Some gmin ->
                exists data, produced tyre s data /\ In gmin (ch_t data)) /\
  (forall gmax, global_t_max st = Some gmax ->
                exists data, produced tyre s data /\ In gmax (ch_t data)) /\
  (forall code data, In (code, data) (driver_data st) -> produced tyre s data).
Proof.
  rewrite extract_steps.
  apply (foldM_invariant_in
           (fun st0 =>
              (forall gmin, global_t_min st0 = Some gmin ->
                            exists data, produced tyre s data /\ In gmin (ch_t data)) /\
              (forall gmax, global_t_max st0 = Some gmax ->
                            exists data, produced tyre s data /\ In gmax (ch_t data)) /\
              (forall code data, In (code, data) (driver_data st0) ->
                                 produced tyre s data))).
  - intros a n a' Hn (Hmin & Hmax & Hdd) Hstep.
    destruct (step_bounds _ _ _ _ _ Hstep)
      as [(m & d & Ho & Emin & Emax & Edd)|(_ & Emin & Emax & Edd)].
    + assert (Hp : produced tyre s d) by (exists n, m; auto).
      destruct (driver_outcome_trace _ _ _ _ _ Ho) as (_ & Hne & _).
      split; [|split].
      * intros g Hg. rewrite Emin in Hg. unfold opt_min in Hg. injection Hg as <-.
        destruct (global_t_min a) as [g0|]; [|exists d; split; [exact Hp | now apply arr_min_in]].
        destruct (py_min_cases g0 (arr_min (ch_t d))) as [-> | ->];
          [now apply Hmin | exists d; split; [exact Hp | now apply arr_min_in]].
      * intros g Hg. rewrite Emax in Hg. unfold opt_max in Hg. injection Hg as <-.
        destruct (global_t_max a) as [g0|]; [|exists d; split; [exact Hp | now apply arr_max_in]].
        destruct (py_max_cases g0 (arr_max (ch_t d))) as [-> | ->];
          [now apply Hmax | exists d; split; [exact Hp | now apply arr_max_in]].
      * intros code data Hin. rewrite Edd in Hin. apply in_dict_set in Hin.
        destruct Hin as [[= _ <-]|Hin]; [exact Hp | eapply Hdd, Hin].
    + rewrite Emin, Emax, Edd. auto.
  - cbn. repeat split; try discriminate. intros code data [].
Qed.

(** C3, as the code has it.  [global_t_min] and [global_t_max] are the
    least and the greatest sample time over the traces of all the listed
    drivers that produce one, a trace that is later replaced under its
    code included.  The timeline is [np.arange] on doubles, shifted: [DT]
    is the double nearest to 1/25; the number of instants is the ceiling
    of [((global_t_max + DT) - global_t_min) / DT], every operation
    rounded, and there is an instant as soon as [global_t_max] is at most
    2^45 in size; the first instant is 0, the second is
    [(global_t_min + DT) - global_t_min], and instant [i] is
    [(global_t_min + i * delta) - global_t_min] with [delta] the second
    instant before the shift, every operation rounded. *)
Theorem timeline_shape
        (get_tyre_compound_int : string -> Z) (s : session) (st : extract_state)
        (gmin gmax : num) :
  extract get_tyre_compound_int s = Ok st ->
  global_t_min st = Some gmin -> global_t_max st = Some gmax ->
  let timeline := make_timeline gmin gmax in
  let delta := fsub (fadd gmin DT) gmin in
  (forall data v, produced get_tyre_compound_int s data -> In v (ch_t data) ->
                  (gmin <= v)%Qc /\ (v <= gmax)%Qc) /\
  (exists data, produced get_tyre_compound_int s data /\ In gmin (ch_t data)) /\
  (exists data, produced get_tyre_compound_int s data /\ In gmax (ch_t data)) /\
  (forall code data, In (code, data) (driver_data st) ->
                     produced get_tyre_compound_int s data) /\
  DT = fl (Q2Qc (1 # 25)) /\
  DT = Q2Qc (5764607523034235 # 144115188075855872) /\
  length timeline = Z.to_nat (Qceiling (fdiv (fsub (fadd gmax DT) gmin) DT)) /\
  ((- of_Z (2 ^ 45) <= gmax)%Qc -> (gmax <= of_Z (2 ^ 45))%Qc -> 1 <= length timeline) /\
  (1 <= length timeline -> nth_error timeline 0 = Some 0%Qc) /\
  (2 <= length timeline -> nth_error timeline 1 = Some delta) /\
  (forall i, 2 <= i < length timeline ->
             nth_error timeline i
             = Some (fsub (fadd gmin (fmul (of_Z (Z.of_nat i)) delta)) gmin)).
Proof.
  intros He Hmin Hmax timeline delta.
  destruct (bounds_attained _ _ _ He) as (Ha & Hb & Hdd).
  assert (Hle : (gmin <= gmax)%Qc).
  { pose proof (extract_bounds_ok _ _ _ He) as H. unfold bounds_ok in H.
    rewrite Hmin, Hmax in H. tauto. }
  split; [|split; [|split; [|split; [|split; [|split; [|split; [|split; [|split; [|split]]]]]]]]].
  - intros data v. now apply bounds_enclose with (st := st).
  - now apply Ha.
  - now apply Hb.
  - exact Hdd.
  - apply Qc_is_canon. reflexivity.
  - apply DT_value.
  - apply length_make_timeline.
  - intros Hlo Hhi. now apply make_timeline_nonempty.
  - apply make_timeline_head.
  - subst timeline delta. intro H. now rewrite nth_make_timeline by lia.
  - subst timeline delta. intros i Hi. rewrite nth_make_timeline by lia.
    destruct i as [|[|i]]; [lia | lia | reflexivity].
Qed.

(** The single-sample session: its one sample, at time 0, is both bounds
    and its timeline has the one instant 0. *)
Lemma timeline_shape_witness :
  extract (fun _ => 1%Z) single_sample_session = Ok single_sample_state /\
  (forall data v, produced (fun _ => 1%Z) single_sample_session data -> In v (ch_t data) ->
                  (of_Z 0 <= v)%Qc /\ (v <= of_Z 0)%Qc) /\
  length (make_timeline (of_Z 0) (of_Z 0))
  = Z.to_nat (Qceiling (fdiv (fsub (fadd (of_Z 0) DT) (of_Z 0)) DT)) /\
  (1 <= length (make_timeline (of_Z 0) (of_Z 0)) ->
   nth_error (make_timeline (of_Z 0) (of_Z 0)) 0 = Some 0%Qc).
Proof.
  assert (He : extract (fun _ => 1%Z) single_sample_session = Ok single_sample_state)
    by (vm_compute; reflexivity).
  split; [exact He|].
  destruct (timeline_shape (fun _ => 1%Z) single_sample_session single_sample_state
                           (of_Z 0) (of_Z 0) He eq_refl eq_refl)
    as (H1 & _ & _ & _ & _ & _ & H2 & _ & H3 & _).
  split; [exact H1|]. split; [exact H2 | exact H3].
Defined.

(** C3 as stated fails on the single-sample session: one retained driver,
    [global_min = global_max = 0], a timeline of one instant, where
    [floor(0 / dt) + 2] is two.  And when two drivers share a code the
    bounds are not those of the retained traces: the trace that stays
    runs from 5 to 6, the bounds are 0 and 6. *)
Lemma timeline_length_counterexample :
  extract (fun _ => 1%Z) single_sample_session = Ok single_sample_state /\
  keys (driver_data single_sample_state) = ["HAM"%string] /\
  global_t_min single_sample_state = Some (of_Z 0) /\
  global_t_max single_sample_state = Some (of_Z 0) /\
  length (make_timeline (of_Z 0) (of_Z 0)) = 1 /\
  length (make_timeline (of_Z 0) (of_Z 0))
  <> Z.to_nat (Qfloor ((of_Z 0 - of_Z 0) / DT)%Qc) + 2 /\
  match extract (fun _ => 1%Z) replaced_trace_session with
  | Ok st =>
      map (fun cd => ch_t (snd cd)) (driver_data st) = [ints [5; 6]%Z] /\
      global_t_min st = Some (of_Z 0) /\ global_t_max st = Some (of_Z 6)
  | Raise _ => False
  end.
Proof.
  split; [vm_compute; reflexivity|].
  split; [reflexivity|]. split; [reflexivity|]. split; [reflexivity|].
  split; [now vm_compute|]. split; [now vm_compute|].
  vm_compute. repeat split.
Qed.

Lemma length_5 : length (make_timeline (of_Z 5) (of_Z 5)) = 2.
Proof. now vm_compute. Qed.

(** The length of the timeline is not a function of the span, and its
    instants are not the multiples of 1/25.  One sample at 5 s gives two
    instants, the second one above 0.04; samples at 63 s and 64 s give 27
    instants where exact arithmetic gives 26; with samples at 16 s and
    17 s the last instant stays below 1, the time of the last sample. *)
Lemma timeline_on_doubles :
  length (make_timeline (of_Z 5) (of_Z 5)) = 2 /\
  nth_error (make_timeline (of_Z 5) (of_Z 5)) 1
  = Some (Q2Qc (5764607523034240 # 144115188075855872)) /\
  length (make_timeline (of_Z 63) (of_Z 64)) = 27 /\
  Z.to_nat (Qceiling ((of_Z 64 + Q2Qc (1 # 25) - of_Z 63) / Q2Qc (1 # 25))%Qc) = 26 /\
  (last (make_timeline (of_Z 16) (of_Z 17)) 0%Qc < of_Z 17 - of_Z 16)%Qc.
Proof.
  split; [now vm_compute|]. split; [|split; [now vm_compute|split; [now vm_compute|]]].
  - rewrite nth_make_timeline by (rewrite length_5; lia).
    f_equal; try (apply Qc_is_canon; now vm_compute).
  - now vm_compute.
Qed.

(** ** The lap count *)

Lemma fold_max_ge (r : list Z) (v : Z) : (v <= fold_left Z.max r v)%Z.
Proof.
  revert v. induction r as [|a r IH]; intro v; cbn; [lia|].
  specialize (IH (Z.max v a)). lia.
Qed.

Lemma fold_max_upper (r : list Z) (v u : Z) :
  In u (v :: r) -> (u <= fold_left Z.max r v)%Z.
Proof.
  revert v. induction r as [|a r IH]; intros v [<-|Hin]; cbn.
  - lia.
  - destruct Hin.
  - pose proof (fold_max_ge r (Z.max v a)). lia.
  - destruct Hin as [<-|Hin].
    + pose proof (fold_max_ge r (Z.max v a)). lia.
    + apply IH. now right.
Qed.

Lemma fold_max_in (r : list Z) (v : Z) : In (fold_left Z.max r v) (v :: r).
Proof.
  revert v. induction r as [|a r IH]; intro v; cbn; [now left|].
  destruct (IH (Z.max v a)) as [H|H].
  - rewrite <- H. destruct (Z.max_spec v a) as [[_ ->]|[_ ->]]; auto.
  - auto.
Qed.

Lemma LapNumber_max_upper laps l :
  In l laps -> (LapNumber l <= LapNumber_max laps)%Z.
Proof.
  intro H. unfold LapNumber_max.
  apply (in_map LapNumber) in H.
  destruct (map LapNumber laps) as [|n r]; [destruct H|].
  now apply fold_max_upper.
Qed.

Lemma LapNumber_max_in laps :
  laps <> [] -> exists l, In l laps /\ LapNumber l = LapNumber_max laps.
Proof.
  intro Hne. unfold LapNumber_max.
  pose proof (in_map_iff LapNumber laps) as Hm.
  destruct (map LapNumber laps) as [|n r] eqn:E.
  - destruct laps; [congruence | discriminate].
  - destruct (proj1 (Hm _) (fold_max_in r n)) as (l & Hl & Hin). eauto.
Qed.

Lemma driver_outcome_laps tyre s n o :
  driver_outcome tyre s n = Ok o ->
  match pick_drivers s n with
  | Some (l :: laps) => exists tr, o = Some (LapNumber_max (l :: laps), tr)
  | _ => o = None
  end.
Proof.
  unfold driver_outcome. destruct (pick_drivers s n) as [[|l laps]|]; try congruence.
  destruct (process_laps tyre (l :: laps)) as [r|e]; cbn; [|discriminate].
  intros [= <-]. eauto.
Qed.

Lemma max_lap_number_absorb st code m tr :
  max_lap_number (absorb st code (Some (m, tr))) = Z.max (max_lap_number st) m.
Proof. unfold absorb. now destruct tr. Qed.

Lemma max_lap_number_step tyre s a b a' :
  (o <- driver_outcome tyre s b ;; Ok (absorb a (driver_code s b) o)) = Ok a' ->
  match pick_drivers s b with
  | Some (l :: laps) =>
      max_lap_number a' = Z.max (max_lap_number a) (LapNumber_max (l :: laps))
  | _ => max_lap_number a' = max_lap_number a
  end.
Proof.
  destruct (driver_outcome tyre s b) as [o|e] eqn:Eo; [|discriminate].
  apply driver_outcome_laps in Eo. unfold bind. intro H.
  assert (E : a' = absorb a (driver_code s b) o) by congruence. clear H.
  destruct (pick_drivers s b) as [[|l laps]|].
  - now subst.
  - destruct Eo as (tr & ->). subst a'. apply max_lap_number_absorb.
  - now subst.
Qed.

(** X5.  The lap count of a payload is the highest lap number in the lap
    tables of the listed drivers, whether or not any telemetry came with
    those laps, and 0 when no number is positive: it is not negative, no
    lap of a listed driver has a higher number, and it is 0 or the number
    of one of these laps. *)
Theorem total_laps_is_highest_lap_number
        (get_tyre_compound_int : string -> Z) (s : session) (p : payload) :
  compute_telemetry get_tyre_compound_int s = Ok p ->
  (0 <= total_laps p)%Z /\
  (forall n laps l,
      In n (drivers s) -> pick_drivers s n = Some laps -> In l laps ->
      (LapNumber l <= total_laps p)%Z) /\
  (total_laps p = 0%Z \/
   exists n laps l,
     In n (drivers s) /\ pick_drivers s n = Some laps /\ In l laps /\
     LapNumber l = total_laps p).
Proof.
  intro Hp.
  destruct (compute_frames _ _ _ Hp) as (st & gmin & gmax & He & _ & _ & _ & _ & _ & _ & ->).
  rewrite extract_absorb in He.
  split; [|split].
  - revert He. apply (foldM_invariant (fun st0 => (0 <= max_lap_number st0)%Z)).
    + intros a n a' Ha Hstep. apply max_lap_number_step in Hstep.
      destruct (pick_drivers s n) as [[|l laps]|]; lia.
    + cbn. lia.
  - intros n laps l Hn Hl Hin.
    refine (foldM_covers
              (fun n st0 => forall laps l, pick_drivers s n = Some laps -> In l laps ->
                                           (LapNumber l <= max_lap_number st0)%Z)
              _ _ _ _ _ _ He n Hn laps l Hl Hin).
    + intros a b a' Hstep laps0 l0 Hl0 Hin0.
      apply max_lap_number_step in Hstep. rewrite Hl0 in Hstep.
      destruct laps0 as [|l1 laps1]; [destruct Hin0|].
      pose proof (LapNumber_max_upper _ _ Hin0). lia.
    + intros a b b' a' Hq Hstep laps0 l0 Hl0 Hin0.
      specialize (Hq laps0 l0 Hl0 Hin0). apply max_lap_number_step in Hstep.
      destruct (pick_drivers s b) as [[|l1 laps1]|]; lia.
  - revert He.
    apply (foldM_invariant_in
             (fun st0 => max_lap_number st0 = 0%Z \/
                         exists n laps l,
                           In n (drivers s) /\ pick_drivers s n = Some laps /\
                           In l laps /\ LapNumber l = max_lap_number st0)).
    + intros a b a' Hb Ha Hstep. apply max_lap_number_step in Hstep.
      destruct (pick_drivers s b) as [[|l1 laps1]|] eqn:El;
        try (rewrite Hstep; exact Ha).
      rewrite Hstep.
      destruct (Z.max_spec (max_lap_number a) (LapNumber_max (l1 :: laps1)))
        as [[_ ->]|[_ ->]]; [|exact Ha].
      right. destruct (LapNumber_max_in (l1 :: laps1)) as (l & Hl & E); [discriminate|].
      exists b, (l1 :: laps1), l. auto.
    + now left.
Qed.

Lemma total_laps_is_highest_lap_number_witness :
  (0 <= total_laps two_driver_payload)%Z /\
  (forall n laps l,
      In n (drivers two_driver_session) -> pick_drivers two_driver_session n = Some laps ->
      In l laps -> (LapNumber l <= total_laps two_driver_payload)%Z) /\
  (total_laps two_driver_payload = 0%Z \/
   exists n laps l,
     In n (drivers two_driver_session) /\ pick_drivers two_driver_session n = Some laps /\
     In l laps /\ LapNumber l = total_laps two_driver_payload).
Proof.
  apply (total_laps_is_highest_lap_number (fun _ => 1%Z)).
  apply two_driver_payload_computed.
Defined.

(** ** The leader of a frame *)

Lemma ranked_cons (a : string * sample) l :
  exists rest, ranked (a :: l) = (fst a, car_of 0 (snd a)) :: rest.
Proof. unfold ranked, enumerate. cbn. eauto. Qed.

Lemma sorted_head_leads (a : string * sample) l b :
  StronglySorted (fun p q => (s_dist (snd q) <= s_dist (snd p))%Qc) (a :: l) ->
  In b (a :: l) -> (s_dist (snd b) <= s_dist (snd a))%Qc.
Proof.
  intros Hs [<-|Hb]; [apply Qcle_refl|].
  apply StronglySorted_inv in Hs as [_ Hf].
  rewrite Forall_forall in Hf. now apply Hf.
Qed.

(** X6.  Every frame has a first driver: it holds position 1, the lap of
    the frame is its lap, and no driver of the frame has covered more
    distance. *)
Theorem leader_heads_the_frame
        (get_tyre_compound_int : string -> Z) (s : session) (p : payload) (f : frame) :
  compute_telemetry get_tyre_compound_int s = Ok p -> In f (frames p) ->
  exists code leader rest,
    frame_data f = (code, leader) :: rest /\
    position leader = 1 /\
    leader_lap f = lap_no leader /\
    forall c a, In (c, a) (frame_data f) -> (dist a <= dist leader)%Qc.
Proof.
  intros Hp Hf.
  destruct (compute_frames _ _ _ Hp) as (st & gmin & gmax & _ & _ & _ & _ & Hfr & _).
  rewrite Hfr in Hf. apply in_build_frames in Hf as (i & tick & _ & Hb).
  destruct (build_frame_some _ _ _ _ Hb) as (Hd & _ & _ & Hne & Hl).
  pose proof (sort_snapshot_sorted
                (frame_drivers_at (resample (make_timeline gmin gmax) gmin (driver_data st)) i))
    as Hs.
  destruct (sort_snapshot _) as [|a l]; [now destruct Hne|].
  destruct (ranked_cons a l) as (rest & Hr).
  exists (fst a), (car_of 0 (snd a)), rest.
  rewrite Hd. repeat split.
  - exact Hr.
  - exact Hl.
  - intros c b Hin. apply in_ranked in Hin as (k & sm & Hk & ->).
    apply nth_error_In in Hk.
    apply (sorted_head_leads a l (c, sm) Hs Hk).
Qed.

Lemma leader_heads_the_frame_witness :
  exists code leader rest,
    frame_data two_driver_frame = (code, leader) :: rest /\
    position leader = 1 /\
    leader_lap two_driver_frame = lap_no leader /\
    forall c a, In (c, a) (frame_data two_driver_frame) -> (dist a <= dist leader)%Qc.
Proof.
  apply (leader_heads_the_frame (fun _ => 1%Z) two_driver_session two_driver_payload).
  - apply two_driver_payload_computed.
  - left. reflexivity.
Defined.

(** ** Intervals that run forward *)

Lemma chained_forward l :
  chained l ->
  (forall a e, In a l -> end_time a = Some e -> (start_time a <= e)%Qc)
  <-> Sorted Qcle (map start_time l).
Proof.
  induction l as [|a [|b l] IH]; intro H.
  - split; [constructor | intros _ a e []].
  - cbn in H. split.
    + intros _. repeat constructor.
    + intros _ c e [<-|[]] He. congruence.
  - destruct H as [Ha Hl]. specialize (IH Hl). split.
    + intro Hf. cbn [map]. constructor.
      * apply IH. intros c e Hc. apply Hf. now right.
      * constructor. apply (Hf a (start_time b)); [now left | exact Ha].
    + intros Hs c e [<-|Hc] He.
      * cbn [map] in Hs. apply Sorted_inv in Hs as [_ Hhd].
        apply HdRel_inv in Hhd. congruence.
      * cbn [map] in Hs. apply Sorted_inv in Hs as [Hs _].
        apply (proj2 IH Hs c e Hc He).
Qed.

Lemma Sorted_shift (g : num) (l : list num) :
  Sorted Qcle (map (fun v => (v - g)%Qc) l) <-> Sorted Qcle l.
Proof.
  induction l as [|a l IH]; [split; constructor|].
  cbn [map]. split; intro H; apply Sorted_inv in H as [Hs Hhd]; constructor;
    try (now apply IH).
  - destruct l as [|b l]; constructor. apply HdRel_inv in Hhd. qc2q. lra.
  - destruct l as [|b l]; constructor. apply HdRel_inv in Hhd. qc2q. lra.
Qed.

(** X7.  No interval ends before it starts exactly when the rows that are
    read come in time order: the loop neither sorts the log nor checks
    it. *)
Theorem intervals_run_forward_iff_log_in_order
        (global_t_min : num) (rows : list status_row) :
  (forall a e,
      In a (format_track_statuses global_t_min (Some rows)) ->
      end_time a = Some e -> (start_time a <= e)%Qc)
  <-> Sorted Qcle (map snd (usable_rows rows)).
Proof.
  unfold format_track_statuses.
  destruct (status_loop_spec global_t_min rows [] I) as (H1 & H2 & _).
  rewrite (chained_forward _ H1), H2. cbn [map app].
  rewrite <- (Sorted_shift global_t_min (map snd (usable_rows rows))).
  now rewrite map_map.
Qed.

(** ** The distance over the race *)

Lemma StronglySorted_append {A} (R : A -> A -> Prop) l1 l2 :
  StronglySorted R l1 -> StronglySorted R l2 ->
  (forall a b, In a l1 -> In b l2 -> R a b) ->
  StronglySorted R (l1 ++ l2).
Proof.
  intros H1 H2 H. induction l1 as [|a l1 IH]; [exact H2|].
  apply StronglySorted_inv in H1 as [Hs Hf]. cbn. constructor.
  - apply IH; [exact Hs|]. intros x y Hx. apply H. now right.
  - apply Forall_app. split; [exact Hf|].
    apply Forall_forall. intros y Hy. apply H; [now left | exact Hy].
Qed.

Lemma StronglySorted_shift (g : num) (l : list num) :
  StronglySorted Qcle l -> StronglySorted Qcle (map (Qcplus g) l).
Proof.
  intro H. apply StronglySorted_map.
  refine (StronglySorted_weaken _ _ _ _ H). intros a b Hab. qc2q. lra.
Qed.

Lemma last_default {A} (l : list A) (d d' : A) : l <> [] -> last l d = last l d'.
Proof.
  induction l as [|a [|b l] IH]; intro H; [congruence | reflexivity |].
  change (last (a :: b :: l) d) with (last (b :: l) d).
  change (last (a :: b :: l) d') with (last (b :: l) d'). now apply IH.
Qed.

Lemma process_lap_dist tyre parts total l st' :
  process_lap tyre (parts, total) l = Ok st' ->
  match usable_telemetry l with
  | Some lap_tel =>
      ch_dist (fst st') = ch_dist parts ++ [map (Qcplus total) (Distance lap_tel)] /\
      snd st' = last (map (Qcplus total) (Distance lap_tel)) total
  | None => st' = (parts, total)
  end.
Proof.
  destruct (usable_telemetry l) as [lap_tel|] eqn:Eu.
  - destruct (complete lap_tel) eqn:Ec.
    + unfold complete in Ec.
      destruct (speed_column lap_tel) as [sp|] eqn:E1; [|discriminate].
      destruct (nGear lap_tel) as [g|] eqn:E2; [|discriminate].
      destruct (DRS lap_tel) as [d|] eqn:E3; [|discriminate].
      pose proof (process_lap_complete tyre parts total l lap_tel sp g d Eu E1 E2 E3) as Hc.
      cbv zeta in Hc. intro Hs. pose proof (eq_trans (eq_sym Hs) Hc) as E.
      injection E as ->. cbn [fst snd ch_dist]. auto.
    + rewrite (process_lap_incomplete tyre _ _ _ Eu Ec). discriminate.
  - rewrite (process_lap_skip tyre _ _ Eu). congruence.
Qed.

(** X8.  When the distance column of every lap that is read counts up from
    a non-negative value, the distances gathered over the laps never go
    down, also from one lap to the next, none is negative, and the running
    offset bounds them all. *)
Theorem race_distance_never_decreases
        (get_tyre_compound_int : string -> Z) (laps_driver : list lap)
        (st : parts_t * num) :
  process_laps get_tyre_compound_int laps_driver = Ok st ->
  distances_count_up laps_driver ->
  StronglySorted Qcle (concat (ch_dist (fst st))) /\
  (forall v, In v (concat (ch_dist (fst st))) -> (0 <= v)%Qc /\ (v <= snd st)%Qc) /\
  (0 <= snd st)%Qc.
Proof.
  intros Hp Hup. unfold process_laps in Hp. revert Hp.
  apply (foldM_invariant_in
           (fun st0 : parts_t * num =>
              StronglySorted Qcle (concat (ch_dist (fst st0))) /\
              (forall v, In v (concat (ch_dist (fst st0))) ->
                         (0 <= v)%Qc /\ (v <= snd st0)%Qc) /\
              (0 <= snd st0)%Qc)).
  - intros [parts total] l st' Hl (Hs & Hb & H0) Hstep. cbn [fst snd] in *.
    apply process_lap_dist in Hstep.
    destruct (usable_telemetry l) as [lap_tel|] eqn:Eu; [|subst st'; cbn; auto].
    destruct Hstep as [-> ->].
    destruct (Hup l lap_tel Hl Eu) as [Hd Hnn]. rewrite Forall_forall in Hnn.
    set (new := map (Qcplus total) (Distance lap_tel)) in *.
    assert (Hsn : StronglySorted Qcle new) by now apply StronglySorted_shift.
    assert (Hlow : forall v, In v new -> (total <= v)%Qc).
    { intros v Hv. apply in_map_iff in Hv as (d & <- & Hin).
      specialize (Hnn d Hin). qc2q. lra. }
    assert (Hhigh : forall v, In v new -> (v <= last new total)%Qc).
    { intros v Hv. rewrite (last_default new total 0%Qc).
      - now apply StronglySorted_last_max.
      - intro E. rewrite E in Hv. destruct Hv. }
    assert (Hlast : (total <= last new total)%Qc).
    { destruct new as [|w r] eqn:E; [apply Qcle_refl|].
      apply Qcle_trans with w; [apply Hlow | apply Hhigh]; now left. }
    rewrite concat_app. cbn [concat]. rewrite app_nil_r.
    split; [|split].
    + apply StronglySorted_append; try assumption.
      intros a b Ha Hb'. apply Qcle_trans with total; [apply Hb, Ha | apply Hlow, Hb'].
    + intros v Hv. apply in_app_or in Hv as [Hv|Hv].
      * destruct (Hb v Hv) as [Hv0 Hv1]. split; [exact Hv0|].
        now apply Qcle_trans with total.
      * split; [|now apply Hhigh].
        apply Qcle_trans with total; [exact H0 | now apply Hlow].
    + now apply Qcle_trans with total.
  - cbn. split; [constructor|]. split; [intros v []|apply Qcle_refl].
Qed.

Lemma race_distance_never_decreases_witness :
  StronglySorted Qcle (concat (ints [0; 10]%Z :: ints [10; 15]%Z :: nil)) /\
  (forall v, In v (concat (ints [0; 10]%Z :: ints [10; 15]%Z :: nil)) ->
             (0 <= v)%Qc /\ (v <= of_Z 15)%Qc) /\
  (0 <= of_Z 15)%Qc.
Proof.
  apply (race_distance_never_decreases (fun _ => 1%Z) [lap_A; lap_B]
           ({| ch_t := [ints [0; 1]%Z; ints [2; 3]%Z];
               ch_x := [ints [0; 3]%Z; ints [0; 3]%Z];
               ch_y := [ints [0; 4]%Z; ints [0; 4]%Z];
               ch_dist := [ints [0; 10]%Z; ints [10; 15]%Z];
               ch_rel_dist := [[of_Z 0; Q2Qc (1 # 2)]; [of_Z 0; Q2Qc (1 # 2)]];
               ch_lap := [ints [1; 1]%Z; ints [2; 2]%Z];
               ch_tyre := [ints [1; 1]%Z; ints [1; 1]%Z];
               ch_speed := [ints [200; 210]%Z; ints [200; 210]%Z];
               ch_gear := [ints [6; 7]%Z; ints [6; 7]%Z];
               ch_drs := [ints [0; 1]%Z; ints [0; 1]%Z] |}, of_Z 15)).
  - vm_compute. reflexivity.
  - intros l lap_tel [<-|[<-|[]]] [= <-]; split;
      repeat (constructor; try (now vm_compute)).
Defined.

(** ** The name of the cache file *)

Lemma safe_replace_unsafe c : safe_char (replace_unsafe c) = true.
Proof. unfold replace_unsafe. destruct (safe_char c) eqn:E; [exact E | reflexivity]. Qed.

Lemma replace_unsafe_safe c : safe_char c = true -> replace_unsafe c = c.
Proof. unfold replace_unsafe. now intros ->. Qed.

Lemma slice_to_nonneg {A} (l : list A) n : (0 <= n)%Z -> slice_to l n = firstn (Z.to_nat n) l.
Proof. intro H. unfold slice_to. destruct (Z.ltb_spec n 0); [lia | reflexivity]. Qed.

Lemma slice_to_prefix {A} (l : list A) n : exists k, slice_to l n = firstn k l.
Proof. unfold slice_to. destruct (n <? 0)%Z; eauto. Qed.

Lemma nth_error_firstn_some {A} k (l : list A) i a :
  nth_error (firstn k l) i = Some a -> nth_error l i = Some a.
Proof.
  revert l i. induction k as [|k IH]; intros [|b l] [|i]; cbn; try discriminate; auto.
Qed.

Lemma Forall_firstn_of {A} (P : A -> Prop) k (l : list A) :
  Forall P l -> Forall P (firstn k l).
Proof.
  intro H. revert k. induction H as [|a l Ha Hl IH]; intros [|k]; cbn; constructor; auto.
Qed.

Lemma map_replace_safe name :
  Forall (fun c => safe_char c = true) name -> map replace_unsafe name = name.
Proof.
  induction 1 as [|c l Hc Hl IH]; [reflexivity|].
  cbn. now rewrite IH, replace_unsafe_safe.
Qed.

Lemma sanitize_safe name max_len :
  Forall (fun c => safe_char c = true) (_sanitize_filename name max_len).
Proof.
  unfold _sanitize_filename. fold replace_unsafe.
  destruct (slice_to_prefix (map replace_unsafe name) max_len) as (k & ->).
  apply Forall_firstn_of, Forall_forall. intros c Hc.
  apply in_map_iff in Hc as (c0 & <- & _). apply safe_replace_unsafe.
Qed.

Lemma sanitize_nonneg name max_len :
  (0 <= max_len)%Z ->
  _sanitize_filename name max_len = firstn (Z.to_nat max_len) (map replace_unsafe name).
Proof. intro H. unfold _sanitize_filename. now rewrite slice_to_nonneg. Qed.

Lemma sanitize_fixed name max_len :
  (0 <= max_len)%Z ->
  Forall (fun c => safe_char c = true) name -> length name <= Z.to_nat max_len ->
  _sanitize_filename name max_len = name.
Proof.
  intros H Hs Hl. rewrite sanitize_nonneg, map_replace_safe by assumption.
  now apply firstn_all2.
Qed.

Lemma sanitize_length name max_len :
  (0 <= max_len)%Z ->
  length (_sanitize_filename name max_len) = Nat.min (Z.to_nat max_len) (length name).
Proof. intro H. now rewrite sanitize_nonneg, length_firstn, length_map. Qed.

Lemma sanitize_idempotent name max_len :
  (0 <= max_len)%Z ->
  _sanitize_filename (_sanitize_filename name max_len) max_len
  = _sanitize_filename name max_len.
Proof.
  intro H. apply sanitize_fixed; [exact H | apply sanitize_safe |].
  rewrite sanitize_length by exact H. lia.
Qed.

(** X9.  What [_sanitize_filename] returns holds only letters, digits,
    [_], [.] and [-]; character by character it is the name, with an
    underscore for each other character.  With a limit that is not
    negative it is as long as the name, up to the limit, sanitising it
    again changes nothing, and a name comes back unchanged exactly when
    it is within the limit and has no other character. *)
Theorem sanitized_name_is_safe_and_stable (name : str) (max_len : Z) :
  let out := _sanitize_filename name max_len in
  Forall (fun c => safe_char c = true) out /\
  (forall i c, nth_error out i = Some c ->
               exists c0, nth_error name i = Some c0 /\
                          c = if safe_char c0 then c0 else N_of_ascii "_") /\
  ((0 <= max_len)%Z ->
   length out = Nat.min (Z.to_nat max_len) (length name) /\
   _sanitize_filename out max_len = out /\
   (out = name <->
    Forall (fun c => safe_char c = true) name /\ (Z.of_nat (length name) <= max_len)%Z)).
Proof.
  cbv zeta. split; [apply sanitize_safe|]. split.
  - intros i c Hc. unfold _sanitize_filename in Hc. fold replace_unsafe in Hc.
    destruct (slice_to_prefix (map replace_unsafe name) max_len) as (k & E).
    rewrite E in Hc. apply nth_error_firstn_some in Hc.
    rewrite nth_error_map in Hc. destruct (nth_error name i) as [c0|]; [|discriminate].
    injection Hc as <-. now exists c0.
  - intro H. split; [now apply sanitize_length|]. split; [now apply sanitize_idempotent|].
    split.
    + intro E. split.
      * rewrite <- E. apply sanitize_safe.
      * apply (f_equal (@length N)) in E. rewrite sanitize_length in E by exact H. lia.
    + intros [Hs Hl]. apply sanitize_fixed; [exact H | exact Hs | lia].
Qed.

Lemma separator_unsafe c : is_char "/" c = true -> safe_char c = false.
Proof. unfold is_char. intro H. apply N.eqb_eq in H. now subst c. Qed.

Lemma safe_no_separator (l : str) :
  Forall (fun c => safe_char c = true) l -> ~ In (N_of_ascii "/") l.
Proof.
  intros H Hin. rewrite Forall_forall in H. specialize (H _ Hin). discriminate.
Qed.

Lemma cache_suffix_cases session_type :
  cache_suffix session_type = lit "sprint" /\ session_type = lit "S" \/
  cache_suffix session_type = lit "race" /\ session_type <> lit "S".
Proof.
  unfold cache_suffix, str_eqb.
  destruct (list_eq_dec N.eq_dec session_type (lit "S")); auto.
Qed.

Lemma cache_file_name_safe str_session session_type :
  Forall (fun c => safe_char c = true) (cache_file_name str_session session_type).
Proof.
  unfold cache_file_name. repeat (apply Forall_app; split).
  - apply sanitize_safe.
  - now repeat constructor.
  - destruct (cache_suffix_cases session_type) as [[-> _]|[-> _]]; now repeat constructor.
  - now repeat constructor.
Qed.

Lemma join_in_directory (file : str) :
  Forall (fun c => safe_char c = true) file ->
  os_path_join (lit "computed_data") file = lit "computed_data/" ++ file.
Proof.
  intro H. unfold os_path_join.
  destruct file as [|c r]; [reflexivity|].
  apply Forall_inv in H. destruct (is_char "/" c) eqn:E.
  - apply separator_unsafe in E. congruence.
  - reflexivity.
Qed.

Lemma cache_path_name str_session session_type :
  cache_path str_session session_type
  = lit "computed_data/" ++ cache_file_name str_session session_type.
Proof.
  unfold cache_path, _cached_filepath.
  rewrite sanitize_idempotent by lia.
  apply join_in_directory, cache_file_name_safe.
Qed.

(** X10.  Whatever the session calls itself and whatever the session
    type, the cache file lies directly in [computed_data]: its path is
    the directory, one separator and a file name without separator, of at
    most 222 safe characters, made of the sanitised name, the suffix and
    [_telemetry.json]; sanitising the name a second time, as
    [_cached_filepath] does, changes nothing. *)
Theorem cache_file_stays_in_its_directory (str_session session_type : str) :
  exists file,
    cache_path str_session session_type = lit "computed_data/" ++ file /\
    file = _sanitize_filename str_session 200 ++ lit "_"
           ++ cache_suffix session_type ++ lit "_telemetry.json" /\
    ~ In (N_of_ascii "/") file /\
    Forall (fun c => safe_char c = true) file /\
    length file <= 222 /\
    _cached_filepath str_session (cache_suffix session_type)
    = cache_path str_session session_type.
Proof.
  exists (cache_file_name str_session session_type).
  pose proof (cache_file_name_safe str_session session_type) as Hs.
  split; [apply cache_path_name|]. split; [reflexivity|].
  split; [now apply safe_no_separator|]. split; [exact Hs|]. split.
  - unfold cache_file_name. rewrite !length_app, sanitize_length by lia.
    destruct (cache_suffix_cases session_type) as [[-> _]|[-> _]]; cbn; lia.
  - unfold cache_path, _cached_filepath. now rewrite sanitize_idempotent by lia.
Qed.

Lemma app_last_eq {A} (l1 l2 : list A) (a b : A) :
  l1 ++ [a] = l2 ++ [b] -> a = b.
Proof. intro H. now apply app_inj_tail in H. Qed.

(** X11.  Two sessions use the same cache file exactly when their
    sanitised names are equal and both or neither has the type ['S']:
    names that differ only in characters that are replaced, or only
    beyond the 200th character, share it, and so do all session types
    other than ['S']. *)
Theorem sessions_share_a_cache_file_iff (name1 type1 name2 type2 : str) :
  cache_path name1 type1 = cache_path name2 type2 <->
  _sanitize_filename name1 200 = _sanitize_filename name2 200 /\
  (type1 = lit "S" <-> type2 = lit "S").
Proof.
  rewrite !cache_path_name. unfold cache_file_name. split.
  - intro H. apply app_inv_head in H.
    rewrite !app_assoc in H. apply app_inv_tail in H.
    destruct (cache_suffix_cases type1) as [[E1 T1]|[E1 T1]],
             (cache_suffix_cases type2) as [[E2 T2]|[E2 T2]];
      rewrite E1, E2 in H.
    + apply app_inv_tail in H. apply app_inv_tail in H. tauto.
    + exfalso. change (lit "sprint") with (lit "sprin" ++ [N_of_ascii "t"]) in H.
      change (lit "race") with (lit "rac" ++ [N_of_ascii "e"]) in H.
      rewrite !app_assoc in H. apply app_last_eq in H. discriminate.
    + exfalso. change (lit "sprint") with (lit "sprin" ++ [N_of_ascii "t"]) in H.
      change (lit "race") with (lit "rac" ++ [N_of_ascii "e"]) in H.
      rewrite !app_assoc in H. apply app_last_eq in H. discriminate.
    + apply app_inv_tail in H. apply app_inv_tail in H. tauto.
  - intros [-> Ht].
    destruct (cache_suffix_cases type1) as [[E1 T1]|[E1 T1]],
             (cache_suffix_cases type2) as [[E2 T2]|[E2 T2]];
      rewrite E1, E2; try reflexivity; tauto.
Qed.

(** ** The cache on disk *)

Lemma str_eqb_refl (a : str) : str_eqb a a = true.
Proof. unfold str_eqb. destruct (list_eq_dec N.eq_dec a a); congruence. Qed.

Lemma str_eqb_neq (a b : str) : a <> b -> str_eqb a b = false.
Proof. unfold str_eqb. destruct (list_eq_dec N.eq_dec a b); congruence. Qed.

Lemma truthy_payload p : truthy (json_of_payload p) = true.
Proof. reflexivity. Qed.

Lemma computed_not_cached tyre refresh c s p :
  get_race_telemetry tyre refresh c s = Ok (Computed p) ->
  compute_telemetry tyre s = Ok p.
Proof.
  unfold get_race_telemetry.
  assert (H : (x <- compute_telemetry tyre s ;; Ok (Computed x)) = Ok (Computed p) ->
              compute_telemetry tyre s = Ok p).
  { destruct (compute_telemetry tyre s); cbn; congruence. }
  destruct (negb refresh); [|exact H].
  destruct (_load_cached c) as [v|]; [|exact H].
  destruct (truthy v); [discriminate | exact H].
Qed.

(** X12.  A payload that is computed and written is what the next call
    without [--refresh-data] returns, for every session that has the same
    cache path, whatever that session holds: its telemetry is not looked
    at and nothing is written.  Writing the payload touches no other
    file, and the payload written is the one computed from the session. *)
Theorem written_payload_is_served_next_time
        (get_tyre_compound_int : string -> Z) (refresh : bool) (fs fs' : store)
        (name1 type1 name2 type2 : str) (s1 : session) (p : payload) :
  get_race_telemetry_on get_tyre_compound_int refresh Written fs name1 type1 s1
  = (Ok (Computed p), fs') ->
  cache_path name2 type2 = cache_path name1 type1 ->
  (forall w s2,
      get_race_telemetry_on get_tyre_compound_int false w fs' name2 type2 s2
      = (Ok (Cached (json_of_payload p)), fs')) /\
  (forall path, path <> cache_path name1 type1 -> fs' path = fs path) /\
  compute_telemetry get_tyre_compound_int s1 = Ok p.
Proof.
  unfold get_race_telemetry_on. intros H Hpath.
  destruct (get_race_telemetry get_tyre_compound_int refresh
              (fs (cache_path name1 type1)) s1) as [[v|p0]|e] eqn:E;
    try discriminate.
  injection H as -> <-. split; [|split].
  - intros w s2. rewrite Hpath. unfold _save_cached at 1, write_file at 1.
    rewrite str_eqb_refl. reflexivity.
  - intros path Hne. unfold _save_cached, write_file. now rewrite str_eqb_neq.
  - eapply computed_not_cached, E.
Qed.

Lemma written_payload_is_served_next_time_witness :
  (forall w s2,
      get_race_telemetry_on (fun _ => 1%Z) false w
        (_save_cached Written (cache_path (lit "Race 1") (lit "R")) two_driver_payload
                      (fun _ => Missing))
        (lit "Race/1") (lit "Q") s2
      = (Ok (Cached (json_of_payload two_driver_payload)),
         _save_cached Written (cache_path (lit "Race 1") (lit "R")) two_driver_payload
                      (fun _ => Missing))) /\
  (forall path, path <> cache_path (lit "Race 1") (lit "R") ->
                _save_cached Written (cache_path (lit "Race 1") (lit "R")) two_driver_payload
                             (fun _ => Missing) path = Missing) /\
  compute_telemetry (fun _ => 1%Z) two_driver_session = Ok two_driver_payload.
Proof.
  apply (written_payload_is_served_next_time (fun _ => 1%Z) false (fun _ => Missing)
           _ (lit "Race 1") (lit "R") (lit "Race/1") (lit "Q") two_driver_session).
  - unfold get_race_telemetry_on, get_race_telemetry. cbn [negb _load_cached].
    rewrite two_driver_payload_computed. reflexivity.
  - vm_compute. reflexivity.
Defined.

(** ** Driver colours *)

Lemma int_raises py_int x base e : int_ py_int x base = Raise e -> e = ValueError.
Proof. unfold int_. destruct (py_int x base); [discriminate | congruence]. Qed.

Lemma hex_to_rgb_raises py_int h e : hex_to_rgb py_int h = Raise e -> e = ValueError.
Proof.
  unfold hex_to_rgb.
  destruct (int_ py_int (slice (lstrip "#" h) 0 2) 16) eqn:E1; cbn [bind];
    [|intros [= <-]; eapply int_raises, E1].
  destruct (int_ py_int (slice (lstrip "#" h) 2 4) 16) eqn:E2; cbn [bind];
    [|intros [= <-]; eapply int_raises, E2].
  destruct (int_ py_int (slice (lstrip "#" h) 4 6) 16) eqn:E3; cbn [bind];
    [discriminate | intros [= <-]; eapply int_raises, E3].
Qed.

Lemma slice_short (s : str) i j : length s <= i -> slice s i j = [].
Proof. intro H. unfold slice. rewrite skipn_all2 by exact H. apply firstn_nil. Qed.

Lemma hex_to_rgb_short py_int h :
  py_int [] 16%Z = None -> length (lstrip "#" h) <= 4 ->
  hex_to_rgb py_int h = Raise ValueError.
Proof.
  intros H0 Hl.
  destruct (hex_to_rgb py_int h) as [v|e] eqn:E; [|now rewrite (hex_to_rgb_raises _ _ _ E)].
  exfalso. unfold hex_to_rgb in E.
  rewrite (slice_short (lstrip "#" h) 4 6 Hl) in E.
  destruct (int_ py_int (slice (lstrip "#" h) 0 2) 16); cbn [bind] in E; [|discriminate].
  destruct (int_ py_int (slice (lstrip "#" h) 2 4) 16); cbn [bind] in E; [|discriminate].
  unfold int_ in E. rewrite H0 in E. discriminate.
Qed.

(** X13.  A colour with fewer than five characters after its leading
    [#], such as the short form [#fff], stops [get_driver_colors] with
    [ValueError], wherever it stands in the table: its third pair of
    digits is empty, and [int] refuses the empty string. *)
Theorem short_colour_aborts
        (py_int : str -> Z -> option Z) (color_mapping : list (string * str))
        (driver : string) (hex_color : str) :
  py_int [] 16%Z = None ->
  In (driver, hex_color) color_mapping ->
  length (lstrip "#" hex_color) <= 4 ->
  get_driver_colors py_int color_mapping = Raise ValueError.
Proof.
  intros H0 Hin Hl. unfold get_driver_colors.
  apply foldM_raises with (b := (driver, hex_color)); [|exact Hin|].
  - intros a [d h] e. destruct (hex_to_rgb py_int h) eqn:E; cbn [bind]; [discriminate|].
    intros [= <-]. eapply hex_to_rgb_raises, E.
  - intro a. now rewrite (hex_to_rgb_short py_int hex_color H0 Hl).
Qed.

Lemma short_colour_aborts_witness :
  get_driver_colors (fun x _ => match x with [] => None | _ => Some 255%Z end)
                    [("VER"%string, lit "#0600ef"); ("HAM"%string, lit "#fff")]
  = Raise ValueError.
Proof.
  apply (short_colour_aborts _ _ "HAM"%string (lit "#fff")).
  - reflexivity.
  - right. left. reflexivity.
  - vm_compute. lia.
Defined.

Lemma lstrip_head c (s : str) :
  match lstrip c s with a :: _ => is_char c a = false | [] => True end.
Proof.
  induction s as [|a r IH]; [exact I|]. cbn.
  destruct (is_char c a) eqn:E; [exact IH | exact E].
Qed.

Lemma lstrip_stripped c (s : str) :
  match s with a :: _ => is_char c a = false | [] => True end -> lstrip c s = s.
Proof. destruct s as [|a r]; [reflexivity|]. cbn. now intros ->. Qed.

Lemma lstrip_idempotent c (s : str) : lstrip c (lstrip c s) = lstrip c s.
Proof. apply lstrip_stripped, lstrip_head. Qed.

Lemma lstrip_firstn c n (s : str) : lstrip c (firstn n (lstrip c s)) = firstn n (lstrip c s).
Proof.
  apply lstrip_stripped. pose proof (lstrip_head c s) as H.
  destruct (lstrip c s) as [|a r]; destruct n; cbn; auto.
Qed.

Lemma slice_firstn (s : str) n i j : j <= n -> slice (firstn n s) i j = slice s i j.
Proof.
  intro H. unfold slice. rewrite skipn_firstn_comm, firstn_firstn.
  f_equal. lia.
Qed.

Lemma slice_from_0 (s : str) j : slice s 0 j = firstn j s.
Proof. unfold slice. now rewrite Nat.sub_0_r. Qed.

Lemma hex_to_rgb_six py_int h :
  hex_to_rgb py_int (slice (lstrip "#" h) 0 6) = hex_to_rgb py_int h.
Proof.
  rewrite slice_from_0. unfold hex_to_rgb.
  rewrite lstrip_firstn. now rewrite !slice_firstn by lia.
Qed.

Lemma foldM_map {A B C} (f : A -> B -> result A) (g : C -> B) l a :
  foldM f (map g l) a = foldM (fun a c => f a (g c)) l a.
Proof.
  revert a. induction l as [|c l IH]; intro a; [reflexivity|].
  cbn. destruct (f a (g c)); cbn; [apply IH | reflexivity].
Qed.

(** X14.  The colour table depends only on the first six characters
    that follow the leading [#]s of each colour: an alpha channel, or
    anything else after them, is not read, and any number of leading
    [#]s is dropped. *)
Theorem colours_are_read_from_six_characters
        (py_int : str -> Z -> option Z) (color_mapping : list (string * str)) :
  get_driver_colors py_int
    (map (fun dh => (fst dh, slice (lstrip "#" (snd dh)) 0 6)) color_mapping)
  = get_driver_colors py_int color_mapping /\
  (forall hex_color,
      hex_to_rgb py_int (N_of_ascii "#" :: hex_color) = hex_to_rgb py_int hex_color) /\
  (forall hex_color rest,
      6 <= length (lstrip "#" hex_color) ->
      hex_to_rgb py_int (hex_color ++ rest) = hex_to_rgb py_int hex_color).
Proof.
  split; [|split].
  - unfold get_driver_colors. rewrite foldM_map. apply foldM_ext_in.
    intros [d h] _ a. cbn [fst snd]. now rewrite hex_to_rgb_six.
  - intro h. reflexivity.
  - intros h rest Hl. rewrite <- (hex_to_rgb_six py_int h), <- (hex_to_rgb_six py_int (h ++ rest)).
    f_equal. rewrite !slice_from_0.
    assert (E : lstrip "#" (h ++ rest) = lstrip "#" h ++ rest).
    { induction h as [|a r IH].
      - cbn in Hl. lia.
      - cbn in Hl |- *. destruct (is_char "#" a); [apply IH; exact Hl | reflexivity]. }
    rewrite E, firstn_app. replace (6 - length (lstrip "#" h)) with 0 by lia.
    cbn [firstn]. now rewrite app_nil_r.
Qed.

Lemma get_driver_colors_from py_int l a out :
  foldM (fun rgb_colors '(driver, hex_color) =>
           rgb <- hex_to_rgb py_int hex_color ;; Ok (dict_set driver rgb rgb_colors))
        l a = Ok out ->
  NoDup (keys a ++ keys l) ->
  exists cs, out = a ++ cs /\ Forall2 (colour_read py_int) l cs.
Proof.
  revert a. induction l as [|[d h] l IH]; intros a Hf Hnd.
  - cbn in Hf. injection Hf as <-. exists []. rewrite app_nil_r. split; constructor.
  - cbn [foldM] in Hf. destruct (hex_to_rgb py_int h) as [c|e] eqn:Eh; cbn [bind] in Hf;
      [|discriminate].
    cbn [keys map fst] in Hnd.
    assert (Hd : ~ In d (keys a)).
    { intro Hin. apply NoDup_remove_2 in Hnd. apply Hnd, in_or_app. now left. }
    rewrite (dict_set_new d c a Hd) in Hf.
    destruct (IH _ Hf) as (cs & -> & Hcs).
    + unfold keys in *. rewrite map_app, <- app_assoc. exact Hnd.
    + exists ((d, c) :: cs). rewrite <- app_assoc. split; [reflexivity|].
      constructor; [now split | exact Hcs].
Qed.

(** X15.  When [get_driver_colors] returns, its table has the drivers of
    the provider's mapping, each once and in the same order, and under
    each driver the triple read from that driver's colour. *)
Theorem colour_table_lists_every_driver
        (py_int : str -> Z -> option Z) (color_mapping : list (string * str))
        (rgb_colors : list (string * rgb)) :
  get_driver_colors py_int color_mapping = Ok rgb_colors ->
  NoDup (keys color_mapping) ->
  keys rgb_colors = keys color_mapping /\
  Forall2 (colour_read py_int) color_mapping rgb_colors.
Proof.
  intros H Hnd. destruct (get_driver_colors_from py_int _ [] _ H Hnd) as (cs & -> & Hcs).
  split; [|exact Hcs]. cbn [app]. clear -Hcs.
  induction Hcs as [|dh dc l cs [E _] _ IH]; [reflexivity|].
  unfold keys in *. cbn [map]. now rewrite IH, E.
Qed.

Lemma colour_table_lists_every_driver_witness :
  keys [("VER"%string, (255, 255, 255)%Z); ("HAM"%string, (255, 255, 255)%Z)]
  = keys [("VER"%string, lit "#0600ef"); ("HAM"%string, lit "27F4D2")] /\
  Forall2 (colour_read (fun x _ => match x with [] => None | _ => Some 255%Z end))
          [("VER"%string, lit "#0600ef"); ("HAM"%string, lit "27F4D2")]
          [("VER"%string, (255, 255, 255)%Z); ("HAM"%string, (255, 255, 255)%Z)].
Proof.
  apply colour_table_lists_every_driver.
  - reflexivity.
  - repeat constructor; cbn; intuition discriminate.
Defined.

(** ** The command line *)

Lemma contains_In (l : list str) (x : str) : contains l x = true <-> In x l.
Proof.
  unfold contains. rewrite existsb_exists. split.
  - intros (a & Ha & E). unfold str_eqb in E.
    destruct (list_eq_dec N.eq_dec a x); [now subst | discriminate].
  - intro H. exists x. split; [exact H | apply str_eqb_refl].
Qed.

Lemma contains_not_In (l : list str) (x : str) : contains l x = false <-> ~ In x l.
Proof.
  rewrite <- contains_In. destruct (contains l x); split; congruence.
Qed.

Lemma index_first (pre rest : list str) (x : str) :
  ~ In x pre -> index (pre ++ x :: rest) x = Ok (length pre).
Proof.
  induction pre as [|a pre IH]; intro H; cbn.
  - now rewrite str_eqb_refl.
  - rewrite str_eqb_neq by (intro E; apply H; now left).
    rewrite IH by (intro E; apply H; now right). reflexivity.
Qed.

Lemma flag_value_absent py_int flag default argv :
  ~ In flag argv -> flag_value py_int flag default argv = Ok default.
Proof. intro H. unfold flag_value. now rewrite (proj2 (contains_not_In _ _) H). Qed.

Lemma flag_value_last py_int flag default pre :
  ~ In flag pre -> flag_value py_int flag default (pre ++ [flag]) = Ok default.
Proof.
  intro H. unfold flag_value.
  rewrite (proj2 (contains_In _ _)) by (apply in_or_app; right; now left).
  rewrite (index_first pre [] flag H). cbn [bind]. unfold item.
  rewrite (proj2 (nth_error_None _ _)) by (rewrite length_app; cbn; lia).
  reflexivity.
Qed.

Lemma flag_value_first py_int flag default pre v rest :
  ~ In flag pre ->
  flag_value py_int flag default (pre ++ flag :: v :: rest)
  = Ok (match py_int v 10%Z with Some n => n | None => default end).
Proof.
  intro H. unfold flag_value.
  rewrite (proj2 (contains_In _ _)) by (apply in_or_app; right; now left).
  rewrite (index_first pre (v :: rest) flag H). cbn [bind]. unfold item.
  replace (nth_error (pre ++ flag :: v :: rest) (length pre + 1)) with (Some v).
  - cbn [bind]. unfold int_. now destruct (py_int v 10%Z).
  - rewrite nth_error_app2 by lia.
    replace (length pre + 1 - length pre) with 1 by lia. reflexivity.
Qed.

Lemma flag_value_ok py_int flag default argv :
  exists n, flag_value py_int flag default argv = Ok n.
Proof.
  unfold flag_value. destruct (contains argv flag); [|eauto].
  destruct (index argv flag) as [i|e] eqn:Ei; cbn [bind].
  - unfold item. destruct (nth_error argv (i + 1)) as [v|]; cbn [bind]; [|eauto].
    unfold int_. destruct (py_int v 10%Z); eauto.
  - assert (e = ValueError) as ->; [|eauto].
    clear -Ei. revert e Ei. induction argv as [|a r IH]; intros e; cbn.
    + congruence.
    + destruct (str_eqb a flag); [discriminate|].
      destruct (index r flag) as [i|e0]; cbn [bind]; [discriminate|].
      intros [= <-]. now apply IH.
Qed.

(** X16.  [parse_arguments] never raises, whatever the command line and
    whatever [int] accepts.  The session type is ['S'] when [--sprint]
    stands anywhere on the line, also as the value of another flag, and
    ['R'] otherwise; without [--year] the year is 2025 and without
    [--round] the round is 12. *)
Theorem parse_arguments_never_raises
        (py_int : str -> Z -> option Z) (argv : list str) :
  exists year round_number session_type,
    parse_arguments py_int argv = Ok (year, round_number, session_type) /\
    (In (lit "--sprint") argv -> session_type = lit "S") /\
    (~ In (lit "--sprint") argv -> session_type = lit "R") /\
    (~ In (lit "--year") argv -> year = 2025%Z) /\
    (~ In (lit "--round") argv -> round_number = 12%Z).
Proof.
  unfold parse_arguments.
  destruct (flag_value_ok py_int (lit "--year") 2025%Z argv) as (y & Hy).
  destruct (flag_value_ok py_int (lit "--round") 12%Z argv) as (r & Hr).
  rewrite Hy, Hr. cbn [bind]. do 3 eexists. split; [reflexivity|].
  split; [|split; [|split]].
  - intro H. now rewrite (proj2 (contains_In _ _) H).
  - intro H. now rewrite (proj2 (contains_not_In _ _) H).
  - intro H. rewrite flag_value_absent in Hy by exact H. congruence.
  - intro H. rewrite flag_value_absent in Hr by exact H. congruence.
Qed.

(** X17.  Only the first [--year] counts, and only the argument right
    after it: the year is [int] of that argument, or 2025 when [int]
    refuses it or when the flag is the last argument; what comes later,
    a second [--year] included, is not read.  The same holds for
    [--round] and 12. *)
Theorem first_flag_decides
        (py_int : str -> Z -> option Z) (pre rest : list str) (v : str) :
  (~ In (lit "--year") pre ->
   (exists round_number session_type,
       parse_arguments py_int (pre ++ lit "--year" :: v :: rest)
       = Ok (match py_int v 10%Z with Some n => n | None => 2025%Z end,
             round_number, session_type)) /\
   (exists round_number session_type,
       parse_arguments py_int (pre ++ [lit "--year"])
       = Ok (2025%Z, round_number, session_type))) /\
  (~ In (lit "--round") pre ->
   (exists year session_type,
       parse_arguments py_int (pre ++ lit "--round" :: v :: rest)
       = Ok (year, match py_int v 10%Z with Some n => n | None => 12%Z end,
             session_type)) /\
   (exists year session_type,
       parse_arguments py_int (pre ++ [lit "--round"])
       = Ok (year, 12%Z, session_type))).
Proof.
  unfold parse_arguments. split; intro H; split.
  - rewrite (flag_value_first _ _ _ _ _ _ H). cbn [bind].
    destruct (flag_value_ok py_int (lit "--round") 12%Z (pre ++ lit "--year" :: v :: rest))
      as (r & ->). cbn [bind]. eauto.
  - rewrite (flag_value_last _ _ _ _ H). cbn [bind].
    destruct (flag_value_ok py_int (lit "--round") 12%Z (pre ++ [lit "--year"]))
      as (r & ->). cbn [bind]. eauto.
  - rewrite (flag_value_first _ _ 12%Z _ _ _ H).
    destruct (flag_value_ok py_int (lit "--year") 2025%Z (pre ++ lit "--round" :: v :: rest))
      as (y & ->). cbn [bind]. eauto.
  - rewrite (flag_value_last _ _ 12%Z _ H).
    destruct (flag_value_ok py_int (lit "--year") 2025%Z (pre ++ [lit "--round"]))
      as (y & ->). cbn [bind]. eauto.
Qed.
